(** * KDBush: a static 2D point index laid out as a flat k-d tree

    Shallow embedding of [kdbush.go] and the verification of its
    construction ([NewBush], [sort], [sselect]) and of its two queries
    ([Range], [Within]).

    Modelling conventions.
    - Go [int] is [Z].  Every integer the program computes is an array
      position, a difference or a sum of two positions, so it stays far
      below the 64-bit bound and no wrap-around can occur.
    - A coordinate, a box bound, a radius is a finite [float64], held as
      the rational number [Q] it denotes; comparing two of them is comparing
      the rationals.  What floating-point arithmetic computes from them
      (the differences, products and sums of [Within] and [sqrtDist]) is a
      value of [f64]: not a number, an infinity, or a finite value, every
      operation rounding its exact result to the nearest binary64 number,
      ties to even, with overflow to an infinity and gradual underflow.  The
      two zeros are not distinguished; no operation of the program tells
      them apart.  Each operation is rounded on its own (no fused
      multiply-add), as the Go compiler does on amd64.
    - A slice is a [list]; reading or writing outside it panics, which is
      the outcome [Panic].  Loops and recursion carry a fuel argument and
      give [OutOfFuel] when it is used up.
    - Slices are passed by reference in Go and mutated in place; the
      embedding threads the pair of arrays through every call. *)

From Stdlib Require Import ZArith QArith Qround Qabs Qpower Qreduction Lia Lqa.
From stdpp Require Import base tactics option list list_numbers.

Open Scope Z_scope.

(** ** Outcomes of a run *)

Inductive outcome (A : Type) : Type :=
| Ok (a : A)
| Panic
| OutOfFuel.

Arguments Ok {A} a.
Arguments Panic {A}.
Arguments OutOfFuel {A}.

#[global] Instance outcome_ret : MRet outcome := fun A a => Ok a.

#[global] Instance outcome_bind : MBind outcome := fun A B f m =>
  match m with
  | Ok a => f a
  | Panic => Panic
  | OutOfFuel => OutOfFuel
  end.

(** ** Slices *)

(** [a[i]] *)
Definition get {A : Type} (a : list A) (i : Z) : outcome A :=
  if 0 <=? i then
    match a !! Z.to_nat i with
    | Some v => Ok v
    | None => Panic
    end
  else Panic.

(** [a[i] = v] *)
Definition set {A : Type} (a : list A) (i : Z) (v : A) : outcome (list A) :=
  if (0 <=? i) && (i <? Z.of_nat (length a)) then Ok (<[Z.to_nat i := v]> a)
  else Panic.

(** [len(a)] *)
Definition len {A : Type} (a : list A) : Z := Z.of_nat (length a).

(** ** Comparison of coordinates *)

Definition Qltb (x y : Q) : bool :=
  match Qcompare x y with
  | Lt => true
  | _ => false
  end.

Definition Qgtb (x y : Q) : bool := Qltb y x.
Definition Qleb (x y : Q) : bool := Qle_bool x y.
Definition Qgeb (x y : Q) : bool := Qle_bool y x.
Definition Qeqb (x y : Q) : bool := Qeq_bool x y.

(** ** Points *)

Class Point (A : Type) := Coordinates : A -> Q * Q.

Record SimplePoint := { X : Q; Y : Q }.

#[global] Instance SimplePoint_Point : Point SimplePoint :=
  fun sp => (X sp, Y sp).

(** ** The index *)

Record KDBush (A : Type) := mkKDBush {
  NodeSize : Z;
  Points : list A;
  Idxs : list Z;
  Coords : list Q
}.

Arguments mkKDBush {A} _ _ _ _.
Arguments NodeSize {A} _.
Arguments Points {A} _.
Arguments Idxs {A} _.
Arguments Coords {A} _.

(** ** Small helpers of the source *)

Definition swapf (a : list Q) (i j : Z) : outcome (list Q) :=
  t ← get a i;
  aj ← get a j;
  a ← set a i aj;
  set a j t.

Definition swapi (a : list Z) (i j : Z) : outcome (list Z) :=
  t ← get a i;
  aj ← get a j;
  a ← set a i aj;
  set a j t.

Definition swapItem (Idxs : list Z) (Coords : list Q) (i j : Z)
  : outcome (list Z * list Q) :=
  Idxs ← swapi Idxs i j;
  Coords ← swapf Coords (2 * i) (2 * j);
  Coords ← swapf Coords (2 * i + 1) (2 * j + 1);
  Ok (Idxs, Coords).

Definition iMax (a b : Z) : Z := if a >? b then a else b.

Definition iMin (a b : Z) : Z := if a <? b then a else b.

(** [int(math.Floor(in))] *)
Definition floor (q : Q) : Z := Qfloor q.

(** [float64(n)] for an integer [n] with [|n| <= 2^53], where the conversion
    is exact.  The program converts sums of two positions of a slice only
    (the Floyd-Rivest bracket apart, which is not computed here), and these
    stay below that bound. *)
Definition float64 (n : Z) : Q := inject_Z n.

(** ** Floating-point arithmetic *)

(** The values of type [float64]. *)
Inductive f64 : Type :=
| NaN
| Inf (negative : bool)
| Fin (q : Q).

Definition pow2 (e : Z) : Q := Qpower 2 e.

(** The binary exponent of a positive rational: [2^e <= a < 2^(e+1)]. *)
Definition ilog2 (a : Q) : Z :=
  let e := Z.log2 (Qnum a) - Z.log2 (Zpos (Qden a)) in
  if Qle_bool (pow2 e) a then e else e - 1.

(** The nearest integer, ties to the even one. *)
Definition nearestEven (q : Q) : Z :=
  let f := Qfloor q in
  match Qcompare (q - inject_Z f) (1 # 2) with
  | Lt => f
  | Gt => f + 1
  | Eq => if Z.even f then f else f + 1
  end.

(** The distance between consecutive binary64 numbers around a positive [a]:
    53 significant bits, the exponent not below that of the subnormal
    numbers. *)
Definition ulp (a : Q) : Q := pow2 (Z.max (ilog2 a) (-1022) - 52).

(** The multiple of [ulp a] nearest to a positive [a]. *)
Definition nearest64 (a : Q) : Q :=
  (inject_Z (nearestEven (a / ulp a)) * ulp a)%Q.

(** Rounding of an exact result to [float64]: to nearest, ties to even; a
    result that rounds to [2^1024] or more in magnitude overflows. *)
Definition round64 (q : Q) : f64 :=
  if Qeq_bool q 0 then Fin 0
  else
    let r := nearest64 (Qabs q) in
    if Qle_bool (pow2 1024) r then Inf (Qle_bool q 0)
    else Fin (Qred (if Qle_bool q 0 then - r else r)).

(** [-x] *)
Definition fneg (x : f64) : f64 :=
  match x with
  | NaN => NaN
  | Inf s => Inf (negb s)
  | Fin q => Fin (- q)
  end.

(** [x + y] *)
Definition fadd (x y : f64) : f64 :=
  match x, y with
  | NaN, _ | _, NaN => NaN
  | Inf s, Inf s' => if Bool.eqb s s' then Inf s else NaN
  | Inf s, Fin _ | Fin _, Inf s => Inf s
  | Fin a, Fin b => round64 (a + b)
  end.

(** [x - y] *)
Definition fsub (x y : f64) : f64 := fadd x (fneg y).

(** [x * y] *)
Definition fmul (x y : f64) : f64 :=
  match x, y with
  | NaN, _ | _, NaN => NaN
  | Inf s, Inf s' => Inf (xorb s s')
  | Inf s, Fin b | Fin b, Inf s =>
      if Qeq_bool b 0 then NaN else Inf (xorb s (negb (Qle_bool 0 b)))
  | Fin a, Fin b => round64 (a * b)
  end.

(** [x <= y]; false as soon as one side is not a number. *)
Definition fle (x y : f64) : bool :=
  match x, y with
  | NaN, _ | _, NaN => false
  | Inf true, _ | _, Inf false => true
  | Inf false, _ | _, Inf true => false
  | Fin a, Fin b => Qle_bool a b
  end.

(** [x >= y] *)
Definition fge (x y : f64) : bool := fle y x.

Definition sqrtDist (ax ay bx by' : f64) : f64 :=
  let dx := fsub ax bx in
  let dy := fsub ay by' in
  fadd (fmul dx dx) (fmul dy dy).

(** ** The two inner scans of [sselect]

    [for Coords[2*i+inc] < t { i += 1 }] and
    [for Coords[2*j+inc] > t { j -= 1 }]. *)

Fixpoint scan_up (fuel : nat) (Coords : list Q) (inc : Z) (t : Q) (i : Z)
  : outcome Z :=
  match fuel with
  | O => OutOfFuel
  | S fuel =>
      c ← get Coords (2 * i + inc);
      if Qltb c t then scan_up fuel Coords inc t (i + 1) else Ok i
  end.

Fixpoint scan_down (fuel : nat) (Coords : list Q) (inc : Z) (t : Q) (j : Z)
  : outcome Z :=
  match fuel with
  | O => OutOfFuel
  | S fuel =>
      c ← get Coords (2 * j + inc);
      if Qgtb c t then scan_down fuel Coords inc t (j - 1) else Ok j
  end.

(** The two-pointer loop [for i < j { ... }] of [sselect]. *)
Fixpoint partition_loop (fuel : nat) (Idxs : list Z) (Coords : list Q)
    (inc : Z) (t : Q) (i j : Z) : outcome (list Z * list Q * Z * Z) :=
  match fuel with
  | O => OutOfFuel
  | S fuel =>
      if i <? j then
        '(Idxs, Coords) ← swapItem Idxs Coords i j;
        let i := i + 1 in
        let j := j - 1 in
        i ← scan_up fuel Coords inc t i;
        j ← scan_down fuel Coords inc t j;
        partition_loop fuel Idxs Coords inc t i j
      else Ok (Idxs, Coords, i, j)
  end.

(** ** Concrete data used by the examples *)

Definition pt (x y : Z) : SimplePoint := {| X := inject_Z x; Y := inject_Z y |}.

Definition diagonal5 : list SimplePoint :=
  [pt 0 0; pt 1 1; pt 2 2; pt 3 3; pt 4 4].

Definition scattered7 : list SimplePoint :=
  [pt 5 1; pt 3 6; pt 3 2; pt 9 9; pt 0 4; pt 3 3; pt 7 0].

(** Five records, four of which have the same first coordinate. *)
Definition tiedIdxs : list Z := [0; 1; 2; 3; 4].
Definition tiedCoords : list Q := [2; 0; 2; 1; 1; 2; 2; 3; 2; 4]%Q.


Definition westOf : SimplePoint :=
  {| X := -5291729562160333 # 1125899906842624; Y := 0 |}.

(** The point whose coordinates are the binary64 numbers nearest to 0.3 and
    to 0.4. *)
Definition offGrid : list SimplePoint :=
  [ {| X := 5404319552844595 # 18014398509481984;
       Y := 3602879701896397 # 9007199254740992 |} ].

(** A sample bracket that collapses onto [k]; it meets the two
    assumptions made on the Floyd-Rivest bracket below. *)
Definition tightLower (n m k : Z) : Z := k.
Definition tightUpper (n m k : Z) : Z := k.

Section Index.

(** The Floyd-Rivest bracket.  For [right - left > 600] the source computes,
    with [n := right - left + 1] and [m := k - left + 1],
    [floor(float64(k) - float64(m)*s/float64(n) + sd)] and
    [floor(float64(k) + float64(n-m)*s/float64(n) + sd)], where [s] and [sd]
    come from [math.Log], [math.Exp] and [math.Sqrt].  These transcendental
    floating-point values are taken as two functions of [n], [m] and [k]. *)
Variable frLower : Z -> Z -> Z -> Z.
Variable frUpper : Z -> Z -> Z -> Z.

Context {A : Type} `{Point A}.

(** One pass of the body of the loop of [sselect], from [t := Coords[2*k+inc]]
    to the final placement of the pivot; it yields the arrays and the final
    value of [j]. *)
Definition select_pass (fuel : nat) (Idxs : list Z) (Coords : list Q)
    (k left right inc : Z) : outcome (list Z * list Q * Z) :=
  t ← get Coords (2 * k + inc);
  let i := left in
  let j := right in
  '(Idxs, Coords) ← swapItem Idxs Coords left k;
  cr ← get Coords (2 * right + inc);
  '(Idxs, Coords) ←
    (if Qgtb cr t then swapItem Idxs Coords left right
     else Ok (Idxs, Coords));
  '(Idxs, Coords, i, j) ← partition_loop fuel Idxs Coords inc t i j;
  cl ← get Coords (2 * left + inc);
  if Qeqb cl t then
    '(Idxs, Coords) ← swapItem Idxs Coords left j;
    Ok (Idxs, Coords, j)
  else
    let j := j + 1 in
    '(Idxs, Coords) ← swapItem Idxs Coords j right;
    Ok (Idxs, Coords, j).

Fixpoint sselect (fuel : nat) (Idxs : list Z) (Coords : list Q)
    (k left right inc : Z) : outcome (list Z * list Q) :=
  match fuel with
  | O => OutOfFuel
  | S fuel =>
      if right >? left then
        '(Idxs, Coords) ←
          (if right - left >? 600 then
             let n := right - left + 1 in
             let m := k - left + 1 in
             let newLeft := iMax left (frLower n m k) in
             let newRight := iMin right (frUpper n m k) in
             sselect fuel Idxs Coords k newLeft newRight inc
           else Ok (Idxs, Coords));
        '(Idxs, Coords, j) ← select_pass fuel Idxs Coords k left right inc;
        let left := if j <=? k then j + 1 else left in
        let right := if k <=? j then j - 1 else right in
        sselect fuel Idxs Coords k left right inc
      else Ok (Idxs, Coords)
  end.

Fixpoint sort (fuel : nat) (Idxs : list Z) (Coords : list Q)
    (nodeSize left right depth : Z) : outcome (list Z * list Q) :=
  match fuel with
  | O => OutOfFuel
  | S fuel =>
      if right - left <=? nodeSize then Ok (Idxs, Coords)
      else
        let m := floor (float64 (left + right) / 2) in
        '(Idxs, Coords) ← sselect fuel Idxs Coords m left right (Z.rem depth 2);
        '(Idxs, Coords) ← sort fuel Idxs Coords nodeSize left (m - 1) (depth + 1);
        sort fuel Idxs Coords nodeSize (m + 1) right (depth + 1)
  end.

(** The loop [for i, v := range points] of [buildIndex]. *)
Fixpoint fill (points : list A) (i : Z) (Idxs : list Z) (Coords : list Q)
  : outcome (list Z * list Q) :=
  match points with
  | [] => Ok (Idxs, Coords)
  | v :: points =>
      Idxs ← set Idxs i i;
      let '(x, y) := Coordinates v in
      Coords ← set Coords (i * 2) x;
      Coords ← set Coords (i * 2 + 1) y;
      fill points (i + 1) Idxs Coords
  end.

(** [buildIndex] assigns the four fields of the receiver one after the other
    ([NodeSize], [Points], then the two [make]), fills the arrays and sorts
    them. *)
Definition buildIndex (fuel : nat) (bush : KDBush A) (points : list A)
    (nodeSize : Z) : outcome (KDBush A) :=
  let bush := mkKDBush nodeSize (Points bush) (Idxs bush) (Coords bush) in
  let bush := mkKDBush (NodeSize bush) points (Idxs bush) (Coords bush) in
  let bush := mkKDBush (NodeSize bush) (Points bush)
                (replicate (length points) 0) (Coords bush) in
  let bush := mkKDBush (NodeSize bush) (Points bush) (Idxs bush)
                (replicate (2 * length points) 0%Q) in
  '(Idxs', Coords') ← fill points 0 (Idxs bush) (Coords bush);
  '(Idxs', Coords') ←
    sort fuel Idxs' Coords' (NodeSize bush) 0 (len Idxs' - 1) 0;
  Ok (mkKDBush (NodeSize bush) (Points bush) Idxs' Coords').

(** [b := KDBush{}; b.buildIndex(points, nodeSize); return &b] *)
Definition NewBush (fuel : nat) (points : list A) (nodeSize : Z)
  : outcome (KDBush A) :=
  let b := mkKDBush 0 [] [] [] in
  buildIndex fuel b points nodeSize.

(** ** Range query

    The work stack of the source is a slice of [int] whose top is its last
    element; here the top is the head of the list, so [append(stack, v)] is
    [push], reading the last element is [top] and dropping it is [pop]. *)

Definition push (stack : list Z) (v : Z) : list Z := v :: stack.

(** [stack[len(stack)-1]] *)
Definition top (stack : list Z) : outcome Z :=
  match stack with
  | v :: _ => Ok v
  | [] => Panic
  end.

(** [stack[:len(stack)-1]] *)
Definition pop (stack : list Z) : outcome (list Z) :=
  match stack with
  | _ :: stack => Ok stack
  | [] => Panic
  end.

(** [for i := left; i <= right; i++ { ... }] in the leaf case of [Range];
    the body changes neither [i] nor [right], so the loop runs [count]
    times for [count] the number of positions of [left..right]. *)
Fixpoint range_leaf (count : nat) (bush : KDBush A) (minX minY maxX maxY : Q)
    (i : Z) (result : list Z) : outcome (list Z) :=
  match count with
  | O => Ok result
  | S count =>
      x ← get (Coords bush) (2 * i);
      y ← get (Coords bush) (2 * i + 1);
      result ←
        (if Qgeb x minX && Qleb x maxX && Qgeb y minY && Qleb y maxY then
           idx ← get (Idxs bush) i;
           Ok (result ++ [idx])
         else Ok result);
      range_leaf count bush minX minY maxX maxY (i + 1) result
  end.

Fixpoint range_loop (fuel : nat) (bush : KDBush A) (minX minY maxX maxY : Q)
    (stack : list Z) (result : list Z) : outcome (list Z) :=
  match fuel with
  | O => OutOfFuel
  | S fuel =>
      if len stack >? 0 then
        axis ← top stack;
        stack ← pop stack;
        right ← top stack;
        stack ← pop stack;
        left ← top stack;
        stack ← pop stack;
        if right - left <=? NodeSize bush then
          result ← range_leaf (Z.to_nat (right - left + 1)) bush
                     minX minY maxX maxY left result;
          range_loop fuel bush minX minY maxX maxY stack result
        else
          let m := floor (float64 (left + right) / 2) in
          x ← get (Coords bush) (2 * m);
          y ← get (Coords bush) (2 * m + 1);
          result ←
            (if Qgeb x minX && Qleb x maxX && Qgeb y minY && Qleb y maxY then
               idx ← get (Idxs bush) m;
               Ok (result ++ [idx])
             else Ok result);
          let nextAxis := Z.rem (axis + 1) 2 in
          let stack :=
            if ((axis =? 0) && Qleb minX x) || (negb (axis =? 0) && Qleb minY y)
            then push (push (push stack left) (m - 1)) nextAxis
            else stack in
          let stack :=
            if ((axis =? 0) && Qgeb maxX x) || (negb (axis =? 0) && Qgeb maxY y)
            then push (push (push stack (m + 1)) right) nextAxis
            else stack in
          range_loop fuel bush minX minY maxX maxY stack result
      else Ok result
  end.

Definition Range (fuel : nat) (bush : KDBush A) (minX minY maxX maxY : Q)
  : outcome (list Z) :=
  let stack := push (push (push [] 0) (len (Idxs bush) - 1)) 0 in
  let result := [] in
  range_loop fuel bush minX minY maxX maxY stack result.

(** ** Radius query *)

Fixpoint within_leaf (count : nat) (bush : KDBush A) (qx qy : Q) (r2 : f64)
    (i : Z) (result : list Z) : outcome (list Z) :=
  match count with
  | O => Ok result
  | S count =>
      cx ← get (Coords bush) (2 * i);
      cy ← get (Coords bush) (2 * i + 1);
      let dst := sqrtDist (Fin cx) (Fin cy) (Fin qx) (Fin qy) in
      result ←
        (if fle dst r2 then
           idx ← get (Idxs bush) i;
           Ok (result ++ [idx])
         else Ok result);
      within_leaf count bush qx qy r2 (i + 1) result
  end.

Fixpoint within_loop (fuel : nat) (bush : KDBush A) (qx qy radius : Q)
    (r2 : f64) (stack : list Z) (result : list Z) : outcome (list Z) :=
  match fuel with
  | O => OutOfFuel
  | S fuel =>
      if len stack >? 0 then
        axis ← top stack;
        stack ← pop stack;
        right ← top stack;
        stack ← pop stack;
        left ← top stack;
        stack ← pop stack;
        if right - left <=? NodeSize bush then
          result ← within_leaf (Z.to_nat (right - left + 1)) bush
                     qx qy r2 left result;
          within_loop fuel bush qx qy radius r2 stack result
        else
          let m := floor (float64 (left + right) / 2) in
          x ← get (Coords bush) (2 * m);
          y ← get (Coords bush) (2 * m + 1);
          result ←
            (if fle (sqrtDist (Fin x) (Fin y) (Fin qx) (Fin qy)) r2 then
               idx ← get (Idxs bush) m;
               Ok (result ++ [idx])
             else Ok result);
          let nextAxis := Z.rem (axis + 1) 2 in
          let stack :=
            if ((axis =? 0) && fle (fsub (Fin qx) (Fin radius)) (Fin x))
               || (negb (axis =? 0) && fle (fsub (Fin qy) (Fin radius)) (Fin y))
            then push (push (push stack left) (m - 1)) nextAxis
            else stack in
          let stack :=
            if ((axis =? 0) && fge (fadd (Fin qx) (Fin radius)) (Fin x))
               || (negb (axis =? 0) && fge (fadd (Fin qy) (Fin radius)) (Fin y))
            then push (push (push stack (m + 1)) right) nextAxis
            else stack in
          within_loop fuel bush qx qy radius r2 stack result
      else Ok result
  end.

Definition Within {B : Type} `{Point B} (fuel : nat) (bush : KDBush A)
    (point : B) (radius : Q) : outcome (list Z) :=
  let stack := push (push (push [] 0) (len (Idxs bush) - 1)) 0 in
  let result := [] in
  let r2 := fmul (Fin radius) (Fin radius) in
  let '(qx, qy) := Coordinates point in
  within_loop fuel bush qx qy radius r2 stack result.

(** ** Specification vocabulary *)

(** Reading the arrays by position, with a default outside them. *)
Definition idxAt (Idxs : list Z) (p : Z) : Z :=
  if 0 <=? p then default 0 (Idxs !! Z.to_nat p) else 0.

Definition coordAt (Coords : list Q) (i : Z) : Q :=
  if 0 <=? i then default 0%Q (Coords !! Z.to_nat i) else 0%Q.

(** The coordinate of position [p] along axis [inc]. *)
Definition key (Coords : list Q) (inc p : Z) : Q := coordAt Coords (2 * p + inc).

(** The record held at position [p]: original position and coordinates. *)
Definition item (Idxs : list Z) (Coords : list Q) (p : Z) : Z * (Q * Q) :=
  (idxAt Idxs p, (coordAt Coords (2 * p), coordAt Coords (2 * p + 1))).

(** The two arrays are in lockstep: two coordinates per index entry. *)
Definition lockstep (Idxs : list Z) (Coords : list Q) : Prop :=
  len Coords = 2 * len Idxs.

(** Exchange of two positions. *)
Definition transp (i j p : Z) : Z :=
  if p =? i then j else if p =? j then i else p.

(** [f] rearranges the positions of [l..r], with inverse [g], and fixes
    every other position. *)
Definition bijOn (l r : Z) (f g : Z -> Z) : Prop :=
  (forall p, l <= p <= r -> l <= f p <= r /\ g (f p) = p) /\
  (forall p, l <= p <= r -> l <= g p <= r /\ f (g p) = p) /\
  (forall p, ~ l <= p <= r -> f p = p /\ g p = p).

(** The arrays [Idxs', Coords'] hold the records of [Idxs, Coords],
    rearranged inside [l..r] only and moved as whole records. *)
Definition permuted (l r : Z) (Idxs : list Z) (Coords : list Q)
    (Idxs' : list Z) (Coords' : list Q) : Prop :=
  length Idxs' = length Idxs /\
  length Coords' = length Coords /\
  exists f g, bijOn l r f g /\
    forall p, item Idxs' Coords' p = item Idxs Coords (f p).

(** Everything left of the window is below everything from the window on,
    and everything up to the window is below everything right of it. *)
Definition fenced (Coords : list Q) (inc L R left right : Z) : Prop :=
  (forall p q, L <= p < left -> left <= q <= R ->
     (key Coords inc p <= key Coords inc q)%Q) /\
  (forall p q, L <= p <= right -> right < q <= R ->
     (key Coords inc p <= key Coords inc q)%Q).

(** The k-d partial order of the range [left..right] at [depth]. *)
Inductive kdtree (nodeSize : Z) (Coords : list Q) : Z -> Z -> Z -> Prop :=
| kd_leaf left right depth :
    right - left <= nodeSize ->
    kdtree nodeSize Coords left right depth
| kd_node left right depth :
    nodeSize < right - left ->
    (forall p, left <= p <= (left + right) / 2 - 1 ->
       (key Coords (depth mod 2) p
        <= key Coords (depth mod 2) ((left + right) / 2))%Q) ->
    (forall p, (left + right) / 2 + 1 <= p <= right ->
       (key Coords (depth mod 2) ((left + right) / 2)
        <= key Coords (depth mod 2) p)%Q) ->
    kdtree nodeSize Coords left ((left + right) / 2 - 1) (depth + 1) ->
    kdtree nodeSize Coords ((left + right) / 2 + 1) right (depth + 1) ->
    kdtree nodeSize Coords left right depth.

(** The keys of the positions [left..right], in array order. *)
Definition keysOf (Coords : list Q) (inc left right : Z) : list Q :=
  key Coords inc <$> seqZ left (right - left + 1).

(** [v] is the value of rank [r] (counted from 0) of [keys]: at most [r]
    keys are smaller and more than [r] keys are smaller or equal. *)
Definition hasRank (keys : list Q) (r : Z) (v : Q) : Prop :=
  len (List.filter (fun x => Qltb x v) keys) <= r
  < len (List.filter (fun x => Qleb x v) keys).

(** Coordinates of the original point number [i]. *)
Definition coordsOf (points : list A) (i : Z) : Q * Q :=
  if 0 <=? i then
    match points !! Z.to_nat i with
    | Some v => Coordinates v
    | None => (0%Q, 0%Q)
    end
  else (0%Q, 0%Q).

(** What construction establishes: the configuration is stored, the arrays
    are in lockstep and k-d ordered, and position [p] holds the original
    position [f p] together with the coordinates of that point, for a
    rearrangement [f] of [0..n-1]. *)
Definition built (points : list A) (nodeSize : Z) (bush : KDBush A) : Prop :=
  NodeSize bush = nodeSize /\
  Points bush = points /\
  lockstep (Idxs bush) (Coords bush) /\
  len (Idxs bush) = len points /\
  kdtree nodeSize (Coords bush) 0 (len points - 1) 0 /\
  exists f g, bijOn 0 (len points - 1) f g /\
    forall p, 0 <= p < len points ->
      item (Idxs bush) (Coords bush) p = (f p, coordsOf points (f p)).

(** The brute-force linear scans the queries are compared with. *)
Definition inBox (minX minY maxX maxY : Q) (xy : Q * Q) : bool :=
  Qleb minX xy.1 && Qleb xy.1 maxX && Qleb minY xy.2 && Qleb xy.2 maxY.

Definition bruteRange (points : list A) (minX minY maxX maxY : Q) : list Z :=
  List.filter (fun i => inBox minX minY maxX maxY (coordsOf points i))
    (seqZ 0 (len points)).

Definition inDisc (qx qy radius : Q) (xy : Q * Q) : bool :=
  Qleb ((xy.1 - qx) * (xy.1 - qx) + (xy.2 - qy) * (xy.2 - qy))%Q
       (radius * radius)%Q.

Definition bruteWithin (points : list A) (qx qy radius : Q) : list Z :=
  List.filter (fun i => inDisc qx qy radius (coordsOf points i))
    (seqZ 0 (len points)).

(** The membership test of [Within] as the program computes it,
    [sqrtDist(x, y, qx, qy) <= radius * radius] in [float64], and the linear
    scan with that test. *)
Definition inDisc64 (qx qy radius : Q) (xy : Q * Q) : bool :=
  fle (sqrtDist (Fin xy.1) (Fin xy.2) (Fin qx) (Fin qy))
      (fmul (Fin radius) (Fin radius)).

Definition bruteWithin64 (points : list A) (qx qy radius : Q) : list Z :=
  List.filter (fun i => inDisc64 qx qy radius (coordsOf points i))
    (seqZ 0 (len points)).

(** The floating-point value [v] is finite and is the exact result [q]: no
    rounding error was made. *)
Definition isExact (v : f64) (q : Q) : bool :=
  match v with
  | Fin q' => Qeq_bool q' q
  | _ => false
  end.

(** The arithmetic of a radius query is exact: the squared radius, the four
    sides of the square around the query point and the squared distance of
    every point are computed without rounding error. *)
Definition exactBounds (qx qy radius : Q) : bool :=
  isExact (fmul (Fin radius) (Fin radius)) (radius * radius)
  && isExact (fsub (Fin qx) (Fin radius)) (qx - radius)
  && isExact (fadd (Fin qx) (Fin radius)) (qx + radius)
  && isExact (fsub (Fin qy) (Fin radius)) (qy - radius)
  && isExact (fadd (Fin qy) (Fin radius)) (qy + radius).

Definition exactAt (qx qy : Q) (xy : Q * Q) : bool :=
  isExact (sqrtDist (Fin xy.1) (Fin xy.2) (Fin qx) (Fin qy))
          ((xy.1 - qx) * (xy.1 - qx) + (xy.2 - qy) * (xy.2 - qy)).

Definition exactQuery (points : list A) (qx qy radius : Q) : bool :=
  exactBounds qx qy radius
  && forallb (fun v => exactAt qx qy (Coordinates v)) points.

(** The membership tests and the pruning tests of the two queries, read
    at a position of the index. *)
Definition boxTest (bush : KDBush A) (minX minY maxX maxY : Q) (p : Z) : bool :=
  inBox minX minY maxX maxY (item (Idxs bush) (Coords bush) p).2.

Definition discTest (bush : KDBush A) (qx qy radius : Q) (p : Z) : bool :=
  inDisc64 qx qy radius (item (Idxs bush) (Coords bush) p).2.

Definition rangeGoLeft (bush : KDBush A) (minX minY : Q) (axis m : Z) : bool :=
  Qleb (if axis =? 0 then minX else minY) (key (Coords bush) axis m).

Definition rangeGoRight (bush : KDBush A) (maxX maxY : Q) (axis m : Z) : bool :=
  Qleb (key (Coords bush) axis m) (if axis =? 0 then maxX else maxY).

Definition withinGoLeft (bush : KDBush A) (qx qy radius : Q) (axis m : Z) : bool :=
  fle (fsub (Fin (if axis =? 0 then qx else qy)) (Fin radius))
      (Fin (key (Coords bush) axis m)).

Definition withinGoRight (bush : KDBush A) (qx qy radius : Q) (axis m : Z) : bool :=
  fge (fadd (Fin (if axis =? 0 then qx else qy)) (Fin radius))
      (Fin (key (Coords bush) axis m)).

(** The work stack after an inner node [left..right] has been expanded. *)
Definition children (goLeft goRight : Z -> Z -> bool) (axis left right : Z)
    (stack : list Z) : list Z :=
  let m := (left + right) / 2 in
  let stack :=
    if goLeft axis m then (axis + 1) mod 2 :: m - 1 :: left :: stack else stack in
  if goRight axis m then (axis + 1) mod 2 :: right :: m + 1 :: stack else stack.

(** The positions a query loop appends, in the order it appends them, when
    it starts from the range [left..right] with [axis] on top of the stack:
    a leaf is scanned; an inner node gives its middle position, then what
    the right child gives (pushed last, popped first), then the left
    child.  [size] bounds the number of positions of the range. *)
Fixpoint visited (size : nat) (nodeSize : Z) (test : Z -> bool)
    (goLeft goRight : Z -> Z -> bool) (axis left right : Z) : list Z :=
  match size with
  | O => List.filter test (seqZ left (right - left + 1))
  | S size =>
      if right - left <=? nodeSize then
        List.filter test (seqZ left (right - left + 1))
      else
        let m := (left + right) / 2 in
        (if test m then [m] else [])
        ++ (if goRight axis m
            then visited size nodeSize test goLeft goRight
                   ((axis + 1) mod 2) (m + 1) right
            else [])
        ++ (if goLeft axis m
            then visited size nodeSize test goLeft goRight
                   ((axis + 1) mod 2) left (m - 1)
            else [])
  end.

(** Fuel that is enough for each operation. *)
Definition selectFuel (left right : Z) : nat := 2 * Z.to_nat (right - left) + 4.
Definition sortFuel (left right : Z) : nat :=
  2 * Z.to_nat (right - left + 1) + 5.
Definition buildFuel (points : list A) : nat := 2 * length points + 6.
Definition queryFuel (bush : KDBush A) : nat := 2 * length (Idxs bush) + 3.

(** ** Assumptions on the Floyd-Rivest bracket

    In exact arithmetic the two sampled bounds enclose [k] and are less than
    [n - 1] apart (their distance is about [s = 0.5 * n^(2/3)]). *)
Hypothesis fr_encloses : forall n m k,
  601 < n -> 1 <= m <= n -> frLower n m k <= k <= frUpper n m k.
Hypothesis fr_shrinks : forall n m k,
  601 < n -> 1 <= m <= n -> frUpper n m k - frLower n m k < n - 1.

(** * Verification *)

(** ** Outcomes, comparisons and array reads *)

Lemma bind_Ok {T U : Type} (f : T -> outcome U) (a : T) : (Ok a ≫= f) = f a.
Proof. reflexivity. Qed.

Lemma Qltb_lt x y : Qltb x y = true <-> (x < y)%Q.
Proof.
  unfold Qltb. rewrite Qlt_alt.
  destruct (x ?= y)%Q; split; congruence.
Qed.

Lemma Qltb_ge x y : Qltb x y = false <-> (y <= x)%Q.
Proof.
  split; intros Hxy.
  - apply Qnot_lt_le. intros Hlt. apply Qltb_lt in Hlt. congruence.
  - destruct (Qltb x y) eqn:E; [|reflexivity].
    apply Qltb_lt in E. exfalso. eapply Qlt_not_le; eauto.
Qed.

Lemma Qleb_le x y : Qleb x y = true <-> (x <= y)%Q.
Proof. apply Qle_bool_iff. Qed.

Lemma Qleb_gt x y : Qleb x y = false <-> (y < x)%Q.
Proof.
  split; intros Hxy.
  - apply Qnot_le_lt. intros Hle. apply Qleb_le in Hle. congruence.
  - destruct (Qleb x y) eqn:E; [|reflexivity].
    apply Qleb_le in E. exfalso. eapply Qlt_not_le; eauto.
Qed.

Lemma Qeqb_eq x y : Qeqb x y = true <-> (x == y)%Q.
Proof. apply Qeq_bool_iff. Qed.

Lemma Qeqb_neq x y : Qeqb x y = false <-> ~ (x == y)%Q.
Proof.
  rewrite <- Qeqb_eq. destruct (Qeqb x y); split; intros; congruence.
Qed.

Lemma get_Ok_lookup {T : Type} (a : list T) i v :
  0 <= i -> a !! Z.to_nat i = Some v -> get a i = Ok v.
Proof.
  intros Hi Hv. unfold get. destruct (Z.leb_spec 0 i); [|lia].
  rewrite Hv. reflexivity.
Qed.

Lemma get_idxAt (Idxs : list Z) p :
  0 <= p < len Idxs -> get Idxs p = Ok (idxAt Idxs p).
Proof.
  unfold len, get, idxAt. intros Hp.
  destruct (Z.leb_spec 0 p); [|lia].
  destruct (lookup_lt_is_Some_2 Idxs (Z.to_nat p)) as [v Hv]; [lia|].
  rewrite Hv. reflexivity.
Qed.

Lemma get_coordAt (Coords : list Q) i :
  0 <= i < len Coords -> get Coords i = Ok (coordAt Coords i).
Proof.
  unfold len, get, coordAt. intros Hp.
  destruct (Z.leb_spec 0 i); [|lia].
  destruct (lookup_lt_is_Some_2 Coords (Z.to_nat i)) as [v Hv]; [lia|].
  rewrite Hv. reflexivity.
Qed.

Lemma get_key Idxs Coords inc p :
  lockstep Idxs Coords -> 0 <= inc <= 1 -> 0 <= p < len Idxs ->
  get Coords (2 * p + inc) = Ok (key Coords inc p).
Proof.
  unfold lockstep. intros HL Hinc Hp. apply get_coordAt. lia.
Qed.

Lemma key_item Idxs Coords inc p :
  0 <= inc <= 1 ->
  key Coords inc p
  = if inc =? 0 then (item Idxs Coords p).2.1 else (item Idxs Coords p).2.2.
Proof.
  intros Hinc. unfold key, item. simpl.
  destruct (Z.eqb_spec inc 0) as [->|Hne].
  - f_equal. lia.
  - f_equal. lia.
Qed.

(** ** Exchanging two entries *)

Lemma swap_lookup {T : Type} (a : list T) i j x y :
  0 <= i -> 0 <= j ->
  a !! Z.to_nat i = Some x -> a !! Z.to_nat j = Some y ->
  forall p, 0 <= p ->
    <[Z.to_nat j := x]> (<[Z.to_nat i := y]> a) !! Z.to_nat p
    = a !! Z.to_nat (transp i j p).
Proof.
  intros Hi Hj Hx Hy p Hp. unfold transp.
  assert (Hli : (Z.to_nat i < length a)%nat) by (eapply lookup_lt_Some; eauto).
  assert (Hlj : (Z.to_nat j < length a)%nat) by (eapply lookup_lt_Some; eauto).
  destruct (Z.eqb_spec p j) as [->|Hpj].
  - rewrite list_lookup_insert_eq by (rewrite length_insert; lia).
    destruct (Z.eqb_spec j i) as [->|Hji]; congruence.
  - rewrite list_lookup_insert_ne by lia.
    destruct (Z.eqb_spec p i) as [->|Hpi].
    + rewrite list_lookup_insert_eq by lia. congruence.
    + rewrite list_lookup_insert_ne by lia. reflexivity.
Qed.

Lemma transp_neg i j p : 0 <= i -> 0 <= j -> p < 0 -> transp i j p = p.
Proof.
  intros. unfold transp.
  destruct (Z.eqb_spec p i); [lia|]. destruct (Z.eqb_spec p j); [lia|]. reflexivity.
Qed.

Lemma transp_nonneg i j p : 0 <= i -> 0 <= j -> 0 <= p -> 0 <= transp i j p.
Proof.
  intros. unfold transp.
  destruct (Z.eqb_spec p i); [lia|]. destruct (Z.eqb_spec p j); lia.
Qed.


(** ** Floating-point rounding *)

Lemma pow2_pos e : (0 < pow2 e)%Q.
Proof. apply Qpower_0_lt. reflexivity. Qed.

Lemma pow2_mono e1 e2 : e1 <= e2 -> (pow2 e1 <= pow2 e2)%Q.
Proof. intros. apply Qpower_le_compat_l; [assumption|discriminate]. Qed.

Lemma pow2_lt_inv e1 e2 : (pow2 e1 < pow2 e2)%Q -> e1 < e2.
Proof. intros. eapply Qpower_lt_compat_l_inv; [eassumption|reflexivity]. Qed.

Lemma pow2_plus a b : (pow2 (a + b) == pow2 a * pow2 b)%Q.
Proof. apply Qpower_plus. discriminate. Qed.

Lemma pow2_Z n : 0 <= n -> (pow2 n == inject_Z (2 ^ n))%Q.
Proof. intros. symmetry. apply (Zpower_Qpower 2 n). assumption. Qed.

Lemma pow2_succ e : (pow2 (e + 1) == 2 * pow2 e)%Q.
Proof. rewrite pow2_plus. change (pow2 1) with 2%Q. ring. Qed.

(** [ilog2 a] is the binary exponent of a positive [a]. *)
Lemma ilog2_spec a : (0 < a)%Q -> (pow2 (ilog2 a) <= a)%Q /\ (a < pow2 (ilog2 a + 1))%Q.
Proof.
  intros Ha. destruct a as [n d]. unfold ilog2. cbn [Qnum Qden].
  assert (Hn : 0 < n) by (unfold Qlt in Ha; simpl in Ha; lia).
  pose proof (Z.log2_spec n Hn) as [Hn1 Hn2].
  pose proof (Z.log2_spec (Zpos d) ltac:(lia)) as [Hd1 Hd2].
  pose proof (Z.log2_nonneg n) as Hln. pose proof (Z.log2_nonneg (Zpos d)) as Hld.
  set (ln := Z.log2 n) in *. set (ld := Z.log2 (Zpos d)) in *.
  assert (Ea : (n # d == inject_Z n / inject_Z (Zpos d))%Q) by apply Qmake_Qdiv.
  assert (HD : (0 < inject_Z (Zpos d))%Q) by (unfold Qlt; simpl; lia).
  assert (HN : (0 < inject_Z n)%Q) by (unfold Qlt; simpl; lia).
  assert (Emul : ((n # d) * inject_Z (Zpos d) == inject_Z n)%Q).
  { rewrite Ea. field. intros E. rewrite E in HD. discriminate. }
  (* bounds in Q *)
  assert (Bn1 : (pow2 ln <= inject_Z n)%Q) by (rewrite pow2_Z by lia; rewrite <- Zle_Qle; exact Hn1).
  assert (Bn2 : (inject_Z n < pow2 (ln + 1))%Q).
  { rewrite pow2_Z by lia. rewrite <- Zlt_Qlt. exact Hn2. }
  assert (Bd1 : (pow2 ld <= inject_Z (Zpos d))%Q) by (rewrite pow2_Z by lia; rewrite <- Zle_Qle; exact Hd1).
  assert (Bd2 : (inject_Z (Zpos d) < pow2 (ld + 1))%Q).
  { rewrite pow2_Z by lia. rewrite <- Zlt_Qlt. exact Hd2. }
  pose proof (pow2_pos ld) as Pld. pose proof (pow2_pos (ln - ld)) as Pe.
  pose proof (pow2_pos (ln - ld - 1)) as Pe1.
  assert (E1 : (pow2 ln == pow2 (ln - ld) * pow2 ld)%Q).
  { rewrite <- pow2_plus. replace (ln - ld + ld) with ln by lia. reflexivity. }
  assert (E2 : (pow2 (ln - ld) == 2 * pow2 (ln - ld - 1))%Q).
  { rewrite <- pow2_succ. replace (ln - ld - 1 + 1) with (ln - ld) by lia. reflexivity. }
  rewrite pow2_succ in Bn2, Bd2.
  destruct (Qle_bool (pow2 (ln - ld)) (n # d)) eqn:Et.
  - apply Qle_bool_iff in Et. split; [exact Et|].
    rewrite pow2_succ.
    destruct (Qlt_le_dec (n # d) (2 * pow2 (ln - ld))) as [Hlt|Hge]; [exact Hlt|].
    exfalso.
    assert (Hprod : (2 * pow2 (ln - ld) * pow2 ld <= (n # d) * inject_Z (Zpos d))%Q).
    { apply Qmult_le_compat_nonneg; split; try assumption; nra. }
    nra.
  - assert (Hlt : (n # d < pow2 (ln - ld))%Q).
    { apply Qnot_le_lt. intros Hle. apply Qle_bool_iff in Hle. congruence. }
    replace (ln - ld - 1 + 1) with (ln - ld) by lia.
    split; [|exact Hlt].
    destruct (Qlt_le_dec (n # d) (pow2 (ln - ld - 1))) as [Hlt'|Hge]; [|exact Hge].
    exfalso.
    assert (Hprod : ((n # d) * inject_Z (Zpos d) <= pow2 (ln - ld - 1) * (2 * pow2 ld))%Q).
    { apply Qmult_le_compat_nonneg; split; try nra; try lra. }
    nra.
Qed.

Lemma ilog2_mono a b : (0 < a)%Q -> (a <= b)%Q -> ilog2 a <= ilog2 b.
Proof.
  intros Ha Hab.
  destruct (ilog2_spec a Ha) as [La _].
  destruct (ilog2_spec b ltac:(lra)) as [_ Ub].
  assert (Hlt : (pow2 (ilog2 a) < pow2 (ilog2 b + 1))%Q) by lra.
  apply pow2_lt_inv in Hlt. lia.
Qed.

Lemma nearestEven_bounds q : Qfloor q <= nearestEven q <= Qfloor q + 1.
Proof.
  unfold nearestEven.
  destruct (Qcompare _ _); [destruct (Z.even _)| |]; lia.
Qed.

Lemma nearestEven_mono x y : (x <= y)%Q -> nearestEven x <= nearestEven y.
Proof.
  intros Hxy. pose proof (Qfloor_resp_le x y Hxy) as Hf.
  pose proof (nearestEven_bounds x) as Bx. pose proof (nearestEven_bounds y) as By'.
  destruct (Z.eq_dec (Qfloor x) (Qfloor y)) as [E|NE]; [|lia].
  unfold nearestEven in *. rewrite <- E in *.
  destruct (Qcompare_spec (x - inject_Z (Qfloor x)) (1 # 2)) as [Ex|Ex|Ex];
  destruct (Qcompare_spec (y - inject_Z (Qfloor x)) (1 # 2)) as [Ey|Ey|Ey];
    try lia; try (destruct (Z.even (Qfloor x)); lia); exfalso;
    generalize dependent (inject_Z (Qfloor x)); intros; lra.
Qed.

Lemma nearestEven_ge (n : Z) q : (inject_Z n <= q)%Q -> n <= nearestEven q.
Proof.
  intros Hle. pose proof (Qfloor_resp_le _ _ Hle) as Hf. rewrite Qfloor_Z in Hf.
  pose proof (nearestEven_bounds q). lia.
Qed.

Lemma nearestEven_le (n : Z) q : (q <= inject_Z n)%Q -> nearestEven q <= n.
Proof.
  intros Hle. pose proof (Qfloor_resp_le _ _ Hle) as Hf. rewrite Qfloor_Z in Hf.
  pose proof (nearestEven_bounds q) as B.
  destruct (Z.eq_dec (Qfloor q) n) as [E|NE]; [|lia].
  unfold nearestEven. pose proof (Qfloor_le q) as Hq. rewrite E in *.
  destruct (Qcompare_spec (q - inject_Z n) (1 # 2)) as [Ex|Ex|Ex]; try lia; exfalso;
    generalize dependent (inject_Z n); intros.
  all: lra.
Qed.

Lemma ulp_pos a : (0 < ulp a)%Q.
Proof. apply pow2_pos. Qed.

Lemma nearest64_nonneg a : (0 < a)%Q -> (0 <= nearest64 a)%Q.
Proof.
  intros Ha. unfold nearest64. pose proof (ulp_pos a) as Hu.
  assert (Hn : 0 <= nearestEven (a / ulp a)).
  { apply (nearestEven_ge 0). apply Qle_shift_div_l; [exact Hu|].
    change (inject_Z 0) with 0%Q. lra. }
  apply Qmult_le_0_compat; [|lra].
  change 0%Q with (inject_Z 0). rewrite <- Zle_Qle. assumption.
Qed.

(** Rounding to the nearest double is monotone on the positive rationals. *)
Lemma nearest64_mono a b : (0 < a)%Q -> (a <= b)%Q -> (nearest64 a <= nearest64 b)%Q.
Proof.
  intros Ha Hab. assert (Hb : (0 < b)%Q) by lra.
  pose proof (ilog2_mono a b Ha Hab) as Hlog.
  unfold nearest64, ulp.
  set (ea := Z.max (ilog2 a) (-1022)). set (eb := Z.max (ilog2 b) (-1022)).
  assert (Hle : ea <= eb) by (unfold ea, eb; lia).
  pose proof (pow2_pos (ea - 52)) as Pa. pose proof (pow2_pos (eb - 52)) as Pb.
  destruct (Z.eq_dec ea eb) as [E|NE].
  - rewrite <- E.
    apply Qmult_le_compat_r; [|lra].
    rewrite <- Zle_Qle. apply nearestEven_mono.
    apply Qmult_le_compat_r; [exact Hab|].
    apply Qlt_le_weak, Qinv_lt_0_compat. exact Pa.
  - assert (Hlt : ea + 1 <= eb) by lia.
    assert (Hb' : eb = ilog2 b) by (unfold ea, eb in *; lia).
    destruct (ilog2_spec a Ha) as [_ Ua]. destruct (ilog2_spec b Hb) as [Lb _].
    assert (Ua' : (a <= pow2 (ea + 1))%Q).
    { apply Qlt_le_weak. eapply Qlt_le_trans; [exact Ua|]. apply pow2_mono.
      unfold ea. lia. }
    assert (E53 : (pow2 (ea + 1) == inject_Z (2 ^ 53) * pow2 (ea - 52))%Q).
    { rewrite <- pow2_Z by lia. rewrite <- pow2_plus. replace (53 + (ea - 52)) with (ea + 1) by lia.
      reflexivity. }
    assert (E52 : (pow2 eb == inject_Z (2 ^ 52) * pow2 (eb - 52))%Q).
    { rewrite <- pow2_Z by lia. rewrite <- pow2_plus. replace (52 + (eb - 52)) with eb by lia.
      reflexivity. }
    apply Qle_trans with (pow2 (ea + 1)).
    + rewrite E53. apply Qmult_le_compat_r; [|lra].
      rewrite <- Zle_Qle. apply nearestEven_le.
      apply Qle_shift_div_r; [exact Pa|]. rewrite <- E53. exact Ua'.
    + apply Qle_trans with (pow2 eb); [apply pow2_mono; lia|].
      rewrite E52. apply Qmult_le_compat_r; [|lra].
      rewrite <- Zle_Qle. apply nearestEven_ge.
      apply Qle_shift_div_l; [exact Pb|]. rewrite <- E52. rewrite Hb'. exact Lb.
Qed.

Lemma round64_zero q : (q == 0)%Q -> round64 q = Fin 0.
Proof.
  intros E. unfold round64. rewrite (proj2 (Qeq_bool_iff q 0) E). reflexivity.
Qed.

Lemma round64_pos q :
  (0 < q)%Q ->
  round64 q = if Qle_bool (pow2 1024) (nearest64 (Qabs q)) then Inf false
              else Fin (Qred (nearest64 (Qabs q))).
Proof.
  intros Hq. unfold round64.
  destruct (Qeq_bool q 0) eqn:E0; [apply Qeq_bool_iff in E0; lra|].
  destruct (Qle_bool q 0) eqn:E1; [apply Qle_bool_iff in E1; lra|].
  reflexivity.
Qed.

Lemma round64_neg q :
  (q < 0)%Q ->
  round64 q = if Qle_bool (pow2 1024) (nearest64 (Qabs q)) then Inf true
              else Fin (Qred (- nearest64 (Qabs q))).
Proof.
  intros Hq. unfold round64.
  destruct (Qeq_bool q 0) eqn:E0; [apply Qeq_bool_iff in E0; lra|].
  rewrite (proj2 (Qle_bool_iff q 0)) by lra.
  reflexivity.
Qed.

Lemma fle_trans x y z : fle x y = true -> fle y z = true -> fle x z = true.
Proof.
  destruct x as [|[]|a], y as [|[]|b], z as [|[]|c]; simpl;
    try discriminate; try reflexivity.
  rewrite !Qle_bool_iff. apply Qle_trans.
Qed.

Lemma fle_Fin a b : fle (Fin a) (Fin b) = true <-> (a <= b)%Q.
Proof. simpl. apply Qle_bool_iff. Qed.

(** Rounding to float64 is monotone. *)
Lemma round64_mono q1 q2 :
  (q1 <= q2)%Q -> fle (round64 q1) (round64 q2) = true.
Proof.
  intros Hle.
  assert (Hcase : forall q, (q < 0)%Q \/ (q == 0)%Q \/ (0 < q)%Q).
  { intros q. destruct (Q_dec q 0) as [[?|?]|?]; auto. }
  assert (Habs_pos : forall q, (0 < q)%Q -> (Qabs q == q)%Q).
  { intros q Hq. apply Qabs_pos. lra. }
  assert (Habs_neg : forall q, (q < 0)%Q -> (Qabs q == - q)%Q).
  { intros q Hq. apply Qabs_neg. lra. }
  destruct (Hcase q1) as [N1|[Z1|P1]], (Hcase q2) as [N2|[Z2|P2]]; try (exfalso; lra).
  - (* both negative *)
    rewrite (round64_neg q1 N1), (round64_neg q2 N2).
    pose proof (Habs_neg q1 N1) as A1. pose proof (Habs_neg q2 N2) as A2.
    assert (Hm : (nearest64 (Qabs q2) <= nearest64 (Qabs q1))%Q)
      by (apply nearest64_mono; lra).
    destruct (Qle_bool (pow2 1024) (nearest64 (Qabs q1))) eqn:O1;
      [destruct (Qle_bool (pow2 1024) (nearest64 (Qabs q2))); reflexivity|].
    destruct (Qle_bool (pow2 1024) (nearest64 (Qabs q2))) eqn:O2.
    + apply Qle_bool_iff in O2.
      assert (Hc : Qle_bool (pow2 1024) (nearest64 (Qabs q1)) = true)
        by (apply Qle_bool_iff; lra).
      congruence.
    + apply fle_Fin. rewrite !Qred_correct. lra.
  - rewrite (round64_neg q1 N1), (round64_zero q2 Z2).
    destruct (Qle_bool _ _); [reflexivity|].
    apply fle_Fin. rewrite Qred_correct.
    pose proof (nearest64_nonneg (Qabs q1)) as Hn.
    pose proof (Habs_neg q1 N1). lra.
  - rewrite (round64_neg q1 N1), (round64_pos q2 P2).
    pose proof (nearest64_nonneg (Qabs q1)) as Hn1.
    pose proof (nearest64_nonneg (Qabs q2)) as Hn2.
    pose proof (Habs_neg q1 N1). pose proof (Habs_pos q2 P2).
    destruct (Qle_bool (pow2 1024) (nearest64 (Qabs q1)));
      [destruct (Qle_bool (pow2 1024) (nearest64 (Qabs q2))); reflexivity|].
    destruct (Qle_bool (pow2 1024) (nearest64 (Qabs q2))); [reflexivity|].
    apply fle_Fin. rewrite !Qred_correct. lra.
  - rewrite (round64_zero q1 Z1), (round64_zero q2 Z2). reflexivity.
  - rewrite (round64_zero q1 Z1), (round64_pos q2 P2).
    pose proof (nearest64_nonneg (Qabs q2)) as Hn2. pose proof (Habs_pos q2 P2).
    destruct (Qle_bool _ _); [reflexivity|].
    apply fle_Fin. rewrite Qred_correct. lra.
  - rewrite (round64_pos q1 P1), (round64_pos q2 P2).
    pose proof (Habs_pos q1 P1) as A1. pose proof (Habs_pos q2 P2) as A2.
    assert (Hm : (nearest64 (Qabs q1) <= nearest64 (Qabs q2))%Q)
      by (apply nearest64_mono; lra).
    destruct (Qle_bool (pow2 1024) (nearest64 (Qabs q2))) eqn:O2.
    + destruct (Qle_bool (pow2 1024) (nearest64 (Qabs q1))); reflexivity.
    + destruct (Qle_bool (pow2 1024) (nearest64 (Qabs q1))) eqn:O1.
      * apply Qle_bool_iff in O1.
        assert (Hc : Qle_bool (pow2 1024) (nearest64 (Qabs q2)) = true)
          by (apply Qle_bool_iff; lra).
        congruence.
      * apply fle_Fin. rewrite !Qred_correct. exact Hm.
Qed.

Lemma round64_not_NaN q : round64 q <> NaN.
Proof.
  unfold round64. destruct (Qeq_bool q 0); [discriminate|].
  destruct (Qle_bool (pow2 1024) _); discriminate.
Qed.

Lemma round64_nonneg q : (0 <= q)%Q -> fle (Fin 0) (round64 q) = true.
Proof. intros Hq. apply (round64_mono 0 q Hq). Qed.

Lemma Qabs_opp_eq (q : Q) : Qabs (- q) = Qabs q.
Proof.
  destruct q as [n d]. unfold Qabs, Qopp. cbn [Qnum Qden].
  f_equal. apply Z.abs_opp.
Qed.

Lemma Qopp_opp_eq (q : Q) : (- - q)%Q = q.
Proof.
  destruct q as [n d]. unfold Qopp. cbn [Qnum Qden]. f_equal. apply Z.opp_involutive.
Qed.

(** Rounding commutes with the change of sign. *)
Lemma round64_opp q : round64 (- q) = fneg (round64 q).
Proof.
  destruct (Q_dec q 0) as [[Hneg|Hpos]|Hz].
  - rewrite (round64_neg q Hneg), (round64_pos (- q)) by lra.
    rewrite Qabs_opp_eq.
    destruct (Qle_bool (pow2 1024) (nearest64 (Qabs q))); [reflexivity|].
    cbn [fneg]. rewrite Qred_opp, Qopp_opp_eq. reflexivity.
  - rewrite (round64_pos q Hpos), (round64_neg (- q)) by lra.
    rewrite Qabs_opp_eq.
    destruct (Qle_bool (pow2 1024) (nearest64 (Qabs q))); [reflexivity|].
    cbn [fneg]. rewrite Qred_opp. reflexivity.
  - rewrite (round64_zero q Hz), (round64_zero (- q)) by lra. reflexivity.
Qed.

Lemma fsub_swap a b : fsub (Fin a) (Fin b) = fneg (fsub (Fin b) (Fin a)).
Proof.
  unfold fsub. cbn [fneg fadd]. rewrite <- round64_opp.
  destruct a as [na da], b as [nb db]. unfold Qplus, Qopp. cbn [Qnum Qden].
  f_equal. f_equal; [|apply Pos.mul_comm]. lia.
Qed.

Lemma fmul_fneg_self d : fmul (fneg d) (fneg d) = fmul d d.
Proof.
  destruct d as [|s|q]; cbn [fneg fmul]; [reflexivity|destruct s; reflexivity|].
  f_equal. destruct q as [n d]. unfold Qmult, Qopp. cbn [Qnum Qden].
  f_equal. apply Z.mul_opp_opp.
Qed.

Lemma fmul_self_nonneg d : d <> NaN -> fle (Fin 0) (fmul d d) = true.
Proof.
  destruct d as [|s|q]; [congruence|destruct s; reflexivity|]. intros _.
  cbn [fmul]. apply round64_nonneg. nra.
Qed.

Lemma fadd_nonneg x y :
  fle (Fin 0) x = true -> fle (Fin 0) y = true -> fle (Fin 0) (fadd x y) = true.
Proof.
  destruct x as [|[]|a], y as [|[]|b]; cbn [fle fadd]; try discriminate;
    try reflexivity.
  rewrite !Qle_bool_iff. intros Ha Hb. apply round64_nonneg. lra.
Qed.

(** ** Numbers that need no rounding *)

Lemma ilog2_unique a e :
  (0 < a)%Q -> (pow2 e <= a)%Q -> (a < pow2 (e + 1))%Q -> ilog2 a = e.
Proof.
  intros Ha Hlo Hhi. destruct (ilog2_spec a Ha) as [Slo Shi].
  assert (H1 : (pow2 e < pow2 (ilog2 a + 1))%Q) by lra.
  assert (H2 : (pow2 (ilog2 a) < pow2 (e + 1))%Q) by lra.
  apply pow2_lt_inv in H1, H2. lia.
Qed.

Lemma nearestEven_Z q k : (q == inject_Z k)%Q -> nearestEven q = k.
Proof.
  intros E.
  pose proof (nearestEven_ge k q ltac:(rewrite E; apply Qle_refl)).
  pose proof (nearestEven_le k q ltac:(rewrite E; apply Qle_refl)).
  lia.
Qed.

Lemma nearest64_exact a k :
  (a == inject_Z k * ulp a)%Q -> (nearest64 a == a)%Q.
Proof.
  intros E. unfold nearest64. pose proof (ulp_pos a) as Hu.
  remember (ulp a) as u eqn:Eu. clear Eu.
  rewrite (nearestEven_Z (a / u) k).
  - symmetry. exact E.
  - rewrite E. field. lra.
Qed.

(** A number whose magnitude is a multiple of its own unit in the last
    place, below the overflow threshold, is rounded to itself. *)
Lemma round64_exact q k :
  (Qabs q == inject_Z k * ulp (Qabs q))%Q -> (Qabs q < pow2 1024)%Q ->
  isExact (round64 q) q = true.
Proof.
  intros E Hfin. pose proof (nearest64_exact _ _ E) as En.
  assert (Hov : Qle_bool (pow2 1024) (nearest64 (Qabs q)) = false).
  { destruct (Qle_bool _ _) eqn:Eb; [|reflexivity].
    apply Qle_bool_iff in Eb. lra. }
  destruct (Q_dec q 0) as [[Hneg|Hpos]|Hz].
  - rewrite (round64_neg q Hneg), Hov. cbn [isExact]. apply Qeq_bool_iff.
    rewrite Qred_correct, En, (Qabs_neg q) by lra. ring.
  - rewrite (round64_pos q Hpos), Hov. cbn [isExact]. apply Qeq_bool_iff.
    rewrite Qred_correct, En, (Qabs_pos q) by lra. reflexivity.
  - rewrite (round64_zero q Hz). cbn [isExact]. apply Qeq_bool_iff.
    symmetry. exact Hz.
Qed.

(** An integer of magnitude at most [2^53], and its half, are binary64
    numbers: converting the integer and halving the result round
    nothing. *)
Lemma half_integer_exact n (h : Z) q :
  - 2 ^ 53 <= n <= 2 ^ 53 -> 0 <= h <= 1 ->
  (q == inject_Z n * pow2 (- h))%Q ->
  isExact (round64 q) q = true.
Proof.
  intros Hn Hh Eq.
  destruct (Z.eq_dec n 0) as [->|Hnz].
  { assert (Ez : (q == 0)%Q) by (rewrite Eq; ring).
    rewrite (round64_zero q Ez). apply Qeq_bool_iff. symmetry. exact Ez. }
  pose proof (pow2_pos (- h)) as Ph.
  assert (Ea : (Qabs q == inject_Z (Z.abs n) * pow2 (- h))%Q).
  { rewrite Eq, Qabs_Qmult, (Qabs_pos (pow2 (- h))) by lra.
    reflexivity. }
  set (L := Z.log2 (Z.abs n)).
  pose proof (Z.log2_spec (Z.abs n) ltac:(lia)) as [Llo Lhi].
  pose proof (Z.log2_nonneg (Z.abs n)) as HL. fold L in Llo, Lhi, HL.
  assert (HL53 : L <= 53).
  { destruct (Z_lt_le_dec 53 L) as [Hbig|]; [|assumption]. exfalso.
    assert (2 ^ 54 <= 2 ^ L) by (apply Z.pow_le_mono_r; lia). lia. }
  assert (Qlo : (pow2 L <= inject_Z (Z.abs n))%Q)
    by (rewrite pow2_Z by lia; rewrite <- Zle_Qle; exact Llo).
  assert (Qhi : (inject_Z (Z.abs n) < pow2 (L + 1))%Q).
  { rewrite pow2_Z by lia. rewrite <- Zlt_Qlt. replace (L + 1) with (Z.succ L) by lia.
    exact Lhi. }
  assert (Hpos : (0 < Qabs q)%Q).
  { rewrite Ea. apply Qmult_lt_0_compat; [|exact Ph].
    change 0%Q with (inject_Z 0). rewrite <- Zlt_Qlt. lia. }
  assert (Elog : ilog2 (Qabs q) = L - h).
  { apply ilog2_unique; [exact Hpos| |]; rewrite Ea.
    - replace (L - h) with (L + - h) by lia. rewrite pow2_plus.
      apply Qmult_le_compat_r; [exact Qlo|lra].
    - replace (L - h + 1) with ((L + 1) + - h) by lia. rewrite pow2_plus.
      apply Qmult_lt_compat_r; [exact Ph|exact Qhi]. }
  assert (Eulp : ulp (Qabs q) = pow2 (L - h - 52)).
  { unfold ulp. rewrite Elog. f_equal. lia. }
  assert (Hfin : (Qabs q < pow2 1024)%Q).
  { rewrite Ea. apply Qlt_le_trans with (pow2 (L + 1) * pow2 (- h))%Q.
    - apply Qmult_lt_compat_r; [exact Ph|exact Qhi].
    - rewrite <- pow2_plus. apply pow2_mono. lia. }
  destruct (Z_le_gt_dec L 52) as [Hsmall|Hbig].
  - apply (round64_exact q (Z.abs n * 2 ^ (52 - L))); [|exact Hfin].
    rewrite Eulp, Ea, inject_Z_mult, <- (pow2_Z (52 - L)) by lia.
    rewrite <- Qmult_assoc, <- pow2_plus.
    replace (52 - L + (L - h - 52)) with (- h) by lia. reflexivity.
  - assert (EL : L = 53) by lia.
    assert (En : Z.abs n = 2 ^ 53) by (rewrite EL in Llo; lia).
    apply (round64_exact q (2 ^ 52)); [|exact Hfin].
    rewrite Eulp, Ea, En, EL, <- !pow2_Z by lia.
    rewrite <- !pow2_plus.
    replace (52 + (53 - h - 52)) with (53 + - h) by lia. reflexivity.
Qed.
Lemma swap_run {T : Type} (a : list T) i j :
  0 <= i < len a -> 0 <= j < len a ->
  exists x y, a !! Z.to_nat i = Some x /\ a !! Z.to_nat j = Some y /\
    (t ← get a i; aj ← get a j; a' ← set a i aj; set a' j t)
    = Ok (<[Z.to_nat j := x]> (<[Z.to_nat i := y]> a)).
Proof.
  unfold len. intros Hi Hj.
  destruct (lookup_lt_is_Some_2 a (Z.to_nat i)) as [x Hx]; [lia|].
  destruct (lookup_lt_is_Some_2 a (Z.to_nat j)) as [y Hy]; [lia|].
  exists x, y. split; [exact Hx|]. split; [exact Hy|].
  rewrite (get_Ok_lookup a i x), bind_Ok by (auto; lia).
  rewrite (get_Ok_lookup a j y), bind_Ok by (auto; lia).
  unfold set at 2.
  destruct (Z.leb_spec 0 i); [|lia].
  destruct (Z.ltb_spec i (Z.of_nat (length a))); [|lia].
  simpl. unfold set. rewrite length_insert.
  destruct (Z.leb_spec 0 j); [|lia].
  destruct (Z.ltb_spec j (Z.of_nat (length a))); [|lia].
  reflexivity.
Qed.

Lemma swapf_spec (a : list Q) i j :
  0 <= i < len a -> 0 <= j < len a ->
  exists a', swapf a i j = Ok a' /\ length a' = length a /\
    forall p, coordAt a' p = coordAt a (transp i j p).
Proof.
  intros Hi Hj.
  destruct (swap_run a i j Hi Hj) as (x & y & Hx & Hy & Hrun).
  eexists. split; [exact Hrun|]. split.
  - rewrite !length_insert. reflexivity.
  - intros p. unfold coordAt.
    destruct (Z.leb_spec 0 p) as [Hp|Hp].
    + pose proof (transp_nonneg i j p ltac:(lia) ltac:(lia) Hp) as Ht.
      destruct (Z.leb_spec 0 (transp i j p)); [|lia].
      rewrite (swap_lookup a i j x y) by (auto; lia). reflexivity.
    + rewrite transp_neg by lia. destruct (Z.leb_spec 0 p); [lia|]. reflexivity.
Qed.

Lemma swapi_spec (a : list Z) i j :
  0 <= i < len a -> 0 <= j < len a ->
  exists a', swapi a i j = Ok a' /\ length a' = length a /\
    forall p, idxAt a' p = idxAt a (transp i j p).
Proof.
  intros Hi Hj.
  destruct (swap_run a i j Hi Hj) as (x & y & Hx & Hy & Hrun).
  eexists. split; [exact Hrun|]. split.
  - rewrite !length_insert. reflexivity.
  - intros p. unfold idxAt.
    destruct (Z.leb_spec 0 p) as [Hp|Hp].
    + pose proof (transp_nonneg i j p ltac:(lia) ltac:(lia) Hp) as Ht.
      destruct (Z.leb_spec 0 (transp i j p)); [|lia].
      rewrite (swap_lookup a i j x y) by (auto; lia). reflexivity.
    + rewrite transp_neg by lia. destruct (Z.leb_spec 0 p); [lia|]. reflexivity.
Qed.

Lemma transp_double i j p : transp (2 * i) (2 * j) (2 * p) = 2 * transp i j p.
Proof.
  unfold transp.
  destruct (Z.eqb_spec p i), (Z.eqb_spec (2 * p) (2 * i)); try lia.
  destruct (Z.eqb_spec p j), (Z.eqb_spec (2 * p) (2 * j)); lia.
Qed.

Lemma transp_double1 i j p :
  transp (2 * i + 1) (2 * j + 1) (2 * p + 1) = 2 * transp i j p + 1.
Proof.
  unfold transp.
  destruct (Z.eqb_spec p i), (Z.eqb_spec (2 * p + 1) (2 * i + 1)); try lia.
  destruct (Z.eqb_spec p j), (Z.eqb_spec (2 * p + 1) (2 * j + 1)); lia.
Qed.

Lemma transp_parity0 i j p : transp (2 * i + 1) (2 * j + 1) (2 * p) = 2 * p.
Proof.
  unfold transp.
  destruct (Z.eqb_spec (2 * p) (2 * i + 1)); [lia|].
  destruct (Z.eqb_spec (2 * p) (2 * j + 1)); lia.
Qed.

Lemma transp_parity1 i j p : transp (2 * i) (2 * j) (2 * p + 1) = 2 * p + 1.
Proof.
  unfold transp.
  destruct (Z.eqb_spec (2 * p + 1) (2 * i)); [lia|].
  destruct (Z.eqb_spec (2 * p + 1) (2 * j)); lia.
Qed.

(** [swapItem] moves whole records: the index entry and both coordinates. *)
Lemma swapItem_spec Idxs Coords i j :
  lockstep Idxs Coords -> 0 <= i < len Idxs -> 0 <= j < len Idxs ->
  exists Idxs' Coords', swapItem Idxs Coords i j = Ok (Idxs', Coords') /\
    length Idxs' = length Idxs /\ length Coords' = length Coords /\
    forall p, item Idxs' Coords' p = item Idxs Coords (transp i j p).
Proof.
  unfold lockstep. intros HL Hi Hj.
  destruct (swapi_spec Idxs i j Hi Hj) as (I1 & HrI & HlI & HI).
  destruct (swapf_spec Coords (2 * i) (2 * j)) as (C1 & HrC1 & HlC1 & HC1);
    [lia | lia |].
  destruct (swapf_spec C1 (2 * i + 1) (2 * j + 1)) as (C2 & HrC2 & HlC2 & HC2);
    [unfold len in *; lia | unfold len in *; lia |].
  exists I1, C2. split; [|split; [|split]].
  - unfold swapItem. rewrite HrI, bind_Ok, HrC1, bind_Ok, HrC2, bind_Ok.
    reflexivity.
  - exact HlI.
  - congruence.
  - intros p. unfold item.
    rewrite HI, !HC2, transp_parity0, transp_double1, !HC1, transp_double,
      transp_parity1.
    reflexivity.
Qed.

(** ** Rearrangements confined to a range *)

Lemma bijOn_id l r : bijOn l r (fun p => p) (fun p => p).
Proof. unfold bijOn. repeat split; intros; lia. Qed.

Lemma bijOn_transp l r i j :
  l <= i <= r -> l <= j <= r -> bijOn l r (transp i j) (transp i j).
Proof.
  intros Hi Hj.
  assert (Hinv : forall p, transp i j (transp i j p) = p).
  { intros p. unfold transp.
    destruct (Z.eqb_spec p i) as [->|Hpi].
    - destruct (Z.eqb_spec j i) as [->|Hji]; [reflexivity|].
      rewrite Z.eqb_refl. reflexivity.
    - destruct (Z.eqb_spec p j) as [->|Hpj].
      + rewrite Z.eqb_refl. reflexivity.
      + destruct (Z.eqb_spec p i); [lia|]. destruct (Z.eqb_spec p j); [lia|].
        reflexivity. }
  assert (Hrange : forall p, l <= p <= r -> l <= transp i j p <= r).
  { intros p Hp. unfold transp.
    destruct (Z.eqb_spec p i); [lia|]. destruct (Z.eqb_spec p j); lia. }
  assert (Hout : forall p, ~ l <= p <= r -> transp i j p = p).
  { intros p Hp. unfold transp.
    destruct (Z.eqb_spec p i); [lia|]. destruct (Z.eqb_spec p j); [lia|].
    reflexivity. }
  unfold bijOn. split; [|split]; intros p Hp; auto.
Qed.

Lemma bijOn_comp l r f g f' g' :
  bijOn l r f g -> bijOn l r f' g' ->
  bijOn l r (fun p => f (f' p)) (fun p => g' (g p)).
Proof.
  intros (Hf & Hg & Ho) (Hf' & Hg' & Ho').
  split; [|split].
  - intros p Hp. destruct (Hf' p Hp) as [Hr He].
    destruct (Hf (f' p) Hr) as [Hr2 He2]. split; [exact Hr2|].
    rewrite He2. exact He.
  - intros p Hp. destruct (Hg p Hp) as [Hr He].
    destruct (Hg' (g p) Hr) as [Hr2 He2]. split; [exact Hr2|].
    rewrite He2. exact He.
  - intros p Hp. destruct (Ho p Hp) as [E1 E2]. destruct (Ho' p Hp) as [E3 E4].
    rewrite E3, E1, E2, E4. split; reflexivity.
Qed.

Lemma bijOn_widen l r l' r' f g :
  l' <= l -> r <= r' -> bijOn l r f g -> bijOn l' r' f g.
Proof.
  intros Hl Hr (Hf & Hg & Ho).
  split; [|split].
  - intros p Hp. destruct (decide (l <= p <= r)) as [Hin|Hout].
    + destruct (Hf p Hin). split; [lia|assumption].
    + destruct (Ho p Hout) as [E1 E2]. rewrite E1, E2. split; [lia|reflexivity].
  - intros p Hp. destruct (decide (l <= p <= r)) as [Hin|Hout].
    + destruct (Hg p Hin). split; [lia|assumption].
    + destruct (Ho p Hout) as [E1 E2]. rewrite E2, E1. split; [lia|reflexivity].
  - intros p Hp. apply Ho. lia.
Qed.

Lemma permuted_refl l r Idxs Coords : permuted l r Idxs Coords Idxs Coords.
Proof.
  split; [reflexivity|]. split; [reflexivity|].
  exists (fun p => p), (fun p => p). split; [apply bijOn_id|reflexivity].
Qed.

Lemma permuted_trans l r I1 C1 I2 C2 I3 C3 :
  permuted l r I1 C1 I2 C2 -> permuted l r I2 C2 I3 C3 ->
  permuted l r I1 C1 I3 C3.
Proof.
  intros (HlI & HlC & f & g & Hb & Hit) (HlI' & HlC' & f' & g' & Hb' & Hit').
  split; [congruence|]. split; [congruence|].
  exists (fun p => f (f' p)), (fun p => g' (g p)).
  split; [apply bijOn_comp; assumption|].
  intros p. rewrite Hit', Hit. reflexivity.
Qed.

Lemma permuted_widen l r l' r' I1 C1 I2 C2 :
  l' <= l -> r <= r' -> permuted l r I1 C1 I2 C2 -> permuted l' r' I1 C1 I2 C2.
Proof.
  intros Hl Hr (HlI & HlC & f & g & Hb & Hit).
  split; [exact HlI|]. split; [exact HlC|].
  exists f, g. split; [eapply bijOn_widen; eauto|exact Hit].
Qed.

Lemma permuted_lockstep l r I1 C1 I2 C2 :
  permuted l r I1 C1 I2 C2 -> lockstep I1 C1 -> lockstep I2 C2.
Proof.
  intros (HlI & HlC & _). unfold lockstep, len. rewrite HlI, HlC. tauto.
Qed.

Lemma permuted_len l r I1 C1 I2 C2 :
  permuted l r I1 C1 I2 C2 -> len I2 = len I1.
Proof. intros (HlI & _). unfold len. rewrite HlI. reflexivity. Qed.

Lemma permuted_outside l r I1 C1 I2 C2 p :
  permuted l r I1 C1 I2 C2 -> ~ l <= p <= r -> item I2 C2 p = item I1 C1 p.
Proof.
  intros (_ & _ & f & g & (_ & _ & Ho) & Hit) Hp.
  rewrite Hit. destruct (Ho p Hp) as [-> _]. reflexivity.
Qed.

Lemma permuted_inside l r I1 C1 I2 C2 p :
  permuted l r I1 C1 I2 C2 -> l <= p <= r ->
  exists q, l <= q <= r /\ item I2 C2 p = item I1 C1 q.
Proof.
  intros (_ & _ & f & g & (Hf & _ & _) & Hit) Hp.
  exists (f p). split; [apply Hf; exact Hp|apply Hit].
Qed.

Lemma key_of_item I1 C1 I2 C2 inc p q :
  0 <= inc <= 1 -> item I2 C2 p = item I1 C1 q -> key C2 inc p = key C1 inc q.
Proof.
  intros Hinc Hit.
  rewrite (key_item I2 C2), (key_item I1 C1), Hit by assumption. reflexivity.
Qed.

Lemma permuted_key_outside l r I1 C1 I2 C2 inc p :
  permuted l r I1 C1 I2 C2 -> 0 <= inc <= 1 -> ~ l <= p <= r ->
  key C2 inc p = key C1 inc p.
Proof.
  intros HP Hinc Hp. eapply key_of_item; [exact Hinc|].
  eapply permuted_outside; eauto.
Qed.

Lemma permuted_key_inside l r I1 C1 I2 C2 inc p :
  permuted l r I1 C1 I2 C2 -> 0 <= inc <= 1 -> l <= p <= r ->
  exists q, l <= q <= r /\ key C2 inc p = key C1 inc q.
Proof.
  intros HP Hinc Hp. destruct (permuted_inside _ _ _ _ _ _ p HP Hp) as (q & Hq & E).
  exists q. split; [exact Hq|]. eapply key_of_item; eauto.
Qed.

(** An exchange inside the range, as performed by [swapItem]. *)
Lemma swapItem_permuted l r Idxs Coords i j :
  lockstep Idxs Coords -> 0 <= i < len Idxs -> 0 <= j < len Idxs ->
  l <= i <= r -> l <= j <= r ->
  exists Idxs' Coords', swapItem Idxs Coords i j = Ok (Idxs', Coords') /\
    permuted l r Idxs Coords Idxs' Coords' /\
    forall p, item Idxs' Coords' p = item Idxs Coords (transp i j p).
Proof.
  intros HL Hi Hj Hli Hlj.
  destruct (swapItem_spec Idxs Coords i j HL Hi Hj) as (I' & C' & Hrun & HlI & HlC & Hit).
  exists I', C'. split; [exact Hrun|]. split; [|exact Hit].
  split; [exact HlI|]. split; [exact HlC|].
  exists (transp i j), (transp i j). split; [apply bijOn_transp; assumption|exact Hit].
Qed.

(** ** The two inner scans stop at a sentinel *)

Lemma scan_up_spec Idxs Coords inc t :
  lockstep Idxs Coords -> 0 <= inc <= 1 ->
  forall fuel i s,
    0 <= i <= s -> s < len Idxs ->
    (t <= key Coords inc s)%Q ->
    (Z.to_nat (s - i) < fuel)%nat ->
    exists i', scan_up fuel Coords inc t i = Ok i' /\
      i <= i' <= s /\
      (t <= key Coords inc i')%Q /\
      forall p, i <= p < i' -> (key Coords inc p < t)%Q.
Proof.
  intros HL Hinc. induction fuel as [|fuel IH]; intros i s His Hs Hsent Hfuel.
  - lia.
  - simpl. rewrite (get_key Idxs) by (auto; lia). rewrite bind_Ok.
    destruct (Qltb (key Coords inc i) t) eqn:E.
    + apply Qltb_lt in E.
      assert (i <> s).
      { intros ->. eapply Qlt_not_le; eauto. }
      destruct (IH (i + 1) s) as (i' & Hrun & Hr & Hk & Hbelow); try lia; auto.
      exists i'. split; [exact Hrun|]. split; [lia|]. split; [exact Hk|].
      intros p Hp. destruct (decide (p = i)) as [->|Hne]; [exact E|].
      apply Hbelow. lia.
    + apply Qltb_ge in E. exists i. split; [reflexivity|].
      split; [lia|]. split; [exact E|]. intros p Hp. lia.
Qed.

Lemma scan_down_spec Idxs Coords inc t :
  lockstep Idxs Coords -> 0 <= inc <= 1 ->
  forall fuel j s,
    0 <= s <= j -> j < len Idxs ->
    (key Coords inc s <= t)%Q ->
    (Z.to_nat (j - s) < fuel)%nat ->
    exists j', scan_down fuel Coords inc t j = Ok j' /\
      s <= j' <= j /\
      (key Coords inc j' <= t)%Q /\
      forall p, j' < p <= j -> (t < key Coords inc p)%Q.
Proof.
  intros HL Hinc. induction fuel as [|fuel IH]; intros j s Hsj Hj Hsent Hfuel.
  - lia.
  - simpl. rewrite (get_key Idxs) by (auto; lia). rewrite bind_Ok.
    unfold Qgtb.
    destruct (Qltb t (key Coords inc j)) eqn:E.
    + apply Qltb_lt in E.
      assert (j <> s).
      { intros ->. eapply Qlt_not_le; eauto. }
      destruct (IH (j - 1) s) as (j' & Hrun & Hr & Hk & Habove); try lia; auto.
      exists j'. split; [exact Hrun|]. split; [lia|]. split; [exact Hk|].
      intros p Hp. destruct (decide (p = j)) as [->|Hne]; [exact E|].
      apply Habove. lia.
    + apply Qltb_ge in E. exists j. split; [reflexivity|].
      split; [lia|]. split; [exact E|]. intros p Hp. lia.
Qed.

(** ** The two-pointer loop *)

Lemma transp_l i j : transp i j i = j.
Proof. unfold transp. rewrite Z.eqb_refl. reflexivity. Qed.

Lemma transp_r i j : transp i j j = i.
Proof.
  unfold transp. destruct (Z.eqb_spec j i) as [->|]; [reflexivity|].
  rewrite Z.eqb_refl. reflexivity.
Qed.

Lemma transp_other i j p : p <> i -> p <> j -> transp i j p = p.
Proof.
  intros. unfold transp.
  destruct (Z.eqb_spec p i); [lia|]. destruct (Z.eqb_spec p j); [lia|]. reflexivity.
Qed.

Lemma partition_loop_spec inc t lo hi :
  0 <= inc <= 1 -> 0 <= lo ->
  forall fuel Idxs Coords i j,
    lockstep Idxs Coords -> hi < len Idxs ->
    lo <= i <= hi -> lo <= j <= hi ->
    (forall p, lo <= p < i -> (key Coords inc p <= t)%Q) ->
    (forall p, j < p <= hi -> (t <= key Coords inc p)%Q) ->
    (t <= key Coords inc i)%Q ->
    (key Coords inc j <= t)%Q ->
    (Z.to_nat (j - i) + Z.to_nat (hi - lo) + 2 <= fuel)%nat ->
    exists Idxs' Coords' i' j',
      partition_loop fuel Idxs Coords inc t i j = Ok (Idxs', Coords', i', j') /\
      permuted i j Idxs Coords Idxs' Coords' /\
      i <= i' <= hi /\ lo <= j' <= j /\ j' <= i' /\
      (forall p, lo <= p < i' -> (key Coords' inc p <= t)%Q) /\
      (forall p, j' < p <= hi -> (t <= key Coords' inc p)%Q) /\
      (key Coords' inc j' <= t)%Q /\
      (i < j -> i < i' /\ j' < j /\
                item Idxs' Coords' i = item Idxs Coords j /\
                item Idxs' Coords' j = item Idxs Coords i).
Proof.
  intros Hinc Hlo.
  induction fuel as [|fuel IH];
    intros Idxs Coords i j HL Hhi Hi Hj Hbelow Habove Hki Hkj Hfuel.
  - lia.
  - simpl. destruct (Z.ltb_spec i j) as [Hij|Hij].
    + destruct (swapItem_permuted i j Idxs Coords i j)
        as (I1 & C1 & Hswap & HP1 & Hit1); try lia; auto.
      rewrite Hswap, bind_Ok.
      pose proof (permuted_lockstep _ _ _ _ _ _ HP1 HL) as HL1.
      pose proof (permuted_len _ _ _ _ _ _ HP1) as Hlen1.
      assert (Hk1 : forall p, key C1 inc p = key Coords inc (transp i j p)).
      { intros p. eapply key_of_item; eauto. }
      destruct (scan_up_spec I1 C1 inc t HL1 Hinc fuel (i + 1) j)
        as (i1 & Hup & Hi1 & Hki1 & Hup_lt); try lia.
      { rewrite Hk1, transp_r. exact Hki. }
      destruct (scan_down_spec I1 C1 inc t HL1 Hinc fuel (j - 1) i)
        as (j1 & Hdown & Hj1 & Hkj1 & Hdown_gt); try lia.
      { rewrite Hk1, transp_l. exact Hkj. }
      rewrite Hup, bind_Ok, Hdown, bind_Ok.
      destruct (IH I1 C1 i1 j1)
        as (I' & C' & i' & j' & Hrun & HP' & Hi' & Hj' & Hji' & Hb' & Ha' & Hkj' & _);
        try lia; auto.
      { intros p Hp. destruct (decide (p < i)) as [Hpi|Hpi].
        - rewrite Hk1, transp_other by lia. apply Hbelow. lia.
        - destruct (decide (p = i)) as [->|Hne].
          + rewrite Hk1, transp_l. exact Hkj.
          + apply Qlt_le_weak. apply Hup_lt. lia. }
      { intros p Hp. destruct (decide (j < p)) as [Hpj|Hpj].
        - rewrite Hk1, transp_other by lia. apply Habove. lia.
        - destruct (decide (p = j)) as [->|Hne].
          + rewrite Hk1, transp_r. exact Hki.
          + apply Qlt_le_weak. apply Hdown_gt. lia. }
      exists I', C', i', j'. split; [exact Hrun|].
      split.
      { eapply permuted_trans; [exact HP1|].
        eapply permuted_widen; [| |exact HP']; lia. }
      split; [lia|]. split; [lia|]. split; [lia|].
      split; [exact Hb'|]. split; [exact Ha'|]. split; [exact Hkj'|].
      intros _. split; [lia|]. split; [lia|]. split.
      * rewrite (permuted_outside _ _ _ _ _ _ i HP') by lia.
        rewrite Hit1, transp_l. reflexivity.
      * rewrite (permuted_outside _ _ _ _ _ _ j HP') by lia.
        rewrite Hit1, transp_r. reflexivity.
    + exists Idxs, Coords, i, j. split; [reflexivity|].
      split; [apply permuted_refl|].
      split; [lia|]. split; [lia|]. split; [lia|].
      split; [exact Hbelow|]. split; [exact Habove|]. split; [exact Hkj|].
      intros Hc. lia.
Qed.

(** ** One pass of [sselect] places the pivot *)

Lemma select_pass_spec fuel Idxs Coords k left right inc :
  lockstep Idxs Coords -> 0 <= inc <= 1 ->
  0 <= left -> right < len Idxs -> left <= k <= right -> left < right ->
  (2 * Z.to_nat (right - left) + 2 <= fuel)%nat ->
  exists Idxs' Coords' j,
    select_pass fuel Idxs Coords k left right inc = Ok (Idxs', Coords', j) /\
    permuted left right Idxs Coords Idxs' Coords' /\
    left <= j <= right /\
    (forall p, left <= p < j -> (key Coords' inc p <= key Coords' inc j)%Q) /\
    (forall p, j < p <= right -> (key Coords' inc j <= key Coords' inc p)%Q).
Proof.
  intros HL Hinc Hleft Hright Hk Hlr Hfuel.
  unfold select_pass.
  rewrite (get_key Idxs) by (auto; lia). rewrite bind_Ok.
  set (t := key Coords inc k).
  (* the pivot goes to [left] *)
  destruct (swapItem_permuted left right Idxs Coords left k)
    as (I1 & C1 & Hswap1 & HP1 & Hit1); try lia; auto.
  rewrite Hswap1, bind_Ok.
  pose proof (permuted_lockstep _ _ _ _ _ _ HP1 HL) as HL1.
  pose proof (permuted_len _ _ _ _ _ _ HP1) as Hlen1.
  assert (Hk1 : key C1 inc left = t).
  { rewrite (key_of_item Idxs Coords I1 C1 inc left (transp left k left) Hinc (Hit1 _)).
    rewrite transp_l. reflexivity. }
  rewrite (get_key I1) by (auto; lia). rewrite bind_Ok.
  (* the initial exchange of the two ends *)
  assert (Hpre : exists I2 C2,
    (if Qgtb (key C1 inc right) t then swapItem I1 C1 left right else Ok (I1, C1))
    = Ok (I2, C2) /\
    permuted left right I1 C1 I2 C2 /\
    (t <= key C2 inc left)%Q /\ (key C2 inc right <= t)%Q /\
    (key C2 inc left = t \/ key C2 inc right = t)).
  { unfold Qgtb. destruct (Qltb t (key C1 inc right)) eqn:E.
    - apply Qltb_lt in E.
      destruct (swapItem_permuted left right I1 C1 left right)
        as (I2 & C2 & Hswap2 & HP2 & Hit2); try lia; auto.
      exists I2, C2. split; [exact Hswap2|]. split; [exact HP2|].
      assert (E1 : key C2 inc left = key C1 inc right).
      { rewrite (key_of_item I1 C1 I2 C2 inc left _ Hinc (Hit2 _)).
        rewrite transp_l. reflexivity. }
      assert (E2 : key C2 inc right = key C1 inc left).
      { rewrite (key_of_item I1 C1 I2 C2 inc right _ Hinc (Hit2 _)).
        rewrite transp_r. reflexivity. }
      rewrite E1, E2, Hk1. split; [apply Qlt_le_weak; exact E|].
      split; [apply Qle_refl|]. right. reflexivity.
    - apply Qltb_ge in E. exists I1, C1. split; [reflexivity|].
      split; [apply permuted_refl|]. rewrite Hk1.
      split; [apply Qle_refl|]. split; [exact E|]. left. reflexivity. }
  destruct Hpre as (I2 & C2 & Hrun2 & HP2 & Hge2 & Hle2 & Hsent).
  rewrite Hrun2, bind_Ok.
  pose proof (permuted_lockstep _ _ _ _ _ _ HP2 HL1) as HL2.
  pose proof (permuted_len _ _ _ _ _ _ HP2) as Hlen2.
  (* the two-pointer loop *)
  destruct (partition_loop_spec inc t left right Hinc Hleft fuel I2 C2 left right)
    as (I3 & C3 & i' & j' & Hrun3 & HP3 & Hi' & Hj' & Hji' & Hb3 & Ha3 & Hkj3 & Hends);
    try lia; auto.
  destruct (Hends Hlr) as (Hli' & Hj'r & Hitl & Hitr).
  rewrite Hrun3, bind_Ok.
  pose proof (permuted_lockstep _ _ _ _ _ _ HP3 HL2) as HL3.
  pose proof (permuted_len _ _ _ _ _ _ HP3) as Hlen3.
  assert (Hk3l : key C3 inc left = key C2 inc right)
    by (eapply key_of_item; eauto).
  assert (Hk3r : key C3 inc right = key C2 inc left)
    by (eapply key_of_item; eauto).
  rewrite (get_key I3) by (auto; lia). rewrite bind_Ok.
  assert (HP03 : permuted left right Idxs Coords I3 C3).
  { eapply permuted_trans; [exact HP1|].
    eapply permuted_trans; [exact HP2|exact HP3]. }
  destruct (Qeqb (key C3 inc left) t) eqn:Eq.
  - (* the pivot sits at [left]: it goes to [j] *)
    apply Qeqb_eq in Eq.
    destruct (swapItem_permuted left right I3 C3 left j')
      as (I4 & C4 & Hswap4 & HP4 & Hit4); try lia; auto.
    rewrite Hswap4, bind_Ok.
    exists I4, C4, j'. split; [reflexivity|].
    split; [eapply permuted_trans; eauto|].
    split; [lia|].
    assert (Hk4 : forall p, key C4 inc p = key C3 inc (transp left j' p)).
    { intros p. eapply key_of_item; eauto. }
    assert (Hpiv : (key C4 inc j' == t)%Q).
    { rewrite Hk4, transp_r. exact Eq. }
    split.
    + intros p Hp. rewrite Hpiv.
      destruct (decide (p = left)) as [->|Hne].
      * rewrite Hk4, transp_l. exact Hkj3.
      * rewrite Hk4, transp_other by lia. apply Hb3. lia.
    + intros p Hp. rewrite Hpiv.
      rewrite Hk4, transp_other by lia. apply Ha3. lia.
  - (* the pivot sits at [right]: it goes to [j + 1] *)
    apply Qeqb_neq in Eq.
    assert (Hr : key C3 inc right = t).
    { destruct Hsent as [Hs|Hs].
      - rewrite Hk3r. exact Hs.
      - exfalso. apply Eq. rewrite Hk3l, Hs. reflexivity. }
    destruct (swapItem_permuted left right I3 C3 (j' + 1) right)
      as (I4 & C4 & Hswap4 & HP4 & Hit4); try lia; auto.
    rewrite Hswap4, bind_Ok.
    exists I4, C4, (j' + 1). split; [reflexivity|].
    split; [eapply permuted_trans; eauto|].
    split; [lia|].
    assert (Hk4 : forall p, key C4 inc p = key C3 inc (transp (j' + 1) right p)).
    { intros p. eapply key_of_item; eauto. }
    assert (Hpiv : key C4 inc (j' + 1) = t).
    { rewrite Hk4, transp_l. exact Hr. }
    split.
    + intros p Hp. rewrite Hpiv.
      rewrite Hk4, transp_other by lia.
      destruct (decide (p = j')) as [->|Hne]; [exact Hkj3|].
      apply Hb3. lia.
    + intros p Hp. rewrite Hpiv.
      destruct (decide (p = right)) as [->|Hne].
      * rewrite Hk4, transp_r. apply Ha3. lia.
      * rewrite Hk4, transp_other by lia. apply Ha3. lia.
Qed.

(** ** [sselect] *)

Lemma sselect_unfold fuel Idxs Coords k left right inc :
  sselect (S fuel) Idxs Coords k left right inc
  = if right >? left then
      '(Idxs, Coords) ←
        (if right - left >? 600 then
           sselect fuel Idxs Coords k
             (iMax left (frLower (right - left + 1) (k - left + 1) k))
             (iMin right (frUpper (right - left + 1) (k - left + 1) k)) inc
         else Ok (Idxs, Coords));
      '(Idxs, Coords, j) ← select_pass fuel Idxs Coords k left right inc;
      sselect fuel Idxs Coords k
        (if j <=? k then j + 1 else left) (if k <=? j then j - 1 else right) inc
    else Ok (Idxs, Coords).
Proof. reflexivity. Qed.

Lemma fenced_permuted Idxs Coords Idxs' Coords' inc L R left right :
  0 <= inc <= 1 -> L <= left -> right <= R ->
  permuted left right Idxs Coords Idxs' Coords' ->
  fenced Coords inc L R left right -> fenced Coords' inc L R left right.
Proof.
  intros Hinc HLl HrR HP [HlF HrF]. split.
  - intros p q Hp Hq.
    rewrite (permuted_key_outside _ _ _ _ _ _ inc p HP Hinc) by lia.
    destruct (decide (left <= q <= right)) as [Hin|Hout].
    + destruct (permuted_key_inside _ _ _ _ _ _ inc q HP Hinc Hin) as (q' & Hq' & ->).
      apply HlF; lia.
    + rewrite (permuted_key_outside _ _ _ _ _ _ inc q HP Hinc) by lia.
      apply HlF; lia.
  - intros p q Hp Hq.
    rewrite (permuted_key_outside _ _ _ _ _ _ inc q HP Hinc) by lia.
    destruct (decide (left <= p <= right)) as [Hin|Hout].
    + destruct (permuted_key_inside _ _ _ _ _ _ inc p HP Hinc Hin) as (p' & Hp' & ->).
      apply HrF; lia.
    + rewrite (permuted_key_outside _ _ _ _ _ _ inc p HP Hinc) by lia.
      apply HrF; lia.
Qed.

Lemma fr_bracket k left right :
  left <= k <= right -> 600 < right - left ->
  let newLeft := iMax left (frLower (right - left + 1) (k - left + 1) k) in
  let newRight := iMin right (frUpper (right - left + 1) (k - left + 1) k) in
  left <= newLeft <= k /\ k <= newRight <= right /\
  newRight - newLeft < right - left.
Proof.
  intros Hk Hbig.
  pose proof (fr_encloses (right - left + 1) (k - left + 1) k
                ltac:(lia) ltac:(lia)) as He.
  pose proof (fr_shrinks (right - left + 1) (k - left + 1) k
                ltac:(lia) ltac:(lia)) as Hs.
  simpl. unfold iMax, iMin.
  destruct (Z.gtb_spec left (frLower (right - left + 1) (k - left + 1) k));
    destruct (Z.ltb_spec right (frUpper (right - left + 1) (k - left + 1) k));
    lia.
Qed.

Lemma sselect_window inc k :
  0 <= inc <= 1 ->
  forall fuel L R Idxs Coords left right,
    lockstep Idxs Coords -> 0 <= L -> L <= k <= R -> R < len Idxs ->
    L <= left -> right <= R ->
    (left <= k <= right \/ (left = k + 1 /\ right = k - 1)) ->
    fenced Coords inc L R left right ->
    (selectFuel left right <= fuel)%nat ->
    exists Idxs' Coords',
      sselect fuel Idxs Coords k left right inc = Ok (Idxs', Coords') /\
      permuted left right Idxs Coords Idxs' Coords' /\
      (forall p, L <= p <= k -> (key Coords' inc p <= key Coords' inc k)%Q) /\
      (forall p, k <= p <= R -> (key Coords' inc k <= key Coords' inc p)%Q).
Proof.
  intros Hinc. unfold selectFuel.
  induction fuel as [|fuel IH];
    intros L R Idxs Coords left right HL HL0 HkLR HR Hleft Hright Hwin Hfen Hfuel.
  - lia.
  - rewrite sselect_unfold.
    destruct (Z.gtb_spec right left) as [Hlr|Hlr].
    + assert (Hk : left <= k <= right) by lia.
      (* the bracket tightening for large ranges *)
      assert (Hfr : exists I1 C1,
        (if right - left >? 600 then
           sselect fuel Idxs Coords k
             (iMax left (frLower (right - left + 1) (k - left + 1) k))
             (iMin right (frUpper (right - left + 1) (k - left + 1) k)) inc
         else Ok (Idxs, Coords)) = Ok (I1, C1) /\
        permuted left right Idxs Coords I1 C1).
      { destruct (Z.gtb_spec (right - left) 600) as [Hbig|Hsmall].
        - destruct (fr_bracket k left right Hk Hbig) as (Hnl & Hnr & Hshr).
          destruct (IH (iMax left (frLower (right - left + 1) (k - left + 1) k))
                       (iMin right (frUpper (right - left + 1) (k - left + 1) k))
                       Idxs Coords
                       (iMax left (frLower (right - left + 1) (k - left + 1) k))
                       (iMin right (frUpper (right - left + 1) (k - left + 1) k)))
            as (I1 & C1 & Hrun & HP & _); try lia; auto.
          { split; intros p q Hp Hq; lia. }
          exists I1, C1. split; [exact Hrun|].
          eapply permuted_widen; [| |exact HP]; lia.
        - exists Idxs, Coords. split; [reflexivity|apply permuted_refl]. }
      destruct Hfr as (I1 & C1 & Hrun1 & HP1).
      rewrite Hrun1, bind_Ok.
      pose proof (permuted_lockstep _ _ _ _ _ _ HP1 HL) as HL1.
      pose proof (permuted_len _ _ _ _ _ _ HP1) as Hlen1.
      pose proof (fenced_permuted _ _ _ _ inc L R left right Hinc Hleft Hright HP1 Hfen)
        as Hfen1.
      (* one partitioning pass *)
      destruct (select_pass_spec fuel I1 C1 k left right inc)
        as (I2 & C2 & j & Hrun2 & HP2 & Hj & Hbelow & Habove); try lia; auto.
      rewrite Hrun2, bind_Ok.
      pose proof (permuted_lockstep _ _ _ _ _ _ HP2 HL1) as HL2.
      pose proof (permuted_len _ _ _ _ _ _ HP2) as Hlen2.
      destruct (fenced_permuted _ _ _ _ inc L R left right Hinc Hleft Hright HP2 Hfen1)
        as [HlF HrF].
      (* the loop goes on with the side that holds [k] *)
      destruct (IH L R I2 C2 (if j <=? k then j + 1 else left)
                  (if k <=? j then j - 1 else right))
        as (I3 & C3 & Hrun3 & HP3 & Hlo & Hhi); try lia; auto.
      { destruct (Z.leb_spec j k); lia. }
      { destruct (Z.leb_spec k j); lia. }
      { destruct (Z.leb_spec j k); destruct (Z.leb_spec k j); lia. }
      { split.
        - intros p q Hp Hq. destruct (Z.leb_spec j k) as [Hjk|Hjk].
          + destruct (decide (p < left)) as [Hpl|Hpl]; [apply HlF; lia|].
            destruct (decide (q <= right)) as [Hqr|Hqr]; [|apply HrF; lia].
            apply Qle_trans with (key C2 inc j).
            * destruct (decide (p = j)) as [->|Hne]; [apply Qle_refl|].
              apply Hbelow. lia.
            * apply Habove. destruct (Z.leb_spec k j); lia.
          + apply HlF; [lia|]. destruct (Z.leb_spec k j); lia.
        - intros p q Hp Hq. destruct (Z.leb_spec k j) as [Hkj|Hkj].
          + destruct (decide (right < q)) as [Hqr|Hqr]; [apply HrF; lia|].
            destruct (decide (p < left)) as [Hpl|Hpl]; [apply HlF; lia|].
            apply Qle_trans with (key C2 inc j).
            * apply Hbelow. destruct (Z.leb_spec j k); lia.
            * destruct (decide (q = j)) as [->|Hne]; [apply Qle_refl|].
              apply Habove. lia.
          + apply HrF; [|lia]. destruct (Z.leb_spec j k); lia. }
      { destruct (Z.leb_spec j k); destruct (Z.leb_spec k j); lia. }
      exists I3, C3. split; [exact Hrun3|]. split; [|split; assumption].
      eapply permuted_trans; [exact HP1|].
      eapply permuted_trans; [exact HP2|].
      eapply permuted_widen; [| |exact HP3].
      * destruct (Z.leb_spec j k); lia.
      * destruct (Z.leb_spec k j); lia.
    + exists Idxs, Coords. split; [reflexivity|]. split; [apply permuted_refl|].
      destruct Hfen as [HlF HrF]. split.
      * intros p Hp. destruct (decide (p = k)) as [->|Hne]; [apply Qle_refl|].
        destruct Hwin as [Hw|[Hw1 Hw2]].
        -- apply HlF; lia.
        -- apply HrF; lia.
      * intros p Hp. destruct (decide (p = k)) as [->|Hne]; [apply Qle_refl|].
        destruct Hwin as [Hw|[Hw1 Hw2]].
        -- apply HrF; lia.
        -- apply HlF; lia.
Qed.

(** ** The contract of [sselect] *)

Lemma bijOn_seqZ l r f g :
  bijOn l r f g -> f <$> seqZ l (r - l + 1) ≡ₚ seqZ l (r - l + 1).
Proof.
  intros (Hf & Hg & _). apply NoDup_Permutation.
  - apply NoDup_fmap_2_strong; [|apply NoDup_seqZ].
    intros x y Hx Hy E. apply elem_of_seqZ in Hx, Hy.
    destruct (Hf x ltac:(lia)) as [_ Ex]. destruct (Hf y ltac:(lia)) as [_ Ey].
    congruence.
  - apply NoDup_seqZ.
  - intros x. rewrite list_elem_of_fmap. setoid_rewrite elem_of_seqZ. split.
    + intros (y & -> & Hy). destruct (Hf y ltac:(lia)). lia.
    + intros Hx. exists (g x). destruct (Hg x ltac:(lia)) as [Hr E].
      split; [symmetry; exact E|lia].
Qed.

Lemma permuted_keysOf l r I1 C1 I2 C2 inc :
  0 <= inc <= 1 -> permuted l r I1 C1 I2 C2 ->
  keysOf C2 inc l r ≡ₚ keysOf C1 inc l r.
Proof.
  intros Hinc (_ & _ & f & g & Hb & Hit). unfold keysOf.
  rewrite <- (bijOn_seqZ l r f g Hb) at 2.
  rewrite <- list_fmap_compose.
  erewrite list_fmap_ext; [reflexivity|].
  intros i x _. simpl. eapply key_of_item; eauto.
Qed.

Lemma filter_length_perm {T : Type} (f : T -> bool) (l l' : list T) :
  l ≡ₚ l' -> length (List.filter f l) = length (List.filter f l').
Proof.
  induction 1 as [|x l l' _ IH|x y l|l l' l'' _ IH1 _ IH2]; simpl.
  - reflexivity.
  - destruct (f x); simpl; congruence.
  - destruct (f x), (f y); reflexivity.
  - congruence.
Qed.

Lemma filter_length_all {T : Type} (f : T -> bool) (l : list T) :
  (forall x, x ∈ l -> f x = true) -> length (List.filter f l) = length l.
Proof.
  induction l as [|x l IH]; intros Hall; simpl; [reflexivity|].
  rewrite (Hall x) by (left; reflexivity). simpl. f_equal.
  apply IH. intros y Hy. apply Hall. right. exact Hy.
Qed.

Lemma filter_length_none {T : Type} (f : T -> bool) (l : list T) :
  (forall x, x ∈ l -> f x = false) -> length (List.filter f l) = 0%nat.
Proof.
  induction l as [|x l IH]; intros Hall; simpl; [reflexivity|].
  rewrite (Hall x) by (left; reflexivity).
  apply IH. intros y Hy. apply Hall. right. exact Hy.
Qed.

Lemma keysOf_split Coords inc left k right :
  left <= k <= right ->
  keysOf Coords inc left right
  = keysOf Coords inc left (k - 1) ++ key Coords inc k :: keysOf Coords inc (k + 1) right.
Proof.
  intros Hk. unfold keysOf.
  replace (right - left + 1) with ((k - 1 - left + 1) + (1 + (right - (k + 1) + 1)))
    by lia.
  rewrite seqZ_app by lia. rewrite fmap_app. f_equal.
  replace (left + (k - 1 - left + 1)) with k by lia.
  rewrite seqZ_cons by lia. simpl. f_equal. f_equal. f_equal; lia.
Qed.

Lemma elem_of_keysOf Coords inc l r x :
  x ∈ keysOf Coords inc l r -> exists p, l <= p <= r /\ x = key Coords inc p.
Proof.
  unfold keysOf. rewrite list_elem_of_fmap. intros (p & -> & Hp).
  apply elem_of_seqZ in Hp. exists p. split; [lia|reflexivity].
Qed.

(** A position that splits its range holds the value of its rank. *)
Lemma split_hasRank Coords inc left k right :
  left <= k <= right ->
  (forall p, left <= p <= k -> (key Coords inc p <= key Coords inc k)%Q) ->
  (forall p, k <= p <= right -> (key Coords inc k <= key Coords inc p)%Q) ->
  hasRank (keysOf Coords inc left right) (k - left) (key Coords inc k).
Proof.
  intros Hk Hlo Hhi. unfold hasRank, len.
  rewrite (keysOf_split Coords inc left k right Hk).
  rewrite !List.filter_app, !length_app. simpl.
  assert (Hlen : length (keysOf Coords inc left (k - 1)) = Z.to_nat (k - left)).
  { unfold keysOf. rewrite length_fmap, length_seqZ. f_equal. lia. }
  assert (Hself_lt : Qltb (key Coords inc k) (key Coords inc k) = false).
  { apply Qltb_ge. apply Qle_refl. }
  assert (Hself_le : Qleb (key Coords inc k) (key Coords inc k) = true).
  { apply Qleb_le. apply Qle_refl. }
  rewrite Hself_lt, Hself_le. simpl.
  rewrite (filter_length_none _ (keysOf Coords inc (k + 1) right)).
  2:{ intros x Hx. apply elem_of_keysOf in Hx. destruct Hx as (p & Hp & ->).
      apply Qltb_ge. apply Hhi. lia. }
  rewrite (filter_length_all (fun x => Qleb x _) (keysOf Coords inc left (k - 1))).
  2:{ intros x Hx. apply elem_of_keysOf in Hx. destruct Hx as (p & Hp & ->).
      apply Qleb_le. apply Hlo. lia. }
  pose proof (List.filter_length_le (fun x => Qltb x (key Coords inc k))
                (keysOf Coords inc left (k - 1))) as Hle.
  rewrite Hlen in *. lia.
Qed.

Lemma hasRank_perm keys keys' r v :
  keys ≡ₚ keys' -> hasRank keys r v -> hasRank keys' r v.
Proof.
  intros HP. unfold hasRank, len.
  rewrite (filter_length_perm (fun x => Qltb x v) keys keys' HP).
  rewrite (filter_length_perm (fun x => Qleb x v) keys keys' HP).
  tauto.
Qed.

Lemma sselect_spec fuel Idxs Coords k left right inc :
  lockstep Idxs Coords -> 0 <= inc <= 1 ->
  0 <= left -> left <= k <= right -> right < len Idxs ->
  (selectFuel left right <= fuel)%nat ->
  exists Idxs' Coords',
    sselect fuel Idxs Coords k left right inc = Ok (Idxs', Coords') /\
    permuted left right Idxs Coords Idxs' Coords' /\
    (forall p, left <= p <= k -> (key Coords' inc p <= key Coords' inc k)%Q) /\
    (forall p, k <= p <= right -> (key Coords' inc k <= key Coords' inc p)%Q).
Proof.
  intros HL Hinc Hleft Hk Hright Hfuel.
  apply (sselect_window inc k Hinc fuel left right); auto; try lia.
  split; intros p q Hp Hq; lia.
Qed.

(** ** [sort] establishes the k-d partial order *)

Lemma floor_half n : floor (float64 n / 2) = n / 2.
Proof.
  unfold floor, float64, Qdiv, Qmult, Qinv, Qfloor, inject_Z. simpl.
  rewrite Z.mul_1_r. reflexivity.
Qed.

Lemma axis_range depth : 0 <= depth mod 2 <= 1.
Proof. pose proof (Z.mod_pos_bound depth 2 ltac:(lia)). lia. Qed.

Lemma sort_unfold fuel Idxs Coords nodeSize left right depth :
  sort (S fuel) Idxs Coords nodeSize left right depth
  = if right - left <=? nodeSize then Ok (Idxs, Coords)
    else
      '(Idxs, Coords) ←
        sselect fuel Idxs Coords (floor (float64 (left + right) / 2)) left right
          (Z.rem depth 2);
      '(Idxs, Coords) ←
        sort fuel Idxs Coords nodeSize left
          (floor (float64 (left + right) / 2) - 1) (depth + 1);
      sort fuel Idxs Coords nodeSize
        (floor (float64 (left + right) / 2) + 1) right (depth + 1).
Proof. reflexivity. Qed.

(** The k-d order of a range depends on the keys of that range only. *)
Lemma kdtree_frame nodeSize Coords Coords' left right depth :
  -1 <= nodeSize ->
  (forall inc p, 0 <= inc <= 1 -> left <= p <= right ->
     key Coords' inc p = key Coords inc p) ->
  kdtree nodeSize Coords left right depth ->
  kdtree nodeSize Coords' left right depth.
Proof.
  intros Hns Hsame Hkd. induction Hkd as [l r d Hleaf|l r d Hnode Hlo Hhi _ IHl _ IHr].
  - apply kd_leaf. exact Hleaf.
  - pose proof (axis_range d) as Hax.
    assert (Hm : l <= (l + r) / 2 <= r).
    { split; [apply Z.div_le_lower_bound|apply Z.div_le_upper_bound]; lia. }
    apply kd_node.
    + exact Hnode.
    + intros p Hp. rewrite !Hsame by lia. apply Hlo. exact Hp.
    + intros p Hp. rewrite !Hsame by lia. apply Hhi. exact Hp.
    + apply IHl. intros inc p Hinc Hp. apply Hsame; lia.
    + apply IHr. intros inc p Hinc Hp. apply Hsame; lia.
Qed.

Lemma kdtree_permuted_elsewhere nodeSize l r I1 C1 I2 C2 left right depth :
  -1 <= nodeSize ->
  permuted l r I1 C1 I2 C2 -> (right < l \/ r < left) ->
  kdtree nodeSize C1 left right depth -> kdtree nodeSize C2 left right depth.
Proof.
  intros Hns HP Hdisj. apply kdtree_frame; [exact Hns|].
  intros inc p Hinc Hp. eapply permuted_key_outside; eauto. lia.
Qed.

Lemma sort_spec nodeSize :
  -1 <= nodeSize ->
  forall fuel Idxs Coords left right depth,
    lockstep Idxs Coords -> 0 <= left -> right < len Idxs ->
    left <= right + 1 -> 0 <= depth ->
    (sortFuel left right <= fuel)%nat ->
    exists Idxs' Coords',
      sort fuel Idxs Coords nodeSize left right depth = Ok (Idxs', Coords') /\
      permuted left right Idxs Coords Idxs' Coords' /\
      kdtree nodeSize Coords' left right depth.
Proof.
  intros Hns. unfold sortFuel.
  induction fuel as [|fuel IH];
    intros Idxs Coords left right depth HL Hleft Hright Hlr Hdepth Hfuel.
  - lia.
  - rewrite sort_unfold, floor_half.
    destruct (Z.leb_spec (right - left) nodeSize) as [Hleaf|Hnode].
    + exists Idxs, Coords. split; [reflexivity|].
      split; [apply permuted_refl|apply kd_leaf; exact Hleaf].
    + remember ((left + right) / 2) as m eqn:Em.
      assert (Hm : left <= m <= right).
      { subst m. split; [apply Z.div_le_lower_bound|apply Z.div_le_upper_bound]; lia. }
      rewrite Z.rem_mod_nonneg by lia.
      pose proof (axis_range depth) as Hax.
      destruct (sselect_spec fuel Idxs Coords m left right (depth mod 2))
        as (I1 & C1 & Hrun1 & HP1 & Hlo1 & Hhi1); auto; try lia.
      { unfold selectFuel. lia. }
      rewrite Hrun1, bind_Ok.
      pose proof (permuted_lockstep _ _ _ _ _ _ HP1 HL) as HL1.
      pose proof (permuted_len _ _ _ _ _ _ HP1) as Hlen1.
      destruct (IH I1 C1 left (m - 1) (depth + 1))
        as (I2 & C2 & Hrun2 & HP2 & Hkd2); auto; try lia.
      rewrite Hrun2, bind_Ok.
      pose proof (permuted_lockstep _ _ _ _ _ _ HP2 HL1) as HL2.
      pose proof (permuted_len _ _ _ _ _ _ HP2) as Hlen2.
      destruct (IH I2 C2 (m + 1) right (depth + 1))
        as (I3 & C3 & Hrun3 & HP3 & Hkd3); auto; try lia.
      exists I3, C3. split; [exact Hrun3|]. split.
      * eapply permuted_trans; [exact HP1|].
        eapply permuted_trans.
        -- eapply permuted_widen; [| |exact HP2]; lia.
        -- eapply permuted_widen; [| |exact HP3]; lia.
      * assert (Hkm : key C3 (depth mod 2) m = key C1 (depth mod 2) m).
        { rewrite (permuted_key_outside _ _ _ _ _ _ _ m HP3 Hax) by lia.
          apply (permuted_key_outside _ _ _ _ _ _ _ m HP2 Hax). lia. }
        apply kd_node; rewrite <- ?Em.
        -- lia.
        -- intros p Hp. rewrite Hkm.
           rewrite (permuted_key_outside _ _ _ _ _ _ _ p HP3 Hax) by lia.
           destruct (permuted_key_inside _ _ _ _ _ _ _ p HP2 Hax ltac:(lia))
             as (q & Hq & ->).
           apply Hlo1. lia.
        -- intros p Hp. rewrite Hkm.
           destruct (permuted_key_inside _ _ _ _ _ _ _ p HP3 Hax ltac:(lia))
             as (q & Hq & ->).
           rewrite (permuted_key_outside _ _ _ _ _ _ _ q HP2 Hax) by lia.
           apply Hhi1. lia.
        -- eapply kdtree_permuted_elsewhere; [exact Hns|exact HP3| |exact Hkd2]. lia.
        -- exact Hkd3.
Qed.

(** ** Construction *)

Lemma idxAt_insert (Idxs : list Z) i v p :
  0 <= i < len Idxs ->
  idxAt (<[Z.to_nat i := v]> Idxs) p = if decide (p = i) then v else idxAt Idxs p.
Proof.
  unfold len, idxAt. intros Hi.
  destruct (Z.leb_spec 0 p) as [Hp|Hp].
  - destruct (decide (p = i)) as [->|Hne].
    + rewrite list_lookup_insert_eq by lia. reflexivity.
    + rewrite list_lookup_insert_ne by lia. reflexivity.
  - destruct (decide (p = i)); [lia|reflexivity].
Qed.

Lemma coordAt_insert (Coords : list Q) i v p :
  0 <= i < len Coords ->
  coordAt (<[Z.to_nat i := v]> Coords) p
  = if decide (p = i) then v else coordAt Coords p.
Proof.
  unfold len, coordAt. intros Hi.
  destruct (Z.leb_spec 0 p) as [Hp|Hp].
  - destruct (decide (p = i)) as [->|Hne].
    + rewrite list_lookup_insert_eq by lia. reflexivity.
    + rewrite list_lookup_insert_ne by lia. reflexivity.
  - destruct (decide (p = i)); [lia|reflexivity].
Qed.

Lemma set_Ok {T : Type} (a : list T) i v :
  0 <= i < len a -> set a i v = Ok (<[Z.to_nat i := v]> a).
Proof.
  unfold len, set. intros Hi.
  destruct (Z.leb_spec 0 i); [|lia].
  destruct (Z.ltb_spec i (Z.of_nat (length a))); [|lia]. reflexivity.
Qed.

Lemma coordsOf_cons v points i :
  0 < i -> coordsOf (v :: points) i = coordsOf points (i - 1).
Proof.
  intros Hi. unfold coordsOf.
  destruct (Z.leb_spec 0 i); [|lia]. destruct (Z.leb_spec 0 (i - 1)); [|lia].
  replace (Z.to_nat i) with (S (Z.to_nat (i - 1))) by lia. reflexivity.
Qed.

Lemma fill_spec points :
  forall i Idxs Coords,
    lockstep Idxs Coords -> 0 <= i -> i + len points <= len Idxs ->
    exists Idxs' Coords',
      fill points i Idxs Coords = Ok (Idxs', Coords') /\
      length Idxs' = length Idxs /\ length Coords' = length Coords /\
      forall p, item Idxs' Coords' p
                = if decide (i <= p < i + len points)
                  then (p, coordsOf points (p - i))
                  else item Idxs Coords p.
Proof.
  induction points as [|v points IH]; intros i Idxs Coords HL Hi Hlen.
  - exists Idxs, Coords. split; [reflexivity|]. split; [reflexivity|].
    split; [reflexivity|]. intros p. unfold len. simpl.
    case_decide; [lia|reflexivity].
  - unfold len in Hlen. simpl in Hlen. unfold lockstep, len in HL.
    simpl. rewrite set_Ok, bind_Ok by (unfold len; lia).
    destruct (Coordinates v) as [x y] eqn:Ev.
    rewrite set_Ok, bind_Ok by (unfold len; lia).
    rewrite set_Ok, bind_Ok by (unfold len; rewrite length_insert; lia).
    destruct (IH (i + 1) (<[Z.to_nat i := i]> Idxs)
                (<[Z.to_nat (i * 2 + 1) := y]> (<[Z.to_nat (i * 2) := x]> Coords)))
      as (I' & C' & Hrun & HlI & HlC & Hit).
    { unfold lockstep, len. rewrite !length_insert. exact HL. }
    { lia. }
    { unfold len. rewrite length_insert. lia. }
    exists I', C'. split; [exact Hrun|].
    split; [rewrite HlI, length_insert; reflexivity|].
    split; [rewrite HlC, !length_insert; reflexivity|].
    intros p. rewrite Hit. unfold len. simpl length.
    rewrite Nat2Z.inj_succ. unfold item.
    rewrite idxAt_insert by (unfold len; lia).
    rewrite !coordAt_insert by (unfold len; rewrite ?length_insert; lia).
    repeat case_decide; try lia.
    + rewrite coordsOf_cons by lia. do 2 f_equal. lia.
    + subst p. replace (i - i) with 0 by lia. unfold coordsOf. simpl.
      rewrite Ev. reflexivity.
    + reflexivity.
Qed.

Lemma NewBush_built fuel points nodeSize :
  -1 <= nodeSize -> (buildFuel points <= fuel)%nat ->
  exists bush, NewBush fuel points nodeSize = Ok bush /\ built points nodeSize bush.
Proof.
  intros Hns Hfuel. unfold NewBush, buildIndex, buildFuel in *.
  cbn [NodeSize Points Idxs Coords].
  destruct (fill_spec points 0 (replicate (length points) 0)
              (replicate (2 * length points) 0%Q))
    as (I1 & C1 & Hrun1 & HlI1 & HlC1 & Hit1).
  { unfold lockstep, len. rewrite !length_replicate. lia. }
  { lia. }
  { unfold len. rewrite length_replicate. lia. }
  rewrite Hrun1, bind_Ok.
  rewrite length_replicate in HlI1. rewrite length_replicate in HlC1.
  assert (HL1 : lockstep I1 C1) by (unfold lockstep, len; lia).
  destruct (sort_spec nodeSize Hns fuel I1 C1 0 (len I1 - 1) 0)
    as (I2 & C2 & Hrun2 & HP2 & Hkd2); auto; try (unfold sortFuel, len; lia).
  rewrite Hrun2, bind_Ok.
  eexists. split; [reflexivity|].
  assert (Hn : len I1 = len points) by (unfold len; lia).
  rewrite Hn in *.
  unfold built. simpl.
  split; [reflexivity|]. split; [reflexivity|].
  split; [eapply permuted_lockstep; eauto|].
  split; [rewrite (permuted_len _ _ _ _ _ _ HP2); exact Hn|].
  split; [exact Hkd2|].
  destruct HP2 as (_ & _ & f & g & Hb & Hit2).
  exists f, g. split; [exact Hb|].
  intros p Hp. rewrite Hit2, Hit1.
  destruct Hb as (Hf & _ & _). destruct (Hf p ltac:(lia)) as [Hr _].
  case_decide; [|lia].
  do 2 f_equal. lia.
Qed.

(** ** One step of the query loops *)

Lemma seqZ_S i (count : nat) :
  seqZ i (Z.of_nat (S count)) = i :: seqZ (i + 1) (Z.of_nat count).
Proof.
  rewrite seqZ_cons by lia. f_equal. f_equal; lia.
Qed.

Lemma range_leaf_spec (bush : KDBush A) minX minY maxX maxY :
  lockstep (Idxs bush) (Coords bush) ->
  forall count i result,
    0 <= i -> i + Z.of_nat count <= len (Idxs bush) ->
    range_leaf count bush minX minY maxX maxY i result
    = Ok (result ++ (idxAt (Idxs bush) <$>
            List.filter (boxTest bush minX minY maxX maxY) (seqZ i (Z.of_nat count)))).
Proof.
  intros HL. induction count as [|count IH]; intros i result Hi Hlen.
  - cbn [range_leaf within_leaf]. rewrite seqZ_nil by lia. cbn [List.filter fmap list_fmap].
    rewrite app_nil_r. reflexivity.
  - unfold lockstep in HL. cbn [range_leaf].
    rewrite !get_coordAt, !bind_Ok by lia.
    rewrite seqZ_S. cbn [List.filter].
    change (Qgeb (coordAt (Coords bush) (2 * i)) minX
            && Qleb (coordAt (Coords bush) (2 * i)) maxX
            && Qgeb (coordAt (Coords bush) (2 * i + 1)) minY
            && Qleb (coordAt (Coords bush) (2 * i + 1)) maxY)
      with (boxTest bush minX minY maxX maxY i).
    destruct (boxTest bush minX minY maxX maxY i).
    + rewrite get_idxAt, !bind_Ok by lia. rewrite IH by lia.
      rewrite fmap_cons, <- app_assoc. reflexivity.
    + rewrite bind_Ok. rewrite IH by lia. reflexivity.
Qed.

Lemma within_leaf_spec (bush : KDBush A) qx qy radius :
  lockstep (Idxs bush) (Coords bush) ->
  forall count i result,
    0 <= i -> i + Z.of_nat count <= len (Idxs bush) ->
    within_leaf count bush qx qy (fmul (Fin radius) (Fin radius)) i result
    = Ok (result ++ (idxAt (Idxs bush) <$>
            List.filter (discTest bush qx qy radius) (seqZ i (Z.of_nat count)))).
Proof.
  intros HL. induction count as [|count IH]; intros i result Hi Hlen.
  - cbn [range_leaf within_leaf]. rewrite seqZ_nil by lia. cbn [List.filter fmap list_fmap].
    rewrite app_nil_r. reflexivity.
  - unfold lockstep in HL. cbn [within_leaf].
    rewrite !get_coordAt, !bind_Ok by lia.
    rewrite seqZ_S. cbn [List.filter].
    change (fle (sqrtDist (Fin (coordAt (Coords bush) (2 * i)))
                   (Fin (coordAt (Coords bush) (2 * i + 1))) (Fin qx) (Fin qy))
                (fmul (Fin radius) (Fin radius)))
      with (discTest bush qx qy radius i).
    destruct (discTest bush qx qy radius i).
    + rewrite get_idxAt, !bind_Ok by lia. rewrite IH by lia.
      rewrite fmap_cons, <- app_assoc. reflexivity.
    + rewrite bind_Ok. rewrite IH by lia. reflexivity.
Qed.

Lemma len_cons_pos (v : Z) (stack : list Z) : (len (v :: stack) >? 0) = true.
Proof. unfold len. simpl length. apply Z.gtb_lt. lia. Qed.

Lemma next_axis axis : 0 <= axis <= 1 -> Z.rem (axis + 1) 2 = (axis + 1) mod 2.
Proof. intros. apply Z.rem_mod_nonneg; lia. Qed.

Lemma prune_test (axis : Z) (a b : bool) :
  0 <= axis <= 1 ->
  ((axis =? 0) && a) || (negb (axis =? 0) && b) = (if axis =? 0 then a else b).
Proof. intros _. destruct (axis =? 0), a, b; reflexivity. Qed.

Lemma key_axis Coords axis m :
  0 <= axis <= 1 ->
  key Coords axis m
  = if axis =? 0 then coordAt Coords (2 * m) else coordAt Coords (2 * m + 1).
Proof.
  intros Hax. unfold key. destruct (Z.eqb_spec axis 0) as [->|Hne].
  - rewrite Z.add_0_r. reflexivity.
  - replace axis with 1 by lia. reflexivity.
Qed.

Ltac pop_stack :=
  repeat first [ progress cbn [top pop] | rewrite bind_Ok | progress cbn beta ].

Lemma range_loop_leaf (bush : KDBush A) minX minY maxX maxY
    fuel axis right left stack result :
  lockstep (Idxs bush) (Coords bush) ->
  right - left <= NodeSize bush -> 0 <= left -> right < len (Idxs bush) ->
  range_loop (S fuel) bush minX minY maxX maxY (axis :: right :: left :: stack) result
  = range_loop fuel bush minX minY maxX maxY stack
      (result ++ (idxAt (Idxs bush) <$>
         List.filter (boxTest bush minX minY maxX maxY)
           (seqZ left (right - left + 1)))).
Proof.
  intros HL Hleaf Hleft Hright. cbn [range_loop].
  rewrite len_cons_pos. pop_stack.
  destruct (Z.leb_spec (right - left) (NodeSize bush)); [|lia].
  destruct (decide (left <= right)) as [Hlr|Hlr].
  - rewrite (range_leaf_spec bush minX minY maxX maxY HL) by lia.
    rewrite bind_Ok, Z2Nat.id by lia. reflexivity.
  - replace (Z.to_nat (right - left + 1)) with 0%nat by lia.
    cbn [range_leaf]. rewrite bind_Ok, seqZ_nil by lia. simpl.
    rewrite app_nil_r. reflexivity.
Qed.

Lemma range_loop_node (bush : KDBush A) minX minY maxX maxY
    fuel axis right left stack result :
  lockstep (Idxs bush) (Coords bush) ->
  NodeSize bush < right - left -> 0 <= left <= right ->
  right < len (Idxs bush) -> 0 <= axis <= 1 ->
  range_loop (S fuel) bush minX minY maxX maxY (axis :: right :: left :: stack) result
  = range_loop fuel bush minX minY maxX maxY
      (children (rangeGoLeft bush minX minY) (rangeGoRight bush maxX maxY)
         axis left right stack)
      (result ++ (if boxTest bush minX minY maxX maxY ((left + right) / 2)
                  then [idxAt (Idxs bush) ((left + right) / 2)] else [])).
Proof.
  intros HL Hnode Hleft Hright Hax. cbn [range_loop].
  rewrite len_cons_pos. pop_stack.
  destruct (Z.leb_spec (right - left) (NodeSize bush)); [lia|].
  rewrite floor_half.
  remember ((left + right) / 2) as m eqn:Em.
  assert (Hm : left <= m <= right).
  { subst m. split; [apply Z.div_le_lower_bound|apply Z.div_le_upper_bound]; lia. }
  unfold lockstep in HL.
  rewrite !get_coordAt, !bind_Ok by lia.
  change (Qgeb (coordAt (Coords bush) (2 * m)) minX
          && Qleb (coordAt (Coords bush) (2 * m)) maxX
          && Qgeb (coordAt (Coords bush) (2 * m + 1)) minY
          && Qleb (coordAt (Coords bush) (2 * m + 1)) maxY)
    with (boxTest bush minX minY maxX maxY m).
  unfold children, rangeGoLeft, rangeGoRight, push. rewrite <- Em.
  rewrite !prune_test, next_axis, !key_axis by (auto; lia).
  destruct (boxTest bush minX minY maxX maxY m).
  - rewrite get_idxAt, !bind_Ok by lia.
    destruct (axis =? 0); reflexivity.
  - rewrite bind_Ok, app_nil_r. destruct (axis =? 0); reflexivity.
Qed.

Lemma within_loop_leaf (bush : KDBush A) qx qy radius
    fuel axis right left stack result :
  lockstep (Idxs bush) (Coords bush) ->
  right - left <= NodeSize bush -> 0 <= left -> right < len (Idxs bush) ->
  within_loop (S fuel) bush qx qy radius (fmul (Fin radius) (Fin radius))
    (axis :: right :: left :: stack) result
  = within_loop fuel bush qx qy radius (fmul (Fin radius) (Fin radius)) stack
      (result ++ (idxAt (Idxs bush) <$>
         List.filter (discTest bush qx qy radius) (seqZ left (right - left + 1)))).
Proof.
  intros HL Hleaf Hleft Hright. cbn [within_loop].
  rewrite len_cons_pos. pop_stack.
  destruct (Z.leb_spec (right - left) (NodeSize bush)); [|lia].
  destruct (decide (left <= right)) as [Hlr|Hlr].
  - rewrite (within_leaf_spec bush qx qy radius HL) by lia.
    rewrite bind_Ok, Z2Nat.id by lia. reflexivity.
  - replace (Z.to_nat (right - left + 1)) with 0%nat by lia.
    cbn [within_leaf]. rewrite bind_Ok, seqZ_nil by lia. simpl.
    rewrite app_nil_r. reflexivity.
Qed.

Lemma within_loop_node (bush : KDBush A) qx qy radius
    fuel axis right left stack result :
  lockstep (Idxs bush) (Coords bush) ->
  NodeSize bush < right - left -> 0 <= left <= right ->
  right < len (Idxs bush) -> 0 <= axis <= 1 ->
  within_loop (S fuel) bush qx qy radius (fmul (Fin radius) (Fin radius))
    (axis :: right :: left :: stack) result
  = within_loop fuel bush qx qy radius (fmul (Fin radius) (Fin radius))
      (children (withinGoLeft bush qx qy radius) (withinGoRight bush qx qy radius)
         axis left right stack)
      (result ++ (if discTest bush qx qy radius ((left + right) / 2)
                  then [idxAt (Idxs bush) ((left + right) / 2)] else [])).
Proof.
  intros HL Hnode Hleft Hright Hax. cbn [within_loop].
  rewrite len_cons_pos. pop_stack.
  destruct (Z.leb_spec (right - left) (NodeSize bush)); [lia|].
  rewrite floor_half.
  remember ((left + right) / 2) as m eqn:Em.
  assert (Hm : left <= m <= right).
  { subst m. split; [apply Z.div_le_lower_bound|apply Z.div_le_upper_bound]; lia. }
  unfold lockstep in HL.
  rewrite !get_coordAt, !bind_Ok by lia.
  change (fle (sqrtDist (Fin (coordAt (Coords bush) (2 * m)))
                 (Fin (coordAt (Coords bush) (2 * m + 1))) (Fin qx) (Fin qy))
              (fmul (Fin radius) (Fin radius)))
    with (discTest bush qx qy radius m).
  unfold children, withinGoLeft, withinGoRight, fge, push. rewrite <- Em.
  rewrite !prune_test, next_axis, !key_axis by (auto; lia).
  destruct (discTest bush qx qy radius m).
  - rewrite get_idxAt, !bind_Ok by lia.
    destruct (axis =? 0); reflexivity.
  - rewrite bind_Ok, app_nil_r. destruct (axis =? 0); reflexivity.
Qed.

(** ** The traversal shared by the two queries

    Both query loops pop a range, scan it when it is a leaf, and otherwise
    test its middle position and push the children the pruning tests let
    through.  The traversal of a k-d ordered range is analysed once, for any
    loop with these two steps. *)

Section Traversal.

Variable bush : KDBush A.
Variable loop : nat -> list Z -> list Z -> outcome (list Z).
Variable test : Z -> bool.
Variables goLeft goRight : Z -> Z -> bool.

Hypothesis Hsize : -1 <= NodeSize bush.

Hypothesis loop_leaf : forall fuel axis right left stack result,
  right - left <= NodeSize bush -> 0 <= left -> right < len (Idxs bush) ->
  loop (S fuel) (axis :: right :: left :: stack) result
  = loop fuel stack
      (result ++ (idxAt (Idxs bush) <$>
                    List.filter test (seqZ left (right - left + 1)))).

Hypothesis loop_node : forall fuel axis right left stack result,
  NodeSize bush < right - left -> 0 <= left <= right ->
  right < len (Idxs bush) -> 0 <= axis <= 1 ->
  loop (S fuel) (axis :: right :: left :: stack) result
  = loop fuel (children goLeft goRight axis left right stack)
      (result ++ (if test ((left + right) / 2)
                  then [idxAt (Idxs bush) ((left + right) / 2)] else [])).

Lemma elem_of_filter_seqZ (f : Z -> bool) l n p :
  p ∈ List.filter f (seqZ l n) <-> l <= p < l + n /\ f p = true.
Proof.
  rewrite list_elem_of_In, List.filter_In, <- list_elem_of_In, elem_of_seqZ.
  reflexivity.
Qed.

Lemma NoDup_filter_seqZ (f : Z -> bool) l n : NoDup (List.filter f (seqZ l n)).
Proof.
  apply NoDup_ListNoDup, List.NoDup_filter, NoDup_ListNoDup, NoDup_seqZ.
Qed.

Lemma traverse_tree left right depth :
  kdtree (NodeSize bush) (Coords bush) left right depth ->
  0 <= left -> right < len (Idxs bush) ->
  exists (n : nat) (poss : list Z),
    (1 <= n <= 2 * Z.to_nat (right - left + 1) + 1)%nat /\
    (forall fuel stack result,
       loop (n + fuel) (depth mod 2 :: right :: left :: stack) result
       = loop fuel stack (result ++ (idxAt (Idxs bush) <$> poss))) /\
    NoDup poss /\
    (forall p, p ∈ poss -> left <= p <= right /\ test p = true) /\
    ((forall axis m p, 0 <= axis <= 1 -> 0 <= p < len (Idxs bush) ->
        test p = true ->
        (key (Coords bush) axis p <= key (Coords bush) axis m)%Q ->
        goLeft axis m = true) ->
     (forall axis m p, 0 <= axis <= 1 -> 0 <= p < len (Idxs bush) ->
        test p = true ->
        (key (Coords bush) axis m <= key (Coords bush) axis p)%Q ->
        goRight axis m = true) ->
     forall p, left <= p <= right -> test p = true -> p ∈ poss).
Proof.
  intros Hkd.
  induction Hkd as [l r d Hleaf|l r d Hnode Hlo Hhi _ IHl _ IHr]; intros Hl Hr.
  - (* a leaf is scanned *)
    exists 1%nat, (List.filter test (seqZ l (r - l + 1))).
    split; [lia|]. split.
    { intros fuel stack result. apply loop_leaf; assumption. }
    split; [apply NoDup_filter_seqZ|]. split.
    + intros p Hp. apply elem_of_filter_seqZ in Hp. split; [lia|tauto].
    + intros _ _ p Hp Ht. apply elem_of_filter_seqZ. split; [lia|exact Ht].
  - (* an inner node: its middle position, then the children let through *)
    pose proof (axis_range d) as Hax.
    remember ((l + r) / 2) as m eqn:Em.
    assert (Hm : l <= m <= r).
    { subst m. split; [apply Z.div_le_lower_bound|apply Z.div_le_upper_bound]; lia. }
    destruct (IHl ltac:(lia) ltac:(lia))
      as (nL & possL & HnL & HrunL & HndL & HsndL & HcplL).
    destruct (IHr ltac:(lia) ltac:(lia))
      as (nR & possR & HnR & HrunR & HndR & HsndR & HcplR).
    set (a := d mod 2) in *.
    exists (S ((if goRight a m then nR else 0) + (if goLeft a m then nL else 0)))%nat,
           ((if test m then [m] else [])
            ++ (if goRight a m then possR else [])
            ++ (if goLeft a m then possL else [])).
    assert (Hnext : (a + 1) mod 2 = (d + 1) mod 2).
    { unfold a. apply Zplus_mod_idemp_l. }
    split; [destruct (goRight a m), (goLeft a m); lia|].
    split.
    { intros fuel stack result. cbn [Nat.add].
      rewrite loop_node by (auto; lia).
      unfold children. rewrite <- Em, Hnext.
      rewrite !fmap_app.
      replace (if test m then [idxAt (Idxs bush) m] else [])
        with (idxAt (Idxs bush) <$> (if test m then [m] else []))
        by (destruct (test m); reflexivity).
      destruct (goRight a m), (goLeft a m); cbn [Nat.add].
      - rewrite <- Nat.add_assoc, HrunR, HrunL. rewrite <- !app_assoc. reflexivity.
      - rewrite Nat.add_0_r, HrunR. rewrite fmap_nil, app_nil_r, <- !app_assoc.
        reflexivity.
      - rewrite HrunL. rewrite fmap_nil, <- !app_assoc. reflexivity.
      - rewrite !fmap_nil, !app_nil_r. reflexivity. }
    assert (HinM : forall p, p ∈ (if test m then [m] else []) -> p = m /\ test m = true).
    { intros p Hp. destruct (test m) eqn:E.
      - apply list_elem_of_singleton in Hp. split; [exact Hp|reflexivity].
      - apply elem_of_nil in Hp. contradiction. }
    assert (HinR : forall p, p ∈ (if goRight a m then possR else []) ->
                             m + 1 <= p <= r /\ test p = true).
    { intros p Hp. destruct (goRight a m).
      - apply HsndR. exact Hp.
      - apply elem_of_nil in Hp. contradiction. }
    assert (HinL : forall p, p ∈ (if goLeft a m then possL else []) ->
                             l <= p <= m - 1 /\ test p = true).
    { intros p Hp. destruct (goLeft a m).
      - apply HsndL. exact Hp.
      - apply elem_of_nil in Hp. contradiction. }
    split.
    { apply NoDup_app. split; [|split].
      - destruct (test m); [apply NoDup_singleton|apply NoDup_nil_2].
      - intros p Hp Hp'. apply HinM in Hp. destruct Hp as [-> _].
        apply elem_of_app in Hp'. destruct Hp' as [Hp'|Hp'].
        + apply HinR in Hp'. lia.
        + apply HinL in Hp'. lia.
      - apply NoDup_app. split; [|split].
        + destruct (goRight a m); [exact HndR|apply NoDup_nil_2].
        + intros p Hp Hp'. apply HinR in Hp. apply HinL in Hp'. lia.
        + destruct (goLeft a m); [exact HndL|apply NoDup_nil_2]. }
    split.
    { intros p Hp. apply elem_of_app in Hp. destruct Hp as [Hp|Hp].
      - apply HinM in Hp. destruct Hp as [-> Ht]. split; [lia|exact Ht].
      - apply elem_of_app in Hp. destruct Hp as [Hp|Hp].
        + apply HinR in Hp. split; [lia|tauto].
        + apply HinL in Hp. split; [lia|tauto]. }
    intros HgoL HgoR p Hp Ht.
    rewrite !elem_of_app.
    destruct (Z.lt_trichotomy p m) as [Hlt|[->|Hgt]].
    + right. right.
      rewrite (HgoL a m p Hax ltac:(lia) Ht) by (apply Hlo; lia).
      apply HcplL; auto. lia.
    + left. rewrite Ht. apply list_elem_of_singleton. reflexivity.
    + right. left.
      rewrite (HgoR a m p Hax ltac:(lia) Ht) by (apply Hhi; lia).
      apply HcplR; auto. lia.
Qed.

(** Running the whole loop from the root range. *)
Lemma traverse_root fuel :
  kdtree (NodeSize bush) (Coords bush) 0 (len (Idxs bush) - 1) 0 ->
  (forall fuel' result, loop (S fuel') [] result = Ok result) ->
  (queryFuel bush <= fuel)%nat ->
  exists poss,
    loop fuel [0; len (Idxs bush) - 1; 0] [] = Ok (idxAt (Idxs bush) <$> poss) /\
    NoDup poss /\
    (forall p, p ∈ poss -> 0 <= p < len (Idxs bush) /\ test p = true) /\
    ((forall axis m p, 0 <= axis <= 1 -> 0 <= p < len (Idxs bush) ->
        test p = true ->
        (key (Coords bush) axis p <= key (Coords bush) axis m)%Q ->
        goLeft axis m = true) ->
     (forall axis m p, 0 <= axis <= 1 -> 0 <= p < len (Idxs bush) ->
        test p = true ->
        (key (Coords bush) axis m <= key (Coords bush) axis p)%Q ->
        goRight axis m = true) ->
     forall p, 0 <= p < len (Idxs bush) -> test p = true -> p ∈ poss).
Proof.
  intros Hkd Hstop Hfuel. unfold queryFuel in Hfuel.
  destruct (traverse_tree 0 (len (Idxs bush) - 1) 0 Hkd ltac:(lia) ltac:(lia))
    as (n & poss & Hn & Hrun & Hnd & Hsnd & Hcpl).
  exists poss. split; [|split; [exact Hnd|split]].
  - assert (Hbound : (n <= 2 * length (Idxs bush) + 1)%nat) by (unfold len in Hn; lia).
    replace fuel with (n + S (fuel - n - 1))%nat by lia.
    change (0 mod 2) with 0 in Hrun.
    rewrite Hrun, Hstop. reflexivity.
  - intros p Hp. destruct (Hsnd p Hp). split; [lia|assumption].
  - intros HgoL HgoR p Hp Ht. apply Hcpl; auto. lia.
Qed.

End Traversal.

(** ** From positions of the index to original positions *)

Lemma built_result_sound points nodeSize (bush : KDBush A) (T : Q * Q -> bool) (poss : list Z) :
  built points nodeSize bush -> NoDup poss ->
  (forall p, p ∈ poss ->
     0 <= p < len (Idxs bush) /\ T (item (Idxs bush) (Coords bush) p).2 = true) ->
  NoDup (idxAt (Idxs bush) <$> poss) /\
  forall i, i ∈ idxAt (Idxs bush) <$> poss ->
    0 <= i < len points /\ T (coordsOf points i) = true.
Proof.
  intros (_ & _ & _ & Hlen & _ & f & g & (Hf & Hg & _) & Hit) Hnd Hsnd.
  assert (Hidx : forall p, 0 <= p < len points -> idxAt (Idxs bush) p = f p).
  { intros p Hp. change (idxAt (Idxs bush) p) with (item (Idxs bush) (Coords bush) p).1.
    rewrite Hit by exact Hp. reflexivity. }
  split.
  - apply NoDup_fmap_2_strong; [|exact Hnd].
    intros x y Hx Hy E.
    destruct (Hsnd x Hx) as [Hxr _]. destruct (Hsnd y Hy) as [Hyr _].
    rewrite !Hidx in E by lia.
    destruct (Hf x ltac:(lia)) as [_ Ex]. destruct (Hf y ltac:(lia)) as [_ Ey].
    congruence.
  - intros i Hi. apply list_elem_of_fmap in Hi. destruct Hi as (p & -> & Hp).
    destruct (Hsnd p Hp) as [Hpr Ht].
    rewrite Hidx by lia. rewrite Hit in Ht by lia.
    destruct (Hf p ltac:(lia)) as [Hr _]. split; [lia|exact Ht].
Qed.

Lemma built_result_complete points nodeSize (bush : KDBush A) (T : Q * Q -> bool) (poss : list Z) :
  built points nodeSize bush ->
  (forall p, 0 <= p < len (Idxs bush) ->
     T (item (Idxs bush) (Coords bush) p).2 = true -> p ∈ poss) ->
  forall i, 0 <= i < len points -> T (coordsOf points i) = true ->
    i ∈ idxAt (Idxs bush) <$> poss.
Proof.
  intros (_ & _ & _ & Hlen & _ & f & g & (Hf & Hg & _) & Hit) Hcpl i Hi Ht.
  destruct (Hg i ltac:(lia)) as [Hr E].
  apply list_elem_of_fmap. exists (g i). split.
  - change (idxAt (Idxs bush) (g i)) with (item (Idxs bush) (Coords bush) (g i)).1.
    rewrite Hit by lia. simpl. symmetry. exact E.
  - apply Hcpl; [lia|]. rewrite Hit by lia. simpl. rewrite E. exact Ht.
Qed.

Lemma built_result_perm points nodeSize (bush : KDBush A) (T : Q * Q -> bool) (poss : list Z) :
  built points nodeSize bush -> NoDup poss ->
  (forall p, p ∈ poss ->
     0 <= p < len (Idxs bush) /\ T (item (Idxs bush) (Coords bush) p).2 = true) ->
  (forall p, 0 <= p < len (Idxs bush) ->
     T (item (Idxs bush) (Coords bush) p).2 = true -> p ∈ poss) ->
  idxAt (Idxs bush) <$> poss
  ≡ₚ List.filter (fun i => T (coordsOf points i)) (seqZ 0 (len points)).
Proof.
  intros Hb Hnd Hsnd Hcpl.
  destruct (built_result_sound points nodeSize bush T poss Hb Hnd Hsnd) as [Hnd' Hs].
  apply NoDup_Permutation; [exact Hnd'|apply NoDup_filter_seqZ|].
  intros i. rewrite elem_of_filter_seqZ. split.
  - intros Hi. destruct (Hs i Hi). split; [lia|assumption].
  - intros [Hi Ht]. eapply built_result_complete; eauto; lia.
Qed.

(** ** The two queries on a built index *)

Lemma inBox_bounds minX minY maxX maxY xy :
  inBox minX minY maxX maxY xy = true <->
  (minX <= xy.1)%Q /\ (xy.1 <= maxX)%Q /\ (minY <= xy.2)%Q /\ (xy.2 <= maxY)%Q.
Proof.
  unfold inBox. rewrite !andb_true_iff, !Qleb_le. tauto.
Qed.

Lemma Range_positions (bush : KDBush A) minX minY maxX maxY fuel :
  lockstep (Idxs bush) (Coords bush) -> -1 <= NodeSize bush ->
  kdtree (NodeSize bush) (Coords bush) 0 (len (Idxs bush) - 1) 0 ->
  (queryFuel bush <= fuel)%nat ->
  exists poss,
    Range fuel bush minX minY maxX maxY = Ok (idxAt (Idxs bush) <$> poss) /\
    NoDup poss /\
    (forall p, p ∈ poss ->
       0 <= p < len (Idxs bush) /\ boxTest bush minX minY maxX maxY p = true) /\
    (forall p, 0 <= p < len (Idxs bush) ->
       boxTest bush minX minY maxX maxY p = true -> p ∈ poss).
Proof.
  intros HL Hns Hkd Hfuel.
  destruct (traverse_root bush
              (fun fuel stack result =>
                 range_loop fuel bush minX minY maxX maxY stack result)
              (boxTest bush minX minY maxX maxY)
              (rangeGoLeft bush minX minY) (rangeGoRight bush maxX maxY) Hns
              (fun fuel axis right left stack result =>
                 range_loop_leaf bush minX minY maxX maxY fuel axis right left
                   stack result HL)
              (fun fuel axis right left stack result =>
                 range_loop_node bush minX minY maxX maxY fuel axis right left
                   stack result HL)
              fuel Hkd (fun fuel' result => eq_refl) Hfuel)
    as (poss & Hrun & Hnd & Hsnd & Hcpl).
  exists poss. split; [exact Hrun|]. split; [exact Hnd|]. split; [exact Hsnd|].
  apply Hcpl.
  - intros axis m p Hax _ Ht Hle. unfold rangeGoLeft. apply Qleb_le.
    apply inBox_bounds in Ht. destruct Ht as (Hx1 & Hx2 & Hy1 & Hy2).
    rewrite (key_item (Idxs bush) _ _ p) in Hle by exact Hax.
    destruct (axis =? 0); eapply Qle_trans; eauto.
  - intros axis m p Hax _ Ht Hle. unfold rangeGoRight. apply Qleb_le.
    apply inBox_bounds in Ht. destruct Ht as (Hx1 & Hx2 & Hy1 & Hy2).
    rewrite (key_item (Idxs bush) _ _ p) in Hle by exact Hax.
    destruct (axis =? 0); eapply Qle_trans; eauto.
Qed.

Lemma Range_correct points nodeSize (bush : KDBush A) minX minY maxX maxY fuel :
  built points nodeSize bush -> -1 <= nodeSize -> (queryFuel bush <= fuel)%nat ->
  exists res,
    Range fuel bush minX minY maxX maxY = Ok res /\
    res ≡ₚ bruteRange points minX minY maxX maxY.
Proof.
  intros Hb Hns Hfuel.
  pose proof Hb as (HN & _ & HL & Hlen & Hkd & _).
  destruct (Range_positions bush minX minY maxX maxY fuel)
    as (poss & Hrun & Hnd & Hsnd & Hcpl); auto; try (rewrite ?HN, ?Hlen; auto).
  exists (idxAt (Idxs bush) <$> poss). split; [exact Hrun|].
  apply (built_result_perm points nodeSize bush (inBox minX minY maxX maxY));
    assumption.
Qed.

Lemma inDisc_bound qx qy radius xy :
  inDisc qx qy radius xy = true <->
  ((xy.1 - qx) * (xy.1 - qx) + (xy.2 - qy) * (xy.2 - qy) <= radius * radius)%Q.
Proof. unfold inDisc. apply Qleb_le. Qed.

Lemma square_bound_lo (d e r : Q) :
  (0 <= r)%Q -> (d * d + e * e <= r * r)%Q -> (- r <= d)%Q.
Proof.
  intros Hr Hd.
  assert (He : (0 <= e * e)%Q) by nra.
  destruct (Qlt_le_dec d (- r)) as [Hlt|Hge]; [|exact Hge].
  exfalso.
  assert (0 < (- r - d) * (r - d))%Q by (apply Qmult_lt_0_compat; lra).
  nra.
Qed.

Lemma square_bound_hi (d e r : Q) :
  (0 <= r)%Q -> (d * d + e * e <= r * r)%Q -> (d <= r)%Q.
Proof.
  intros Hr Hd.
  assert (He : (0 <= e * e)%Q) by nra.
  destruct (Qlt_le_dec r d) as [Hlt|Hge]; [|exact Hge].
  exfalso.
  assert (0 < (d - r) * (d + r))%Q by (apply Qmult_lt_0_compat; lra).
  nra.
Qed.

(** A point of the disc lies in the square around it. *)
Lemma disc_in_square (qx qy radius x y : Q) :
  (0 <= radius)%Q ->
  ((x - qx) * (x - qx) + (y - qy) * (y - qy) <= radius * radius)%Q ->
  (qx - radius <= x)%Q /\ (x <= qx + radius)%Q /\
  (qy - radius <= y)%Q /\ (y <= qy + radius)%Q.
Proof.
  intros Hr Hd.
  pose proof (square_bound_lo (x - qx) (y - qy) radius Hr Hd) as H1.
  pose proof (square_bound_hi (x - qx) (y - qy) radius Hr Hd) as H2.
  assert (Hd' : ((y - qy) * (y - qy) + (x - qx) * (x - qx) <= radius * radius)%Q)
    by lra.
  pose proof (square_bound_lo (y - qy) (x - qx) radius Hr Hd') as H3.
  pose proof (square_bound_hi (y - qy) (x - qx) radius Hr Hd') as H4.
  repeat split; lra.
Qed.


(** ** Further consequences used by the main theorems *)

Lemma permuted_items l r I1 C1 I2 C2 :
  permuted l r I1 C1 I2 C2 ->
  item I2 C2 <$> seqZ l (r - l + 1) ≡ₚ item I1 C1 <$> seqZ l (r - l + 1).
Proof.
  intros (_ & _ & f & g & Hb & Hit).
  rewrite <- (bijOn_seqZ l r f g Hb) at 2.
  rewrite <- list_fmap_compose.
  erewrite list_fmap_ext; [reflexivity|].
  intros i x _. simpl. apply Hit.
Qed.

Lemma lookup_idxAt (Idxs : list Z) (i : nat) v :
  Idxs !! i = Some v -> idxAt Idxs (Z.of_nat i) = v.
Proof.
  intros Hv. unfold idxAt. destruct (Z.leb_spec 0 (Z.of_nat i)); [|lia].
  rewrite Nat2Z.id, Hv. reflexivity.
Qed.

Lemma coordAt_lookup (Coords : list Q) (i : Z) :
  0 <= i < len Coords -> Coords !! Z.to_nat i = Some (coordAt Coords i).
Proof.
  unfold len, coordAt. intros Hi. destruct (Z.leb_spec 0 i); [|lia].
  destruct (lookup_lt_is_Some_2 Coords (Z.to_nat i)) as [v Hv]; [lia|].
  rewrite Hv. reflexivity.
Qed.

Lemma idxAt_seqZ (Idxs : list Z) : Idxs = idxAt Idxs <$> seqZ 0 (len Idxs).
Proof.
  apply list_eq. intros i. rewrite list_lookup_fmap.
  destruct (Idxs !! i) as [v|] eqn:Hv.
  - rewrite lookup_seqZ_lt by (apply lookup_lt_Some in Hv; unfold len; lia).
    simpl. rewrite Z.add_0_l, (lookup_idxAt _ _ _ Hv). reflexivity.
  - rewrite lookup_seqZ_ge by (apply lookup_ge_None in Hv; unfold len; lia).
    reflexivity.
Qed.

Lemma built_Idxs_perm points nodeSize (bush : KDBush A) :
  built points nodeSize bush -> Idxs bush ≡ₚ seqZ 0 (len points).
Proof.
  intros (_ & _ & _ & Hlen & _ & f & g & Hb & Hit).
  rewrite (idxAt_seqZ (Idxs bush)), Hlen.
  replace (len points) with (len points - 1 - 0 + 1) by lia.
  rewrite <- (bijOn_seqZ 0 (len points - 1) f g Hb) at 2.
  apply eq_subrelation; [typeclasses eauto|].
  apply list_fmap_ext. intros i x Hx.
  apply lookup_seqZ in Hx. destruct Hx as [-> Hx].
  change (idxAt (Idxs bush) (0 + Z.of_nat i))
    with (item (Idxs bush) (Coords bush) (0 + Z.of_nat i)).1.
  rewrite Hit by lia. reflexivity.
Qed.

Lemma coordsOf_lookup points (i : Z) :
  0 <= i < len points ->
  exists v, points !! Z.to_nat i = Some v /\ coordsOf points i = Coordinates v.
Proof.
  unfold len, coordsOf. intros Hi. destruct (Z.leb_spec 0 i); [|lia].
  destruct (lookup_lt_is_Some_2 points (Z.to_nat i)) as [v Hv]; [lia|].
  exists v. rewrite Hv. split; reflexivity.
Qed.

Lemma built_pairing points nodeSize (bush : KDBush A) (i : nat) idx :
  built points nodeSize bush -> Idxs bush !! i = Some idx ->
  exists v, points !! Z.to_nat idx = Some v /\
    Coords bush !! (2 * i)%nat = Some (Coordinates v).1 /\
    Coords bush !! (2 * i + 1)%nat = Some (Coordinates v).2.
Proof.
  intros (_ & _ & HL & Hlen & _ & f & g & (Hf & _ & _) & Hit) Hidx.
  pose proof (lookup_lt_Some _ _ _ Hidx) as Hi.
  assert (Hr : 0 <= Z.of_nat i < len points) by (unfold len in *; lia).
  specialize (Hit _ Hr). unfold item in Hit.
  rewrite (lookup_idxAt _ _ _ Hidx) in Hit.
  injection Hit as Hfi Hxy.
  destruct (Hf (Z.of_nat i) ltac:(lia)) as [Hfr _].
  destruct (coordsOf_lookup points idx ltac:(lia)) as (v & Hv & Hc).
  exists v. split; [exact Hv|].
  unfold lockstep in HL.
  rewrite <- Hfi, Hc in Hxy.
  assert (Hx : coordAt (Coords bush) (2 * Z.of_nat i) = (Coordinates v).1)
    by (rewrite <- Hxy; reflexivity).
  assert (Hy : coordAt (Coords bush) (2 * Z.of_nat i + 1) = (Coordinates v).2)
    by (rewrite <- Hxy; reflexivity).
  pose proof (coordAt_lookup (Coords bush) (2 * Z.of_nat i) ltac:(lia)) as H0.
  pose proof (coordAt_lookup (Coords bush) (2 * Z.of_nat i + 1) ltac:(lia)) as H1.
  replace (Z.to_nat (2 * Z.of_nat i)) with (2 * i)%nat in H0 by lia.
  replace (Z.to_nat (2 * Z.of_nat i + 1)) with (2 * i + 1)%nat in H1 by lia.
  rewrite H0, H1, Hx, Hy. split; reflexivity.
Qed.

(** With [nodeSize <= -2] no range is ever small enough to stop [sort]. *)
Lemma sort_never_returns nodeSize :
  nodeSize <= -2 ->
  forall fuel Idxs Coords left right depth,
    nodeSize < right - left ->
    forall r, sort fuel Idxs Coords nodeSize left right depth <> Ok r.
Proof.
  intros Hns. induction fuel as [|fuel IH]; intros Idxs Coords left right depth Hbig r.
  - discriminate.
  - rewrite sort_unfold, floor_half.
    destruct (Z.leb_spec (right - left) nodeSize); [lia|].
    destruct (sselect fuel Idxs Coords ((left + right) / 2) left right (Z.rem depth 2))
      as [[I1 C1]| |]; [|discriminate|discriminate].
    rewrite bind_Ok.
    destruct (decide (nodeSize < (left + right) / 2 - 1 - left)) as [HbigL|HsmallL].
    + pose proof (IH I1 C1 left ((left + right) / 2 - 1) (depth + 1) HbigL) as HL.
      destruct (sort fuel I1 C1 nodeSize left ((left + right) / 2 - 1) (depth + 1))
        as [[I2 C2]| |]; [|discriminate|discriminate].
      exfalso. eapply HL. reflexivity.
    + destruct (sort fuel I1 C1 nodeSize left ((left + right) / 2 - 1) (depth + 1))
        as [[I2 C2]| |]; [|discriminate|discriminate].
      rewrite bind_Ok. apply IH. lia.
Qed.

(** The queries read the arrays and the node size only. *)
Lemma bind_ext {T U : Type} (m : outcome T) (f g : T -> outcome U) :
  (forall a, f a = g a) -> (m ≫= f) = (m ≫= g).
Proof. intros E. destruct m; simpl; auto. Qed.

Lemma range_leaf_points (bush : KDBush A) points' minX minY maxX maxY :
  forall count i result,
    range_leaf count (mkKDBush (NodeSize bush) points' (Idxs bush) (Coords bush))
      minX minY maxX maxY i result
    = range_leaf count bush minX minY maxX maxY i result.
Proof.
  induction count as [|count IH]; intros i result; [reflexivity|].
  cbn [range_leaf Coords Idxs].
  do 3 (apply bind_ext; intros ?). apply IH.
Qed.

Lemma range_loop_points (bush : KDBush A) points' minX minY maxX maxY :
  forall fuel stack result,
    range_loop fuel (mkKDBush (NodeSize bush) points' (Idxs bush) (Coords bush))
      minX minY maxX maxY stack result
    = range_loop fuel bush minX minY maxX maxY stack result.
Proof.
  induction fuel as [|fuel IH]; intros stack result; [reflexivity|].
  cbn [range_loop Coords Idxs NodeSize].
  destruct (len stack >? 0); [|reflexivity].
  do 6 (apply bind_ext; intros ?).
  destruct (_ <=? _).
  - rewrite range_leaf_points. apply bind_ext; intros ?. apply IH.
  - do 3 (apply bind_ext; intros ?). apply IH.
Qed.

Lemma within_leaf_points (bush : KDBush A) points' qx qy r2 :
  forall count i result,
    within_leaf count (mkKDBush (NodeSize bush) points' (Idxs bush) (Coords bush))
      qx qy r2 i result
    = within_leaf count bush qx qy r2 i result.
Proof.
  induction count as [|count IH]; intros i result; [reflexivity|].
  cbn [within_leaf Coords Idxs].
  do 3 (apply bind_ext; intros ?). apply IH.
Qed.

Lemma within_loop_points (bush : KDBush A) points' qx qy radius r2 :
  forall fuel stack result,
    within_loop fuel (mkKDBush (NodeSize bush) points' (Idxs bush) (Coords bush))
      qx qy radius r2 stack result
    = within_loop fuel bush qx qy radius r2 stack result.
Proof.
  induction fuel as [|fuel IH]; intros stack result; [reflexivity|].
  cbn [within_loop Coords Idxs NodeSize].
  destruct (len stack >? 0); [|reflexivity].
  do 6 (apply bind_ext; intros ?).
  destruct (_ <=? _).
  - rewrite within_leaf_points. apply bind_ext; intros ?. apply IH.
  - do 3 (apply bind_ext; intros ?). apply IH.
Qed.

Lemma bruteRange_inverted points minX minY maxX maxY :
  (maxX < minX)%Q \/ (maxY < minY)%Q ->
  bruteRange points minX minY maxX maxY = [].
Proof.
  intros Hinv. unfold bruteRange.
  apply length_zero_iff_nil, filter_length_none.
  intros i _. destruct (inBox minX minY maxX maxY (coordsOf points i)) eqn:E;
    [|reflexivity].
  apply inBox_bounds in E. destruct E as (Hx1 & Hx2 & Hy1 & Hy2).
  exfalso. destruct Hinv as [Hx|Hy].
  - apply (Qlt_not_le _ _ Hx). eapply Qle_trans; eauto.
  - apply (Qlt_not_le _ _ Hy). eapply Qle_trans; eauto.
Qed.

(** ** Further facts on the helpers *)

Lemma swap_run_exchanges {T : Type} (a : list T) i j :
  0 <= i < len a -> 0 <= j < len a ->
  exists a',
    (t ← get a i; aj ← get a j; a' ← set a i aj; set a' j t) = Ok a' /\
    length a' = length a /\
    a' !! Z.to_nat i = a !! Z.to_nat j /\
    a' !! Z.to_nat j = a !! Z.to_nat i /\
    forall p : nat, p <> Z.to_nat i -> p <> Z.to_nat j -> a' !! p = a !! p.
Proof.
  intros Hi Hj.
  destruct (swap_run a i j Hi Hj) as (x & y & Hx & Hy & Hrun).
  eexists. split; [exact Hrun|]. split; [rewrite !length_insert; reflexivity|].
  pose proof (swap_lookup a i j x y ltac:(lia) ltac:(lia) Hx Hy) as Hlk.
  split; [|split].
  - rewrite (Hlk i) by lia. rewrite transp_l. reflexivity.
  - rewrite (Hlk j) by lia. rewrite transp_r. reflexivity.
  - intros p Hpi Hpj.
    rewrite <- (Nat2Z.id p), (Hlk (Z.of_nat p)) by lia.
    rewrite transp_other by lia. reflexivity.
Qed.

Lemma get_Panic {T : Type} (a : list T) i :
  ~ 0 <= i < len a -> get a i = Panic.
Proof.
  unfold len, get. intros Hi.
  destruct (Z.leb_spec 0 i); [|reflexivity].
  rewrite (proj2 (lookup_ge_None a (Z.to_nat i))) by lia. reflexivity.
Qed.

Lemma swap_run_Panic {T : Type} (a : list T) i j :
  ~ (0 <= i < len a /\ 0 <= j < len a) ->
  (t ← get a i; aj ← get a j; a' ← set a i aj; set a' j t) = Panic.
Proof.
  intros Hout.
  destruct (decide (0 <= i < len a)) as [Hi|Hi].
  - unfold len in Hi.
    destruct (lookup_lt_is_Some_2 a (Z.to_nat i)) as [x Hx]; [lia|].
    rewrite (get_Ok_lookup a i x), bind_Ok by (auto; lia).
    rewrite (get_Panic a j) by tauto. reflexivity.
  - rewrite (get_Panic a i) by exact Hi. reflexivity.
Qed.

(** Two pairs of arrays in lockstep that hold the same records are equal. *)
Lemma arrays_eq_of_items I1 C1 I2 C2 :
  lockstep I1 C1 -> lockstep I2 C2 -> length I1 = length I2 ->
  (forall p, item I1 C1 p = item I2 C2 p) -> I1 = I2 /\ C1 = C2.
Proof.
  unfold lockstep, len. intros HL1 HL2 Hlen Hit. split.
  - apply list_eq. intros n.
    destruct (decide (n < length I1)%nat) as [Hn|Hn].
    + destruct (lookup_lt_is_Some_2 I1 n Hn) as [x Hx].
      destruct (lookup_lt_is_Some_2 I2 n ltac:(lia)) as [y Hy].
      pose proof (f_equal fst (Hit (Z.of_nat n))) as E. simpl in E.
      rewrite (lookup_idxAt _ _ _ Hx), (lookup_idxAt _ _ _ Hy) in E.
      congruence.
    + rewrite (proj2 (lookup_ge_None I1 n)), (proj2 (lookup_ge_None I2 n)) by lia.
      reflexivity.
  - apply list_eq. intros n.
    destruct (decide (n < length C1)%nat) as [Hn|Hn].
    + pose proof (coordAt_lookup C1 (Z.of_nat n) ltac:(unfold len; lia)) as E1.
      pose proof (coordAt_lookup C2 (Z.of_nat n) ltac:(unfold len; lia)) as E2.
      rewrite Nat2Z.id in E1, E2. rewrite E1, E2. f_equal.
      pose proof (Hit (Z.of_nat n / 2)) as E. unfold item in E.
      injection E as _ Ex Ey.
      destruct (Z.eq_dec (Z.of_nat n mod 2) 0) as [Hev|Hodd].
      * replace (Z.of_nat n) with (2 * (Z.of_nat n / 2))
          by (pose proof (Z.div_mod (Z.of_nat n) 2 ltac:(lia)); lia).
        exact Ex.
      * replace (Z.of_nat n) with (2 * (Z.of_nat n / 2) + 1)
          by (pose proof (Z.div_mod (Z.of_nat n) 2 ltac:(lia));
              pose proof (Z.mod_pos_bound (Z.of_nat n) 2 ltac:(lia)); lia).
        exact Ey.
    + rewrite (proj2 (lookup_ge_None C1 n)), (proj2 (lookup_ge_None C2 n)) by lia.
      reflexivity.
Qed.

Lemma transp_involutive i j p : transp i j (transp i j p) = p.
Proof.
  unfold transp.
  destruct (Z.eqb_spec p i) as [->|Hpi].
  - destruct (Z.eqb_spec j i) as [->|Hji]; [reflexivity|].
    rewrite Z.eqb_refl. reflexivity.
  - destruct (Z.eqb_spec p j) as [->|Hpj].
    + rewrite Z.eqb_refl. reflexivity.
    + destruct (Z.eqb_spec p i); [lia|]. destruct (Z.eqb_spec p j); [lia|].
      reflexivity.
Qed.

Lemma fmap_filter_same (f : Z -> Z) (g g' : Z -> bool) (l : list Z) :
  (forall x, x ∈ l -> f x = x /\ g x = g' x) ->
  f <$> List.filter g l = List.filter g' l.
Proof.
  induction l as [|x l IH]; intros Hall; [reflexivity|].
  destruct (Hall x ltac:(left)) as [Hf Hg].
  cbn [List.filter]. rewrite <- Hg.
  assert (IH' : f <$> List.filter g l = List.filter g' l).
  { apply IH. intros y Hy. apply Hall. right. exact Hy. }
  destruct (g x); [rewrite fmap_cons, Hf|]; rewrite IH'; reflexivity.
Qed.

(** When the whole range fits in one leaf, [NewBush] leaves the records in
    the order of the input. *)
Lemma NewBush_single_leaf_run fuel (points : list A) nodeSize :
  len points - 1 <= nodeSize -> (1 <= fuel)%nat ->
  exists bush,
    NewBush fuel points nodeSize = Ok bush /\
    NodeSize bush = nodeSize /\
    lockstep (Idxs bush) (Coords bush) /\
    len (Idxs bush) = len points /\
    forall p, 0 <= p < len points ->
      item (Idxs bush) (Coords bush) p = (p, coordsOf points p).
Proof.
  intros Hns Hfuel. destruct fuel as [|fuel]; [lia|].
  unfold NewBush, buildIndex. cbn [NodeSize Points Idxs Coords].
  destruct (fill_spec points 0 (replicate (length points) 0)
              (replicate (2 * length points) 0%Q))
    as (I1 & C1 & Hrun1 & HlI1 & HlC1 & Hit1).
  { unfold lockstep, len. rewrite !length_replicate. lia. }
  { lia. }
  { unfold len. rewrite length_replicate. lia. }
  rewrite Hrun1, bind_Ok.
  rewrite length_replicate in HlI1. rewrite length_replicate in HlC1.
  rewrite sort_unfold.
  destruct (Z.leb_spec (len I1 - 1 - 0) nodeSize) as [_|Hbig];
    [|unfold len in *; lia].
  rewrite bind_Ok. eexists. split; [reflexivity|].
  cbn [NodeSize Idxs Coords]. split; [reflexivity|].
  split; [unfold lockstep, len; lia|]. split; [unfold len; lia|].
  intros p Hp. rewrite Hit1. case_decide; [|lia].
  do 2 f_equal. lia.
Qed.

(** The k-d order for a node size is also the k-d order for a larger one. *)
Lemma kdtree_mono nodeSize nodeSize' Coords left right depth :
  nodeSize <= nodeSize' ->
  kdtree nodeSize Coords left right depth ->
  kdtree nodeSize' Coords left right depth.
Proof.
  intros Hle Hkd.
  induction Hkd as [l r d Hleaf|l r d Hnode Hlo Hhi _ IHl _ IHr].
  - apply kd_leaf. lia.
  - destruct (decide (r - l <= nodeSize')) as [Hleaf|Hbig].
    + apply kd_leaf. exact Hleaf.
    + apply kd_node; auto. lia.
Qed.

(** ** The traversal of arrays that need not be k-d ordered *)

Section AnyArrays.

Variable bush : KDBush A.
Variable loop : nat -> list Z -> list Z -> outcome (list Z).
Variable test : Z -> bool.
Variables goLeft goRight : Z -> Z -> bool.

Hypothesis Hsize : -1 <= NodeSize bush.

Hypothesis loop_leaf : forall fuel axis right left stack result,
  right - left <= NodeSize bush -> 0 <= left -> right < len (Idxs bush) ->
  loop (S fuel) (axis :: right :: left :: stack) result
  = loop fuel stack
      (result ++ (idxAt (Idxs bush) <$>
                    List.filter test (seqZ left (right - left + 1)))).

Hypothesis loop_node : forall fuel axis right left stack result,
  NodeSize bush < right - left -> 0 <= left <= right ->
  right < len (Idxs bush) -> 0 <= axis <= 1 ->
  loop (S fuel) (axis :: right :: left :: stack) result
  = loop fuel (children goLeft goRight axis left right stack)
      (result ++ (if test ((left + right) / 2)
                  then [idxAt (Idxs bush) ((left + right) / 2)] else [])).

Lemma traverse_any (size : nat) :
  forall left right axis,
    0 <= left -> right < len (Idxs bush) -> left <= right + 1 ->
    0 <= axis <= 1 -> (Z.to_nat (right - left + 1) <= size)%nat ->
    exists (n : nat) (poss : list Z),
      (1 <= n <= 2 * Z.to_nat (right - left + 1) + 1)%nat /\
      (forall fuel stack result,
         loop (n + fuel) (axis :: right :: left :: stack) result
         = loop fuel stack (result ++ (idxAt (Idxs bush) <$> poss))) /\
      NoDup poss /\
      (forall p, p ∈ poss -> left <= p <= right /\ test p = true).
Proof.
  induction size as [|size IH]; intros l r a Hl Hr Hlr Ha Hsz.
  - exists 1%nat, (List.filter test (seqZ l (r - l + 1))).
    split; [lia|]. split.
    { intros fuel stack result. apply loop_leaf; lia. }
    split; [apply NoDup_filter_seqZ|].
    intros p Hp. apply elem_of_filter_seqZ in Hp. lia.
  - destruct (decide (r - l <= NodeSize bush)) as [Hleaf|Hnode].
    + exists 1%nat, (List.filter test (seqZ l (r - l + 1))).
      split; [lia|]. split.
      { intros fuel stack result. apply loop_leaf; lia. }
      split; [apply NoDup_filter_seqZ|].
      intros p Hp. apply elem_of_filter_seqZ in Hp. split; [lia|tauto].
    + remember ((l + r) / 2) as m eqn:Em.
      assert (Hm : l <= m <= r).
      { subst m. split; [apply Z.div_le_lower_bound|apply Z.div_le_upper_bound]; lia. }
      pose proof (Z.mod_pos_bound (a + 1) 2 ltac:(lia)) as Ha'.
      destruct (IH l (m - 1) ((a + 1) mod 2)) as (nL & possL & HnL & HrunL & HndL & HsndL);
        try lia.
      destruct (IH (m + 1) r ((a + 1) mod 2)) as (nR & possR & HnR & HrunR & HndR & HsndR);
        try lia.
      exists (S ((if goRight a m then nR else 0) + (if goLeft a m then nL else 0)))%nat,
             ((if test m then [m] else [])
              ++ (if goRight a m then possR else [])
              ++ (if goLeft a m then possL else [])).
      split; [destruct (goRight a m), (goLeft a m); lia|].
      split.
      { intros fuel stack result. cbn [Nat.add].
        rewrite loop_node by (auto; lia).
        unfold children. rewrite <- Em.
        rewrite !fmap_app.
        replace (if test m then [idxAt (Idxs bush) m] else [])
          with (idxAt (Idxs bush) <$> (if test m then [m] else []))
          by (destruct (test m); reflexivity).
        destruct (goRight a m), (goLeft a m); cbn [Nat.add].
        - rewrite <- Nat.add_assoc, HrunR, HrunL. rewrite <- !app_assoc. reflexivity.
        - rewrite Nat.add_0_r, HrunR. rewrite fmap_nil, app_nil_r, <- !app_assoc.
          reflexivity.
        - rewrite HrunL. rewrite fmap_nil, <- !app_assoc. reflexivity.
        - rewrite !fmap_nil, !app_nil_r. reflexivity. }
      assert (HinM : forall p, p ∈ (if test m then [m] else []) ->
                               p = m /\ test m = true).
      { intros p Hp. destruct (test m) eqn:E.
        - apply list_elem_of_singleton in Hp. split; [exact Hp|reflexivity].
        - apply elem_of_nil in Hp. contradiction. }
      assert (HinR : forall p, p ∈ (if goRight a m then possR else []) ->
                               m + 1 <= p <= r /\ test p = true).
      { intros p Hp. destruct (goRight a m).
        - apply HsndR. exact Hp.
        - apply elem_of_nil in Hp. contradiction. }
      assert (HinL : forall p, p ∈ (if goLeft a m then possL else []) ->
                               l <= p <= m - 1 /\ test p = true).
      { intros p Hp. destruct (goLeft a m).
        - apply HsndL. exact Hp.
        - apply elem_of_nil in Hp. contradiction. }
      split.
      { apply NoDup_app. split; [|split].
        - destruct (test m); [apply NoDup_singleton|apply NoDup_nil_2].
        - intros p Hp Hp'. apply HinM in Hp. destruct Hp as [-> _].
          apply elem_of_app in Hp'. destruct Hp' as [Hp'|Hp'].
          + apply HinR in Hp'. lia.
          + apply HinL in Hp'. lia.
        - apply NoDup_app. split; [|split].
          + destruct (goRight a m); [exact HndR|apply NoDup_nil_2].
          + intros p Hp Hp'. apply HinR in Hp. apply HinL in Hp'. lia.
          + destruct (goLeft a m); [exact HndL|apply NoDup_nil_2]. }
      intros p Hp. apply elem_of_app in Hp. destruct Hp as [Hp|Hp].
      * apply HinM in Hp. destruct Hp as [-> Ht]. split; [lia|exact Ht].
      * apply elem_of_app in Hp. destruct Hp as [Hp|Hp].
        -- apply HinR in Hp. split; [lia|tauto].
        -- apply HinL in Hp. split; [lia|tauto].
Qed.

Lemma traverse_any_root fuel :
  (forall fuel' result, loop (S fuel') [] result = Ok result) ->
  (queryFuel bush <= fuel)%nat ->
  exists poss,
    loop fuel [0; len (Idxs bush) - 1; 0] [] = Ok (idxAt (Idxs bush) <$> poss) /\
    NoDup poss /\
    (forall p, p ∈ poss -> 0 <= p < len (Idxs bush) /\ test p = true).
Proof.
  intros Hstop Hfuel. unfold queryFuel in Hfuel.
  destruct (traverse_any (length (Idxs bush)) 0 (len (Idxs bush) - 1) 0)
    as (n & poss & Hn & Hrun & Hnd & Hsnd); try (unfold len; lia).
  exists poss. split; [|split; [exact Hnd|]].
  - assert (Hbound : (n <= 2 * length (Idxs bush) + 1)%nat) by (unfold len in Hn; lia).
    replace fuel with (n + S (fuel - n - 1))%nat by lia.
    rewrite Hrun, Hstop. reflexivity.
  - intros p Hp. destruct (Hsnd p Hp). split; [lia|assumption].
Qed.

(** The same run, with the positions it appends made explicit. *)
Lemma traverse_visited (size : nat) :
  forall left right axis,
    0 <= left -> right < len (Idxs bush) -> left <= right + 1 ->
    0 <= axis <= 1 -> (Z.to_nat (right - left + 1) <= size)%nat ->
    exists n : nat,
      (1 <= n <= 2 * Z.to_nat (right - left + 1) + 1)%nat /\
      forall fuel stack result,
        loop (n + fuel) (axis :: right :: left :: stack) result
        = loop fuel stack
            (result ++ (idxAt (Idxs bush) <$>
               visited size (NodeSize bush) test goLeft goRight axis left right)).
Proof.
  induction size as [|size IH]; intros l r a Hl Hr Hlr Ha Hsz.
  - exists 1%nat. split; [lia|].
    intros fuel stack result. cbn [visited]. apply loop_leaf; lia.
  - cbn [visited].
    destruct (Z.leb_spec (r - l) (NodeSize bush)) as [Hleaf|Hnode].
    + exists 1%nat. split; [lia|].
      intros fuel stack result. apply loop_leaf; lia.
    + remember ((l + r) / 2) as m eqn:Em.
      assert (Hm : l <= m <= r).
      { subst m. split; [apply Z.div_le_lower_bound|apply Z.div_le_upper_bound]; lia. }
      pose proof (Z.mod_pos_bound (a + 1) 2 ltac:(lia)) as Ha'.
      destruct (IH l (m - 1) ((a + 1) mod 2)) as (nL & HnL & HrunL); try lia.
      destruct (IH (m + 1) r ((a + 1) mod 2)) as (nR & HnR & HrunR); try lia.
      exists (S ((if goRight a m then nR else 0) + (if goLeft a m then nL else 0)))%nat.
      split; [destruct (goRight a m), (goLeft a m); lia|].
      intros fuel stack result. cbn [Nat.add].
      rewrite loop_node by (auto; lia).
      unfold children. rewrite <- Em.
      rewrite !fmap_app.
      replace (if test m then [idxAt (Idxs bush) m] else [])
        with (idxAt (Idxs bush) <$> (if test m then [m] else []))
        by (destruct (test m); reflexivity).
      destruct (goRight a m), (goLeft a m); cbn [Nat.add].
      * rewrite <- Nat.add_assoc, HrunR, HrunL. rewrite <- !app_assoc. reflexivity.
      * rewrite Nat.add_0_r, HrunR. rewrite fmap_nil, app_nil_r, <- !app_assoc.
        reflexivity.
      * rewrite HrunL. rewrite fmap_nil, <- !app_assoc. reflexivity.
      * rewrite !fmap_nil, !app_nil_r. reflexivity.
Qed.

Lemma traverse_visited_root fuel :
  (forall fuel' result, loop (S fuel') [] result = Ok result) ->
  (queryFuel bush <= fuel)%nat ->
  loop fuel [0; len (Idxs bush) - 1; 0] []
  = Ok (idxAt (Idxs bush) <$>
          visited (length (Idxs bush)) (NodeSize bush) test goLeft goRight
            0 0 (len (Idxs bush) - 1)).
Proof.
  intros Hstop Hfuel. unfold queryFuel in Hfuel.
  destruct (traverse_visited (length (Idxs bush)) 0 (len (Idxs bush) - 1) 0)
    as (n & Hn & Hrun); try (unfold len; lia).
  assert (Hbound : (n <= 2 * length (Idxs bush) + 1)%nat) by (unfold len in Hn; lia).
  replace fuel with (n + S (fuel - n - 1))%nat by lia.
  rewrite Hrun, Hstop. reflexivity.
Qed.

End AnyArrays.

(** Pruning less visits more. *)
Lemma visited_mono nodeSize (test test' : Z -> bool)
    (goLeft goRight goLeft' goRight' : Z -> Z -> bool) :
  (forall p, test p = test' p) ->
  (forall axis m, goLeft axis m = true -> goLeft' axis m = true) ->
  (forall axis m, goRight axis m = true -> goRight' axis m = true) ->
  forall size axis left right p,
    p ∈ visited size nodeSize test goLeft goRight axis left right ->
    p ∈ visited size nodeSize test' goLeft' goRight' axis left right.
Proof.
  intros Ht HL HR.
  assert (Hleaf : forall l n, List.filter test (seqZ l n) = List.filter test' (seqZ l n)).
  { intros l n. apply List.filter_ext. exact Ht. }
  induction size as [|size IH]; intros axis left right p; cbn [visited].
  - rewrite Hleaf. auto.
  - destruct (right - left <=? nodeSize); [rewrite Hleaf; auto|].
    rewrite !elem_of_app, <- Ht. intros [Hp|[Hp|Hp]].
    + left. exact Hp.
    + right. left. destruct (goRight axis ((left + right) / 2)) eqn:E.
      * rewrite (HR _ _ E). apply IH. exact Hp.
      * apply elem_of_nil in Hp. contradiction.
    + right. right. destruct (goLeft axis ((left + right) / 2)) eqn:E.
      * rewrite (HL _ _ E). apply IH. exact Hp.
      * apply elem_of_nil in Hp. contradiction.
Qed.

(** ** The radius query *)

Lemma isExact_spec v q :
  isExact v q = true -> exists q', v = Fin q' /\ (q' == q)%Q.
Proof.
  destruct v as [| |q']; try discriminate. simpl. intros E.
  exists q'. split; [reflexivity|]. apply Qeq_bool_iff. exact E.
Qed.

Lemma exactBounds_spec qx qy radius :
  exactBounds qx qy radius = true ->
  isExact (fmul (Fin radius) (Fin radius)) (radius * radius) = true /\
  isExact (fsub (Fin qx) (Fin radius)) (qx - radius) = true /\
  isExact (fadd (Fin qx) (Fin radius)) (qx + radius) = true /\
  isExact (fsub (Fin qy) (Fin radius)) (qy - radius) = true /\
  isExact (fadd (Fin qy) (Fin radius)) (qy + radius) = true.
Proof.
  unfold exactBounds. rewrite !andb_true_iff. tauto.
Qed.

(** Where the arithmetic is exact, the test of the program is the exact
    one. *)
Lemma inDisc64_exact qx qy radius xy :
  exactBounds qx qy radius = true -> exactAt qx qy xy = true ->
  inDisc64 qx qy radius xy = inDisc qx qy radius xy.
Proof.
  intros Hb Hp. apply exactBounds_spec in Hb. destruct Hb as (Hr2 & _).
  apply isExact_spec in Hr2. destruct Hr2 as (r2 & Er2 & Hr2).
  apply isExact_spec in Hp. destruct Hp as (d2 & Ed2 & Hd2).
  unfold inDisc64, inDisc, Qleb. rewrite Er2, Ed2. cbn [fle].
  rewrite Hr2, Hd2. reflexivity.
Qed.

Lemma exactQuery_at points qx qy radius i :
  exactQuery points qx qy radius = true -> 0 <= i < len points ->
  exactAt qx qy (coordsOf points i) = true.
Proof.
  unfold exactQuery. rewrite andb_true_iff. intros [_ Hall] Hi.
  destruct (coordsOf_lookup points i Hi) as (v & Hv & ->).
  rewrite forallb_forall in Hall. apply Hall.
  apply list_elem_of_In. eapply list_elem_of_lookup_2. exact Hv.
Qed.

Lemma bruteWithin64_exact points qx qy radius :
  exactQuery points qx qy radius = true ->
  bruteWithin64 points qx qy radius = bruteWithin points qx qy radius.
Proof.
  intros He. unfold bruteWithin64, bruteWithin.
  rewrite <- (list_fmap_id (List.filter _ _)).
  apply fmap_filter_same. intros i Hi. apply elem_of_seqZ in Hi.
  split; [reflexivity|].
  apply inDisc64_exact.
  - unfold exactQuery in He. apply andb_true_iff in He. tauto.
  - eapply exactQuery_at; eauto.
Qed.

Lemma Within_positions {B : Type} `{Point B} (bush : KDBush A) (point : B)
    radius fuel :
  lockstep (Idxs bush) (Coords bush) -> -1 <= NodeSize bush ->
  kdtree (NodeSize bush) (Coords bush) 0 (len (Idxs bush) - 1) 0 ->
  (queryFuel bush <= fuel)%nat ->
  exists poss,
    Within fuel bush point radius = Ok (idxAt (Idxs bush) <$> poss) /\
    NoDup poss /\
    (forall p, p ∈ poss ->
       0 <= p < len (Idxs bush) /\
       discTest bush (Coordinates point).1 (Coordinates point).2 radius p = true) /\
    ((0 <= radius)%Q ->
     exactBounds (Coordinates point).1 (Coordinates point).2 radius = true ->
     (forall p, 0 <= p < len (Idxs bush) ->
        exactAt (Coordinates point).1 (Coordinates point).2
          (item (Idxs bush) (Coords bush) p).2 = true) ->
     forall p, 0 <= p < len (Idxs bush) ->
       discTest bush (Coordinates point).1 (Coordinates point).2 radius p = true ->
       p ∈ poss).
Proof.
  intros HL Hns Hkd Hfuel. unfold Within.
  destruct (Coordinates point) as [qx qy]. cbn [fst snd].
  destruct (traverse_root bush
              (fun fuel stack result =>
                 within_loop fuel bush qx qy radius
                   (fmul (Fin radius) (Fin radius)) stack result)
              (discTest bush qx qy radius)
              (withinGoLeft bush qx qy radius) (withinGoRight bush qx qy radius) Hns
              (fun fuel axis right left stack result =>
                 within_loop_leaf bush qx qy radius fuel axis right left
                   stack result HL)
              (fun fuel axis right left stack result =>
                 within_loop_node bush qx qy radius fuel axis right left
                   stack result HL)
              fuel Hkd (fun fuel' result => eq_refl) Hfuel)
    as (poss & Hrun & Hnd & Hsnd & Hcpl).
  exists poss. split; [exact Hrun|]. split; [exact Hnd|]. split; [exact Hsnd|].
  intros Hr Hb Hexact.
  pose proof (exactBounds_spec _ _ _ Hb) as (_ & Hxl & Hxr & Hyl & Hyr).
  apply isExact_spec in Hxl, Hxr, Hyl, Hyr.
  destruct Hxl as (xl & Exl & Hxl). destruct Hxr as (xr & Exr & Hxr).
  destruct Hyl as (yl & Eyl & Hyl). destruct Hyr as (yr & Eyr & Hyr).
  assert (Hsq : forall p, 0 <= p < len (Idxs bush) ->
            discTest bush qx qy radius p = true ->
            (qx - radius <= coordAt (Coords bush) (2 * p))%Q /\
            (coordAt (Coords bush) (2 * p) <= qx + radius)%Q /\
            (qy - radius <= coordAt (Coords bush) (2 * p + 1))%Q /\
            (coordAt (Coords bush) (2 * p + 1) <= qy + radius)%Q).
  { intros p Hp Ht. unfold discTest in Ht.
    rewrite (inDisc64_exact _ _ _ _ Hb (Hexact p Hp)) in Ht.
    apply inDisc_bound in Ht. apply (disc_in_square _ _ _ _ _ Hr Ht). }
  apply Hcpl.
  - intros axis m p Hax Hp Ht Hle. unfold withinGoLeft.
    destruct (Hsq p Hp Ht) as (Hx1 & Hx2 & Hy1 & Hy2).
    rewrite (key_item (Idxs bush) _ _ p) in Hle by exact Hax. cbn [item fst snd] in Hle.
    destruct (axis =? 0).
    + rewrite Exl. apply fle_Fin. rewrite Hxl. eapply Qle_trans; eauto.
    + rewrite Eyl. apply fle_Fin. rewrite Hyl. eapply Qle_trans; eauto.
  - intros axis m p Hax Hp Ht Hle. unfold withinGoRight, fge.
    destruct (Hsq p Hp Ht) as (Hx1 & Hx2 & Hy1 & Hy2).
    rewrite (key_item (Idxs bush) _ _ p) in Hle by exact Hax. cbn [item fst snd] in Hle.
    destruct (axis =? 0).
    + rewrite Exr. apply fle_Fin. rewrite Hxr. eapply Qle_trans; eauto.
    + rewrite Eyr. apply fle_Fin. rewrite Hyr. eapply Qle_trans; eauto.
Qed.

(** Whatever the radius, the result has no duplicate and holds only points
    that pass the test of the program. *)
Lemma Within_sound {B : Type} `{Point B} points nodeSize (bush : KDBush A)
    (point : B) radius fuel :
  built points nodeSize bush -> -1 <= nodeSize -> (queryFuel bush <= fuel)%nat ->
  exists res,
    Within fuel bush point radius = Ok res /\
    NoDup res /\
    forall i, i ∈ res ->
      0 <= i < len points /\
      inDisc64 (Coordinates point).1 (Coordinates point).2 radius (coordsOf points i)
      = true.
Proof.
  intros Hb Hns Hfuel.
  pose proof Hb as (HN & _ & HL & Hlen & Hkd & _).
  destruct (Within_positions bush point radius fuel)
    as (poss & Hrun & Hnd & Hsnd & Hcpl); auto; try (rewrite ?HN, ?Hlen; auto).
  exists (idxAt (Idxs bush) <$> poss). split; [exact Hrun|].
  apply (built_result_sound points nodeSize bush
           (inDisc64 (Coordinates point).1 (Coordinates point).2 radius)); auto.
Qed.

(** With a radius of at least 0 and exact arithmetic, the result is the
    brute-force scan. *)
Lemma Within_correct {B : Type} `{Point B} points nodeSize (bush : KDBush A)
    (point : B) radius fuel :
  built points nodeSize bush -> -1 <= nodeSize -> (queryFuel bush <= fuel)%nat ->
  (0 <= radius)%Q ->
  exactQuery points (Coordinates point).1 (Coordinates point).2 radius = true ->
  exists res,
    Within fuel bush point radius = Ok res /\
    res ≡ₚ bruteWithin points (Coordinates point).1 (Coordinates point).2 radius.
Proof.
  intros Hb Hns Hfuel Hr He.
  pose proof Hb as (HN & _ & HL & Hlen & Hkd & f & g & (Hf & _ & _) & Hit).
  destruct (Within_positions bush point radius fuel)
    as (poss & Hrun & Hnd & Hsnd & Hcpl); auto; try (rewrite ?HN, ?Hlen; auto).
  exists (idxAt (Idxs bush) <$> poss). split; [exact Hrun|].
  rewrite <- (bruteWithin64_exact points _ _ _ He).
  apply (built_result_perm points nodeSize bush
           (inDisc64 (Coordinates point).1 (Coordinates point).2 radius)); auto.
  apply Hcpl; [exact Hr| |].
  - unfold exactQuery in He. apply andb_true_iff in He. tauto.
  - intros p Hp. rewrite Hit by lia. cbn [snd].
    eapply exactQuery_at; [exact He|]. destruct (Hf p ltac:(lia)). lia.
Qed.

(** The query as the list of the positions it visits. *)
Lemma Within_visited {B : Type} `{Point B} (bush : KDBush A) (point : B)
    radius fuel :
  lockstep (Idxs bush) (Coords bush) -> -1 <= NodeSize bush ->
  (queryFuel bush <= fuel)%nat ->
  Within fuel bush point radius
  = Ok (idxAt (Idxs bush) <$>
          visited (length (Idxs bush)) (NodeSize bush)
            (discTest bush (Coordinates point).1 (Coordinates point).2 radius)
            (withinGoLeft bush (Coordinates point).1 (Coordinates point).2 radius)
            (withinGoRight bush (Coordinates point).1 (Coordinates point).2 radius)
            0 0 (len (Idxs bush) - 1)).
Proof.
  intros HL Hns Hfuel. unfold Within.
  destruct (Coordinates point) as [qx qy]. cbn [fst snd].
  apply (traverse_visited_root bush
           (fun fuel stack result =>
              within_loop fuel bush qx qy radius
                (fmul (Fin radius) (Fin radius)) stack result)
           (discTest bush qx qy radius)
           (withinGoLeft bush qx qy radius) (withinGoRight bush qx qy radius) Hns
           (fun fuel axis right left stack result =>
              within_loop_leaf bush qx qy radius fuel axis right left
                stack result HL)
           (fun fuel axis right left stack result =>
              within_loop_node bush qx qy radius fuel axis right left
                stack result HL)
           fuel (fun fuel' result => eq_refl) Hfuel).
Qed.

Lemma Qmult_opp_opp (r : Q) : (- r * - r)%Q = (r * r)%Q.
Proof.
  destruct r as [n d]. unfold Qmult, Qopp. cbn [Qnum Qden].
  f_equal. apply Z.mul_opp_opp.
Qed.

(** The square of the radius does not see its sign, and a negative radius
    prunes whatever its absolute value prunes. *)
Lemma discTest_opp (bush : KDBush A) qx qy radius p :
  discTest bush qx qy (- radius) p = discTest bush qx qy radius p.
Proof.
  unfold discTest, inDisc64. cbn [fmul]. rewrite Qmult_opp_opp. reflexivity.
Qed.

Lemma withinGoLeft_opp (bush : KDBush A) qx qy radius axis m :
  (radius < 0)%Q ->
  withinGoLeft bush qx qy radius axis m = true ->
  withinGoLeft bush qx qy (- radius) axis m = true.
Proof.
  unfold withinGoLeft, fsub. cbn [fneg fadd]. intros Hr.
  apply fle_trans. apply round64_mono. lra.
Qed.

Lemma withinGoRight_opp (bush : KDBush A) qx qy radius axis m :
  (radius < 0)%Q ->
  withinGoRight bush qx qy radius axis m = true ->
  withinGoRight bush qx qy (- radius) axis m = true.
Proof.
  unfold withinGoRight, fge. cbn [fadd]. intros Hr Hgo.
  eapply fle_trans; [exact Hgo|]. apply round64_mono. lra.
Qed.

(** * Main theorems *)

(** C1. For every point set, every node size of at least 1 and every box,
    [Range] on the index built by [NewBush] returns exactly the original
    positions [i] with [minX <= x_i <= maxX] and [minY <= y_i <= maxY], both
    ends included: the result is a rearrangement of the brute-force linear
    scan, whatever the node size. *)
Theorem Range_matches_brute_force (points : list A) nodeSize fuel :
  1 <= nodeSize -> (buildFuel points <= fuel)%nat ->
  exists bush,
    NewBush fuel points nodeSize = Ok bush /\
    forall minX minY maxX maxY fuel',
      (queryFuel bush <= fuel')%nat ->
      exists res,
        Range fuel' bush minX minY maxX maxY = Ok res /\
        res ≡ₚ bruteRange points minX minY maxX maxY /\
        forall i, i ∈ res <->
          0 <= i < len points /\
          (minX <= (coordsOf points i).1)%Q /\ ((coordsOf points i).1 <= maxX)%Q /\
          (minY <= (coordsOf points i).2)%Q /\ ((coordsOf points i).2 <= maxY)%Q.
Proof.
  intros Hns Hfuel.
  destruct (NewBush_built fuel points nodeSize ltac:(lia) Hfuel) as (bush & Hrun & Hb).
  exists bush. split; [exact Hrun|].
  intros minX minY maxX maxY fuel' Hfuel'.
  destruct (Range_correct points nodeSize bush minX minY maxX maxY fuel' Hb
              ltac:(lia) Hfuel') as (res & Hres & Hperm).
  exists res. split; [exact Hres|]. split; [exact Hperm|].
  intros i. rewrite Hperm. unfold bruteRange.
  rewrite elem_of_filter_seqZ, inBox_bounds. split; intros [Hi Hin]; (split; [lia|exact Hin]).
Qed.


(** C3. After [NewBush] with a node size of at least 1 the arrays satisfy the
    k-d partial order: from the range [0..n-1] at depth 0, a range with
    [right - left <= nodeSize] is an unordered leaf, and otherwise, with
    [m = floor((left+right)/2)] and the axis given by the parity of the depth,
    everything in [left..m-1] is at most the entry at [m], everything in
    [m+1..right] is at least it, and both sub-ranges satisfy the same at the
    next depth.  The arrays hold [n] index entries and [2n] coordinates, so
    every position of [0..n-1] the order speaks of is a position of the
    arrays. *)
Theorem NewBush_kd_order (points : list A) nodeSize fuel :
  1 <= nodeSize -> (buildFuel points <= fuel)%nat ->
  exists bush,
    NewBush fuel points nodeSize = Ok bush /\
    NodeSize bush = nodeSize /\
    length (Idxs bush) = length points /\
    length (Coords bush) = (2 * length points)%nat /\
    (forall p inc, 0 <= p < len points -> 0 <= inc <= 1 ->
       Coords bush !! Z.to_nat (2 * p + inc) = Some (key (Coords bush) inc p)) /\
    kdtree nodeSize (Coords bush) 0 (len points - 1) 0.
Proof.
  intros Hns Hfuel.
  destruct (NewBush_built fuel points nodeSize ltac:(lia) Hfuel)
    as (bush & Hrun & HN & _ & HL & Hlen & Hkd & _).
  unfold lockstep, len in HL, Hlen.
  exists bush. split; [exact Hrun|]. split; [exact HN|].
  split; [lia|]. split; [lia|]. split; [|exact Hkd].
  intros p inc Hp Hinc. unfold key. apply coordAt_lookup. unfold len in *. lia.
Qed.

(** C4. After [NewBush] with a node size of at least 1 on [n] points, [Idxs]
    has length [n] and is a permutation of [0..n-1], and for every position
    [i] the entries [Coords[2i]] and [Coords[2i+1]] are the coordinates of
    the original point number [Idxs[i]].  Every [swapItem] keeps this pairing:
    it exchanges two whole records. *)
Theorem NewBush_permutation_pairing (points : list A) nodeSize fuel :
  1 <= nodeSize -> (buildFuel points <= fuel)%nat ->
  (exists bush,
     NewBush fuel points nodeSize = Ok bush /\
     length (Idxs bush) = length points /\
     length (Coords bush) = (2 * length points)%nat /\
     Idxs bush ≡ₚ seqZ 0 (len points) /\
     forall (i : nat) idx, Idxs bush !! i = Some idx ->
       exists v, points !! Z.to_nat idx = Some v /\
         Coords bush !! (2 * i)%nat = Some (Coordinates v).1 /\
         Coords bush !! (2 * i + 1)%nat = Some (Coordinates v).2) /\
  (forall Idxs Coords i j,
     lockstep Idxs Coords -> 0 <= i < len Idxs -> 0 <= j < len Idxs ->
     exists Idxs' Coords',
       swapItem Idxs Coords i j = Ok (Idxs', Coords') /\
       lockstep Idxs' Coords' /\
       forall p, item Idxs' Coords' p = item Idxs Coords (transp i j p)).
Proof.
  intros Hns Hfuel. split.
  - destruct (NewBush_built fuel points nodeSize ltac:(lia) Hfuel) as (bush & Hrun & Hb).
    exists bush. split; [exact Hrun|].
    pose proof Hb as (_ & _ & HL & Hlen & _).
    unfold lockstep, len in HL, Hlen.
    split; [lia|]. split; [lia|].
    split; [eapply built_Idxs_perm; eauto|].
    intros i idx Hidx. eapply built_pairing; eauto.
  - intros Idxs Coords i j HL Hi Hj.
    destruct (swapItem_spec Idxs Coords i j HL Hi Hj)
      as (I' & C' & Hrun & HlI & HlC & Hit).
    exists I', C'. split; [exact Hrun|]. split; [|exact Hit].
    unfold lockstep, len in *. rewrite HlI, HlC. exact HL.
Qed.

(** C5. For arrays in lockstep, an axis [inc] in [{0,1}] and
    [0 <= left <= k <= right < len(Idxs)], [sselect] returns, having
    rearranged whole records inside [left..right] only, with the value of
    rank [k] of that range (along the axis) at position [k], everything left
    of [k] at most that value and everything right of [k] at least that
    value.  No assumption is made on the keys, so ranges with equal keys are
    covered, and the run terminates. *)
Theorem sselect_contract fuel Idxs Coords k left right inc :
  lockstep Idxs Coords -> 0 <= inc <= 1 ->
  0 <= left <= k -> k <= right < len Idxs ->
  (selectFuel left right <= fuel)%nat ->
  exists Idxs' Coords',
    sselect fuel Idxs Coords k left right inc = Ok (Idxs', Coords') /\
    lockstep Idxs' Coords' /\
    length Idxs' = length Idxs /\
    (forall p, ~ left <= p <= right -> item Idxs' Coords' p = item Idxs Coords p) /\
    item Idxs' Coords' <$> seqZ left (right - left + 1)
      ≡ₚ item Idxs Coords <$> seqZ left (right - left + 1) /\
    hasRank (keysOf Coords inc left right) (k - left) (key Coords' inc k) /\
    (forall p, left <= p < k -> (key Coords' inc p <= key Coords' inc k)%Q) /\
    (forall p, k < p <= right -> (key Coords' inc k <= key Coords' inc p)%Q).
Proof.
  intros HL Hinc Hleft Hright Hfuel.
  destruct (sselect_spec fuel Idxs Coords k left right inc)
    as (I' & C' & Hrun & HP & Hlo & Hhi); auto; try lia.
  exists I', C'. split; [exact Hrun|].
  split; [eapply permuted_lockstep; eauto|].
  split; [apply HP|].
  split; [intros p Hp; eapply permuted_outside; eauto|].
  split; [apply permuted_items; exact HP|].
  split.
  - eapply hasRank_perm; [apply (permuted_keysOf _ _ _ _ _ _ inc Hinc HP)|].
    apply split_hasRank; auto. lia.
  - split; intros p Hp; [apply Hlo|apply Hhi]; lia.
Qed.

(** C6 (as the code has it). [NewBush] neither rejects nor clamps a node size
    of 0 or less: the value is handed to the recursive [sort] and stored in
    [NodeSize] unchanged.  With 0 or -1 construction still returns an index;
    with -2 or less it never returns one. *)
Theorem NewBush_keeps_nodeSize (points : list A) nodeSize :
  nodeSize <= 0 ->
  (forall fuel,
     NewBush fuel points nodeSize
     = ('(Idxs, Coords) ← fill points 0 (replicate (length points) 0)
                            (replicate (2 * length points) 0%Q);
        '(Idxs, Coords) ← sort fuel Idxs Coords nodeSize 0 (len Idxs - 1) 0;
        Ok (mkKDBush nodeSize points Idxs Coords))) /\
  (forall fuel bush, NewBush fuel points nodeSize = Ok bush ->
     NodeSize bush = nodeSize) /\
  (-1 <= nodeSize -> forall fuel, (buildFuel points <= fuel)%nat ->
     exists bush, NewBush fuel points nodeSize = Ok bush /\ NodeSize bush = nodeSize) /\
  (nodeSize <= -2 -> forall fuel bush, NewBush fuel points nodeSize <> Ok bush).
Proof.
  intros Hns. split; [reflexivity|]. split; [|split].
  - intros fuel bush. unfold NewBush, buildIndex. cbn [NodeSize Points Idxs Coords].
    destruct (fill _ _ _ _) as [[I1 C1]| |]; [|discriminate|discriminate].
    rewrite bind_Ok.
    destruct (sort _ _ _ _ _ _ _) as [[I2 C2]| |]; [|discriminate|discriminate].
    rewrite bind_Ok. intros E. injection E as <-. reflexivity.
  - intros Hge fuel Hfuel.
    destruct (NewBush_built fuel points nodeSize Hge Hfuel)
      as (bush & Hrun & HN & _).
    exists bush. split; [exact Hrun|exact HN].
  - intros Hle fuel bush. unfold NewBush, buildIndex.
    cbn [NodeSize Points Idxs Coords].
    destruct (fill _ _ _ _) as [[I1 C1]| |]; [|discriminate|discriminate].
    rewrite bind_Ok.
    pose proof (sort_never_returns nodeSize Hle fuel I1 C1 0 (len I1 - 1) 0) as Hnever.
    destruct (sort _ _ _ _ _ _ _) as [[I2 C2]| |]; [|discriminate|discriminate].
    exfalso. eapply Hnever; [unfold len; lia|reflexivity].
Qed.

(** C7 (as the code has it). For every built index and every query point,
    [Within] called with a negative radius returns without error a list with
    no duplicate, of original positions [i] that all pass the test the
    program computes in [float64],
    [sqrtDist(x_i, y_i, qx, qy) <= radius * radius] with every operation
    rounded; the radius enters that test through its square only.  The list
    need not be empty. *)
Theorem Within_negative_radius {B : Type} `{Point B}
    (points : list A) nodeSize fuel :
  1 <= nodeSize -> (buildFuel points <= fuel)%nat ->
  exists bush,
    NewBush fuel points nodeSize = Ok bush /\
    forall (point : B) radius fuel',
      (radius < 0)%Q -> (queryFuel bush <= fuel')%nat ->
      exists res,
        Within fuel' bush point radius = Ok res /\
        NoDup res /\
        forall i, i ∈ res ->
          0 <= i < len points /\
          fle (sqrtDist (Fin (coordsOf points i).1) (Fin (coordsOf points i).2)
                 (Fin (Coordinates point).1) (Fin (Coordinates point).2))
              (fmul (Fin radius) (Fin radius)) = true.
Proof.
  intros Hns Hfuel.
  destruct (NewBush_built fuel points nodeSize ltac:(lia) Hfuel) as (bush & Hrun & Hb).
  exists bush. split; [exact Hrun|].
  intros point radius fuel' _ Hfuel'.
  destruct (Within_sound points nodeSize bush point radius fuel' Hb
              ltac:(lia) Hfuel') as (res & Hres & Hnd & Hin).
  exists res. split; [exact Hres|]. split; [exact Hnd|exact Hin].
Qed.

(** C8 (as the code has it). After [NewBush] returns, the state of the index
    is the node size, the extracted coordinates, the original-position
    mapping and, in its field [Points], the point sequence the caller
    supplied; the queries never read that field. *)
Theorem NewBush_keeps_points (points : list A) nodeSize fuel :
  1 <= nodeSize -> (buildFuel points <= fuel)%nat ->
  exists bush,
    NewBush fuel points nodeSize = Ok bush /\
    Points bush = points /\
    forall (points' : list A) fuel',
      (forall minX minY maxX maxY,
         Range fuel' (mkKDBush (NodeSize bush) points' (Idxs bush) (Coords bush))
           minX minY maxX maxY
         = Range fuel' bush minX minY maxX maxY) /\
      (forall (B : Type) (HB : Point B) (point : B) radius,
         Within fuel' (mkKDBush (NodeSize bush) points' (Idxs bush) (Coords bush))
           point radius
         = Within fuel' bush point radius).
Proof.
  intros Hns Hfuel.
  destruct (NewBush_built fuel points nodeSize ltac:(lia) Hfuel)
    as (bush & Hrun & _ & HP & _).
  exists bush. split; [exact Hrun|]. split; [exact HP|].
  intros points' fuel'. split.
  - intros minX minY maxX maxY. unfold Range. cbn [Idxs].
    apply range_loop_points.
  - intros B HB point radius. unfold Within. cbn [Idxs].
    destruct (Coordinates point) as [qx qy]. apply within_loop_points.
Qed.

(** C9. [NewBush] on the empty point sequence, with any node size of at least
    1, succeeds with empty [Idxs] and [Coords], and on that index [Range],
    for every box, and [Within], for every query point and radius, return
    the empty result without error. *)
Theorem empty_index nodeSize fuel fuel' :
  1 <= nodeSize -> (1 <= fuel)%nat -> (2 <= fuel')%nat ->
  NewBush fuel ([] : list A) nodeSize = Ok (mkKDBush nodeSize [] [] []) /\
  (forall minX minY maxX maxY,
     Range fuel' (mkKDBush nodeSize ([] : list A) [] []) minX minY maxX maxY
     = Ok []) /\
  (forall (B : Type) (HB : Point B) (point : B) radius,
     Within fuel' (mkKDBush nodeSize ([] : list A) [] []) point radius = Ok []).
Proof.
  intros Hns Hfuel Hfuel'.
  destruct fuel as [|fuel]; [lia|].
  destruct fuel' as [|[|fuel']]; [lia|lia|].
  split; [|split].
  - unfold NewBush, buildIndex. cbn [NodeSize Points Idxs Coords length fill].
    rewrite bind_Ok. cbn [sort].
    change (len (replicate 0 0) - 1 - 0) with (-1).
    destruct (Z.leb_spec (-1) nodeSize); [|lia]. reflexivity.
  - intros minX minY maxX maxY. unfold Range. cbn [Idxs].
    change (push (push (push [] 0) (len [] - 1)) 0) with [0; -1; 0].
    cbn [range_loop]. rewrite len_cons_pos. pop_stack. cbn [NodeSize].
    change (-1 - 0) with (-1).
    destruct (Z.leb_spec (-1) nodeSize); [|lia]. reflexivity.
  - intros B HB point radius. unfold Within. cbn [Idxs].
    destruct (Coordinates point) as [qx qy].
    change (push (push (push [] 0) (len [] - 1)) 0) with [0; -1; 0].
    cbn [within_loop]. rewrite len_cons_pos. pop_stack. cbn [NodeSize].
    change (-1 - 0) with (-1).
    destruct (Z.leb_spec (-1) nodeSize); [|lia]. reflexivity.
Qed.

(** C10. For every index built with a node size of at least 1 and every box
    with [minX > maxX] or [minY > maxY], [Range] returns exactly the empty
    sequence. *)
Theorem Range_inverted_box (points : list A) nodeSize fuel :
  1 <= nodeSize -> (buildFuel points <= fuel)%nat ->
  exists bush,
    NewBush fuel points nodeSize = Ok bush /\
    forall minX minY maxX maxY fuel',
      (maxX < minX)%Q \/ (maxY < minY)%Q ->
      (queryFuel bush <= fuel')%nat ->
      Range fuel' bush minX minY maxX maxY = Ok [].
Proof.
  intros Hns Hfuel.
  destruct (NewBush_built fuel points nodeSize ltac:(lia) Hfuel) as (bush & Hrun & Hb).
  exists bush. split; [exact Hrun|].
  intros minX minY maxX maxY fuel' Hinv Hfuel'.
  destruct (Range_correct points nodeSize bush minX minY maxX maxY fuel' Hb
              ltac:(lia) Hfuel') as (res & Hres & Hperm).
  rewrite (bruteRange_inverted points _ _ _ _ Hinv) in Hperm.
  apply Permutation_nil_r in Hperm. subst res. exact Hres.
Qed.

(** * Further properties of the code *)

(** X1. [swapf] with both positions inside the slice returns the slice with
    the two entries exchanged, every other entry and the length unchanged. *)
Theorem swapf_exchanges (a : list Q) i j :
  0 <= i < len a -> 0 <= j < len a ->
  exists a',
    swapf a i j = Ok a' /\
    length a' = length a /\
    a' !! Z.to_nat i = a !! Z.to_nat j /\
    a' !! Z.to_nat j = a !! Z.to_nat i /\
    forall p : nat, p <> Z.to_nat i -> p <> Z.to_nat j -> a' !! p = a !! p.
Proof. apply swap_run_exchanges. Qed.

(** X2. [swapi] with both positions inside the slice returns the slice with
    the two entries exchanged, every other entry and the length unchanged. *)
Theorem swapi_exchanges (a : list Z) i j :
  0 <= i < len a -> 0 <= j < len a ->
  exists a',
    swapi a i j = Ok a' /\
    length a' = length a /\
    a' !! Z.to_nat i = a !! Z.to_nat j /\
    a' !! Z.to_nat j = a !! Z.to_nat i /\
    forall p : nat, p <> Z.to_nat i -> p <> Z.to_nat j -> a' !! p = a !! p.
Proof. apply swap_run_exchanges. Qed.

(** X3. [swapItem] panics as soon as one of the two positions is outside
    [Idxs]: the index array is the first one it reads. *)
Theorem swapItem_out_of_range Idxs Coords i j :
  ~ (0 <= i < len Idxs /\ 0 <= j < len Idxs) ->
  swapItem Idxs Coords i j = Panic.
Proof.
  intros Hout. unfold swapItem, swapi.
  rewrite (swap_run_Panic Idxs i j Hout). reflexivity.
Qed.

(** X4. Exchanging the same two records twice gives back both arrays. *)
Theorem swapItem_twice Idxs Coords i j :
  lockstep Idxs Coords -> 0 <= i < len Idxs -> 0 <= j < len Idxs ->
  exists Idxs' Coords',
    swapItem Idxs Coords i j = Ok (Idxs', Coords') /\
    swapItem Idxs' Coords' i j = Ok (Idxs, Coords).
Proof.
  intros HL Hi Hj.
  destruct (swapItem_spec Idxs Coords i j HL Hi Hj)
    as (I1 & C1 & Hrun1 & HlI1 & HlC1 & Hit1).
  assert (HL1 : lockstep I1 C1) by (unfold lockstep, len in *; lia).
  destruct (swapItem_spec I1 C1 i j HL1 ltac:(unfold len in *; lia)
              ltac:(unfold len in *; lia))
    as (I2 & C2 & Hrun2 & HlI2 & HlC2 & Hit2).
  exists I1, C1. split; [exact Hrun1|].
  assert (HL2 : lockstep I2 C2) by (unfold lockstep, len in *; lia).
  destruct (arrays_eq_of_items I2 C2 Idxs Coords HL2 HL ltac:(lia)) as [-> ->].
  - intros p. rewrite Hit2, Hit1, transp_involutive. reflexivity.
  - exact Hrun2.
Qed.

(** X5. The bracket [iMax(left, lo)], [iMin(right, hi)] that [sselect] builds
    from the sampled bounds never leaves [left..right], whatever [lo] and
    [hi] are, and it is [lo], [hi] itself when that lies inside. *)
Theorem bracket_clamped left right lo hi :
  left <= iMax left lo /\ lo <= iMax left lo /\
  iMin right hi <= right /\ iMin right hi <= hi /\
  (left <= lo -> iMax left lo = lo) /\
  (hi <= right -> iMin right hi = hi).
Proof.
  unfold iMax, iMin.
  destruct (Z.gtb_spec left lo); destruct (Z.ltb_spec right hi);
    repeat split; intros; lia.
Qed.

(** X6. For two positions with [|left + right| <= 2^53], the conversion
    [float64(left+right)] and the division by [2.0] round nothing, and the
    middle position [floor(float64(left+right) / 2.0)] is the floored half
    of the sum, also for a negative sum; for a range that is not empty it
    lies inside the range, and strictly below [right] when the range has
    more than one position. *)
Theorem midpoint_in_range left right :
  left <= right -> - 2 ^ 53 <= left + right <= 2 ^ 53 ->
  isExact (round64 (inject_Z (left + right))) (float64 (left + right)) = true /\
  isExact (round64 (float64 (left + right) / 2)) (float64 (left + right) / 2)
  = true /\
  2 * floor (float64 (left + right) / 2) <= left + right
    <= 2 * floor (float64 (left + right) / 2) + 1 /\
  left <= floor (float64 (left + right) / 2) <= right /\
  (left < right -> floor (float64 (left + right) / 2) < right).
Proof.
  intros Hlr Hsum.
  split.
  { apply (half_integer_exact (left + right) 0); [exact Hsum|lia|].
    change (pow2 (- 0)) with 1%Q. unfold float64. symmetry. apply Qmult_1_r. }
  split.
  { apply (half_integer_exact (left + right) 1); [exact Hsum|lia|].
    change (pow2 (- (1))) with (1 # 2)%Q. unfold float64. field. }
  rewrite floor_half.
  pose proof (Z.div_mod (left + right) 2 ltac:(lia)) as Hd.
  pose proof (Z.mod_pos_bound (left + right) 2 ltac:(lia)) as Hm.
  repeat split; intros; lia.
Qed.

(** X7. [sqrtDist] of finite coordinates is never a NaN and never negative
    (it is [+Inf] when a difference, a square or the sum overflows), it does
    not depend on the order of the two points, and it is zero for a point
    and itself. *)
Theorem sqrtDist_rounded (ax ay bx by' : Q) :
  fle (Fin 0) (sqrtDist (Fin ax) (Fin ay) (Fin bx) (Fin by')) = true /\
  sqrtDist (Fin ax) (Fin ay) (Fin bx) (Fin by')
  = sqrtDist (Fin bx) (Fin by') (Fin ax) (Fin ay) /\
  sqrtDist (Fin ax) (Fin ay) (Fin ax) (Fin ay) = Fin 0.
Proof.
  unfold sqrtDist. cbv zeta. split; [|split].
  - apply fadd_nonneg; apply fmul_self_nonneg; unfold fsub; cbn [fneg fadd];
      apply round64_not_NaN.
  - rewrite (fsub_swap ax bx), (fsub_swap ay by'), !fmul_fneg_self. reflexivity.
  - unfold fsub. cbn [fneg fadd].
    rewrite (round64_zero (ax + - ax)), (round64_zero (ay + - ay)) by lra.
    reflexivity.
Qed.

(** X8. [sort] on any range of arrays in lockstep, at any depth and with a
    node size of at least -1, returns; it rearranges whole records inside the
    range only and leaves the range in k-d order. *)
Theorem sort_contract fuel Idxs Coords nodeSize left right depth :
  -1 <= nodeSize -> lockstep Idxs Coords ->
  0 <= left -> right < len Idxs -> left <= right + 1 -> 0 <= depth ->
  (sortFuel left right <= fuel)%nat ->
  exists Idxs' Coords',
    sort fuel Idxs Coords nodeSize left right depth = Ok (Idxs', Coords') /\
    lockstep Idxs' Coords' /\
    length Idxs' = length Idxs /\
    (forall p, ~ left <= p <= right -> item Idxs' Coords' p = item Idxs Coords p) /\
    item Idxs' Coords' <$> seqZ left (right - left + 1)
      ≡ₚ item Idxs Coords <$> seqZ left (right - left + 1) /\
    kdtree nodeSize Coords' left right depth.
Proof.
  intros Hns HL Hleft Hright Hlr Hdepth Hfuel.
  destruct (sort_spec nodeSize Hns fuel Idxs Coords left right depth)
    as (I' & C' & Hrun & HP & Hkd); auto.
  exists I', C'. split; [exact Hrun|].
  split; [eapply permuted_lockstep; eauto|].
  split; [apply HP|].
  split; [intros p Hp; eapply permuted_outside; eauto|].
  split; [apply permuted_items; exact HP|exact Hkd].
Qed.

(** X9. [sselect] on a range of two to 601 positions panics when [k] is not
    a position of the arrays: the pivot [Coords[2*k+inc]] is read first. *)
Theorem sselect_k_out_of_range fuel Idxs Coords k left right inc :
  lockstep Idxs Coords -> 0 <= inc <= 1 ->
  left < right -> right - left <= 600 -> ~ 0 <= k < len Idxs ->
  (1 <= fuel)%nat ->
  sselect fuel Idxs Coords k left right inc = Panic.
Proof.
  intros HL Hinc Hlr Hsmall Hk Hfuel.
  destruct fuel as [|fuel]; [lia|].
  rewrite sselect_unfold.
  destruct (Z.gtb_spec right left); [|lia].
  destruct (Z.gtb_spec (right - left) 600); [lia|].
  rewrite bind_Ok. unfold select_pass.
  rewrite (get_Panic Coords (2 * k + inc)) by (unfold lockstep in HL; lia).
  reflexivity.
Qed.

(** X10. With a node size of at least [n - 1] the whole index is one leaf:
    [NewBush] keeps the records in the order of the input, [Range] returns
    the brute-force scan itself, in that order, and [Within] returns the
    linear scan with the test the program computes in [float64],
    [sqrtDist(x_i, y_i, qx, qy) <= radius * radius], in that order. *)
Theorem NewBush_single_leaf {B : Type} `{Point B} (points : list A) nodeSize fuel :
  len points - 1 <= nodeSize -> (1 <= fuel)%nat ->
  exists bush,
    NewBush fuel points nodeSize = Ok bush /\
    Idxs bush = seqZ 0 (len points) /\
    (forall (i : nat) v, points !! i = Some v ->
       Coords bush !! (2 * i)%nat = Some (Coordinates v).1 /\
       Coords bush !! (2 * i + 1)%nat = Some (Coordinates v).2) /\
    forall fuel', (2 <= fuel')%nat ->
      (forall minX minY maxX maxY,
         Range fuel' bush minX minY maxX maxY
         = Ok (bruteRange points minX minY maxX maxY)) /\
      (forall (point : B) radius,
         Within fuel' bush point radius
         = Ok (bruteWithin64 points (Coordinates point).1 (Coordinates point).2
                 radius)).
Proof.
  intros Hns Hfuel.
  destruct (NewBush_single_leaf_run fuel points nodeSize Hns Hfuel)
    as (bush & Hrun & HN & HL & Hlen & Hit).
  exists bush. split; [exact Hrun|].
  assert (Hidx : forall p, 0 <= p < len points -> idxAt (Idxs bush) p = p).
  { intros p Hp. change (idxAt (Idxs bush) p) with (item (Idxs bush) (Coords bush) p).1.
    rewrite Hit by exact Hp. reflexivity. }
  split; [|split].
  - rewrite (idxAt_seqZ (Idxs bush)), Hlen.
    rewrite <- (list_fmap_id (seqZ 0 (len points))) at 2.
    apply list_fmap_ext. intros i x Hx.
    apply lookup_seqZ in Hx. destruct Hx as [-> Hx]. unfold id.
    apply Hidx. lia.
  - intros i v Hv.
    pose proof (lookup_lt_Some _ _ _ Hv) as Hi.
    assert (Hr : 0 <= Z.of_nat i < len points) by (unfold len; lia).
    pose proof (Hit _ Hr) as E. unfold item in E. injection E as _ Exy.
    assert (Hc : coordsOf points (Z.of_nat i) = Coordinates v).
    { unfold coordsOf. destruct (Z.leb_spec 0 (Z.of_nat i)); [|lia].
      rewrite Nat2Z.id, Hv. reflexivity. }
    rewrite Hc in Exy. unfold lockstep in HL.
    pose proof (coordAt_lookup (Coords bush) (2 * Z.of_nat i) ltac:(lia)) as Hc0.
    pose proof (coordAt_lookup (Coords bush) (2 * Z.of_nat i + 1) ltac:(lia)) as Hc1.
    replace (Z.to_nat (2 * Z.of_nat i)) with (2 * i)%nat in Hc0 by lia.
    replace (Z.to_nat (2 * Z.of_nat i + 1)) with (2 * i + 1)%nat in Hc1 by lia.
    rewrite Hc0, Hc1, <- Exy. split; reflexivity.
  - intros fuel' Hfuel'. destruct fuel' as [|[|fuel']]; [lia|lia|].
    split.
    + intros minX minY maxX maxY. unfold Range.
      change (push (push (push [] 0) (len (Idxs bush) - 1)) 0)
        with [0; len (Idxs bush) - 1; 0].
      rewrite range_loop_leaf by (auto; lia).
      cbn [range_loop app]. f_equal. unfold bruteRange.
      replace (len (Idxs bush) - 1 - 0 + 1) with (len points) by lia.
      apply fmap_filter_same. intros x Hx. apply elem_of_seqZ in Hx.
      split; [apply Hidx; lia|]. unfold boxTest. rewrite Hit by lia. reflexivity.
    + intros point radius. unfold Within.
      destruct (Coordinates point) as [qx qy]. cbn [fst snd].
      change (push (push (push [] 0) (len (Idxs bush) - 1)) 0)
        with [0; len (Idxs bush) - 1; 0].
      rewrite within_loop_leaf by (auto; lia).
      cbn [within_loop app]. f_equal. unfold bruteWithin64.
      replace (len (Idxs bush) - 1 - 0 + 1) with (len points) by lia.
      apply fmap_filter_same. intros x Hx. apply elem_of_seqZ in Hx.
      split; [apply Hidx; lia|]. unfold discTest. rewrite Hit by lia. reflexivity.
Qed.

(** X11. A node size of 0 or -1 is accepted by [NewBush], and on the index it
    builds [Range] still returns the brute-force result, and so does
    [Within] when the arithmetic of the query is exact. *)
Theorem small_nodeSize_queries {B : Type} `{Point B}
    (points : list A) nodeSize fuel :
  -1 <= nodeSize <= 0 -> (buildFuel points <= fuel)%nat ->
  exists bush,
    NewBush fuel points nodeSize = Ok bush /\
    forall fuel', (queryFuel bush <= fuel')%nat ->
      (forall minX minY maxX maxY,
         exists res, Range fuel' bush minX minY maxX maxY = Ok res /\
                     res ≡ₚ bruteRange points minX minY maxX maxY) /\
      (forall (point : B) radius, (0 <= radius)%Q ->
         exactQuery points (Coordinates point).1 (Coordinates point).2 radius
         = true ->
         exists res, Within fuel' bush point radius = Ok res /\
                     res ≡ₚ bruteWithin points (Coordinates point).1
                              (Coordinates point).2 radius).
Proof.
  intros Hns Hfuel.
  destruct (NewBush_built fuel points nodeSize ltac:(lia) Hfuel) as (bush & Hrun & Hb).
  exists bush. split; [exact Hrun|].
  intros fuel' Hfuel'. split.
  - intros minX minY maxX maxY.
    apply (Range_correct points nodeSize); auto; lia.
  - intros point radius Hr He.
    apply (Within_correct points nodeSize); auto; lia.
Qed.

(** X12. An index without entries, such as the zero value of [KDBush],
    answers every query with the empty result when its node size is at least
    -1; with a node size of -2 or less both queries panic, reading
    [Coords[-2]]. *)
Theorem empty_arrays_queries {B : Type} `{Point B}
    nodeSize (points : list A) fuel :
  (2 <= fuel)%nat ->
  (-1 <= nodeSize ->
   (forall minX minY maxX maxY,
      Range fuel (mkKDBush nodeSize points [] []) minX minY maxX maxY = Ok []) /\
   (forall (point : B) radius,
      Within fuel (mkKDBush nodeSize points [] []) point radius = Ok [])) /\
  (nodeSize <= -2 ->
   (forall minX minY maxX maxY,
      Range fuel (mkKDBush nodeSize points [] []) minX minY maxX maxY = Panic) /\
   (forall (point : B) radius,
      Within fuel (mkKDBush nodeSize points [] []) point radius = Panic)).
Proof.
  intros Hfuel. destruct fuel as [|[|fuel]]; [lia|lia|].
  split; intros Hns; split.
  - intros minX minY maxX maxY. unfold Range. cbn [Idxs].
    change (push (push (push [] 0) (len [] - 1)) 0) with [0; -1; 0].
    cbn [range_loop]. rewrite len_cons_pos. pop_stack. cbn [NodeSize].
    change (-1 - 0) with (-1).
    destruct (Z.leb_spec (-1) nodeSize); [|lia]. reflexivity.
  - intros point radius. unfold Within. cbn [Idxs].
    destruct (Coordinates point) as [qx qy].
    change (push (push (push [] 0) (len [] - 1)) 0) with [0; -1; 0].
    cbn [within_loop]. rewrite len_cons_pos. pop_stack. cbn [NodeSize].
    change (-1 - 0) with (-1).
    destruct (Z.leb_spec (-1) nodeSize); [|lia]. reflexivity.
  - intros minX minY maxX maxY. unfold Range. cbn [Idxs].
    change (push (push (push [] 0) (len [] - 1)) 0) with [0; -1; 0].
    cbn [range_loop]. rewrite len_cons_pos. pop_stack. cbn [NodeSize].
    change (-1 - 0) with (-1).
    destruct (Z.leb_spec (-1) nodeSize); [lia|]. reflexivity.
  - intros point radius. unfold Within. cbn [Idxs].
    destruct (Coordinates point) as [qx qy].
    change (push (push (push [] 0) (len [] - 1)) 0) with [0; -1; 0].
    cbn [within_loop]. rewrite len_cons_pos. pop_stack. cbn [NodeSize].
    change (-1 - 0) with (-1).
    destruct (Z.leb_spec (-1) nodeSize); [lia|]. reflexivity.
Qed.

(** X13. On any index whose arrays are in lockstep and whose node size is at
    least -1, k-d ordered or not, [Range] returns without panic, and what it
    returns are the [Idxs] entries of distinct positions whose stored
    coordinates lie in the box. *)
Theorem Range_sound_on_any_arrays (bush : KDBush A) minX minY maxX maxY fuel :
  lockstep (Idxs bush) (Coords bush) -> -1 <= NodeSize bush ->
  (queryFuel bush <= fuel)%nat ->
  exists poss,
    Range fuel bush minX minY maxX maxY = Ok (idxAt (Idxs bush) <$> poss) /\
    NoDup poss /\
    forall p, p ∈ poss ->
      0 <= p < len (Idxs bush) /\
      (minX <= coordAt (Coords bush) (2 * p))%Q /\
      (coordAt (Coords bush) (2 * p) <= maxX)%Q /\
      (minY <= coordAt (Coords bush) (2 * p + 1))%Q /\
      (coordAt (Coords bush) (2 * p + 1) <= maxY)%Q.
Proof.
  intros HL Hns Hfuel.
  destruct (traverse_any_root bush
              (fun fuel stack result =>
                 range_loop fuel bush minX minY maxX maxY stack result)
              (boxTest bush minX minY maxX maxY)
              (rangeGoLeft bush minX minY) (rangeGoRight bush maxX maxY) Hns
              (fun fuel axis right left stack result =>
                 range_loop_leaf bush minX minY maxX maxY fuel axis right left
                   stack result HL)
              (fun fuel axis right left stack result =>
                 range_loop_node bush minX minY maxX maxY fuel axis right left
                   stack result HL)
              fuel (fun fuel' result => eq_refl) Hfuel)
    as (poss & Hrun & Hnd & Hsnd).
  exists poss. split; [exact Hrun|]. split; [exact Hnd|].
  intros p Hp. destruct (Hsnd p Hp) as [Hr Ht]. split; [exact Hr|].
  apply inBox_bounds in Ht. exact Ht.
Qed.

(** X14. On any index whose arrays are in lockstep and whose node size is at
    least -1, k-d ordered or not, and for any radius, [Within] returns
    without panic, and what it returns are the [Idxs] entries of distinct
    positions whose stored coordinates pass the test the program computes in
    [float64], [sqrtDist(x, y, qx, qy) <= radius * radius]. *)
Theorem Within_sound_on_any_arrays {B : Type} `{Point B}
    (bush : KDBush A) (point : B) radius fuel :
  lockstep (Idxs bush) (Coords bush) -> -1 <= NodeSize bush ->
  (queryFuel bush <= fuel)%nat ->
  exists poss,
    Within fuel bush point radius = Ok (idxAt (Idxs bush) <$> poss) /\
    NoDup poss /\
    forall p, p ∈ poss ->
      0 <= p < len (Idxs bush) /\
      fle (sqrtDist (Fin (coordAt (Coords bush) (2 * p)))
             (Fin (coordAt (Coords bush) (2 * p + 1)))
             (Fin (Coordinates point).1) (Fin (Coordinates point).2))
          (fmul (Fin radius) (Fin radius)) = true.
Proof.
  intros HL Hns Hfuel. unfold Within.
  destruct (Coordinates point) as [qx qy]. cbn [fst snd].
  destruct (traverse_any_root bush
              (fun fuel stack result =>
                 within_loop fuel bush qx qy radius
                   (fmul (Fin radius) (Fin radius)) stack result)
              (discTest bush qx qy radius)
              (withinGoLeft bush qx qy radius) (withinGoRight bush qx qy radius) Hns
              (fun fuel axis right left stack result =>
                 within_loop_leaf bush qx qy radius fuel axis right left
                   stack result HL)
              (fun fuel axis right left stack result =>
                 within_loop_node bush qx qy radius fuel axis right left
                   stack result HL)
              fuel (fun fuel' result => eq_refl) Hfuel)
    as (poss & Hrun & Hnd & Hsnd).
  exists poss. split; [exact Hrun|]. split; [exact Hnd|].
  intros p Hp. destruct (Hsnd p Hp) as [Hr Ht]. split; [exact Hr|exact Ht].
Qed.

(** X15. The field [NodeSize] of a built index may be raised afterwards: with
    any larger value in it, [Range] still returns the brute-force result,
    and so does [Within] when the arithmetic of the query is exact. *)
Theorem raised_nodeSize_queries {B : Type} `{Point B}
    (points : list A) nodeSize nodeSize' fuel :
  1 <= nodeSize -> nodeSize <= nodeSize' -> (buildFuel points <= fuel)%nat ->
  exists bush,
    NewBush fuel points nodeSize = Ok bush /\
    forall fuel', (queryFuel bush <= fuel')%nat ->
      (forall minX minY maxX maxY,
         exists res,
           Range fuel' (mkKDBush nodeSize' (Points bush) (Idxs bush) (Coords bush))
             minX minY maxX maxY = Ok res /\
           res ≡ₚ bruteRange points minX minY maxX maxY) /\
      (forall (point : B) radius, (0 <= radius)%Q ->
         exactQuery points (Coordinates point).1 (Coordinates point).2 radius
         = true ->
         exists res,
           Within fuel' (mkKDBush nodeSize' (Points bush) (Idxs bush) (Coords bush))
             point radius = Ok res /\
           res ≡ₚ bruteWithin points (Coordinates point).1 (Coordinates point).2
                    radius).
Proof.
  intros Hns Hle Hfuel.
  destruct (NewBush_built fuel points nodeSize ltac:(lia) Hfuel) as (bush & Hrun & Hb).
  exists bush. split; [exact Hrun|].
  assert (Hb' : built points nodeSize'
                  (mkKDBush nodeSize' (Points bush) (Idxs bush) (Coords bush))).
  { destruct Hb as (HN & HP & HL & Hlen & Hkd & Hperm).
    unfold built. cbn [NodeSize Points Idxs Coords].
    split; [reflexivity|]. split; [exact HP|]. split; [exact HL|].
    split; [exact Hlen|]. split; [|exact Hperm].
    eapply kdtree_mono; eauto. }
  intros fuel' Hfuel'. split.
  - intros minX minY maxX maxY.
    apply (Range_correct points nodeSize'); auto; lia.
  - intros point radius Hr He.
    apply (Within_correct points nodeSize'); auto; lia.
Qed.

(** X16. With a radius of at least 0 and exact arithmetic in the query, every
    original position [Within] returns is also returned by [Range] on the
    square [qx - radius, qy - radius, qx + radius, qy + radius]. *)
Theorem Within_inside_Range_square {B : Type} `{Point B}
    (points : list A) nodeSize fuel :
  1 <= nodeSize -> (buildFuel points <= fuel)%nat ->
  exists bush,
    NewBush fuel points nodeSize = Ok bush /\
    forall (point : B) radius fuel',
      (0 <= radius)%Q -> (queryFuel bush <= fuel')%nat ->
      exactQuery points (Coordinates point).1 (Coordinates point).2 radius
      = true ->
      exists disc square,
        Within fuel' bush point radius = Ok disc /\
        Range fuel' bush
          ((Coordinates point).1 - radius)%Q ((Coordinates point).2 - radius)%Q
          ((Coordinates point).1 + radius)%Q ((Coordinates point).2 + radius)%Q
        = Ok square /\
        forall i, i ∈ disc -> i ∈ square.
Proof.
  intros Hns Hfuel.
  destruct (NewBush_built fuel points nodeSize ltac:(lia) Hfuel) as (bush & Hrun & Hb).
  exists bush. split; [exact Hrun|].
  intros point radius fuel' Hr Hfuel' He.
  destruct (Within_correct points nodeSize bush point radius fuel' Hb
              ltac:(lia) Hfuel' Hr He) as (rw & Hrw & Hpw).
  destruct (Range_correct points nodeSize bush
              ((Coordinates point).1 - radius)%Q ((Coordinates point).2 - radius)%Q
              ((Coordinates point).1 + radius)%Q ((Coordinates point).2 + radius)%Q
              fuel' Hb ltac:(lia) Hfuel') as (rr & Hrr & Hpr).
  exists rw, rr. split; [exact Hrw|]. split; [exact Hrr|].
  intros i. rewrite Hpw, Hpr. unfold bruteWithin, bruteRange.
  rewrite !elem_of_filter_seqZ, inDisc_bound, inBox_bounds.
  intros [Hi Hd]. split; [exact Hi|].
  apply disc_in_square; assumption.
Qed.

(** X17. With a negative radius, every original position [Within] returns is
    also returned by [Within] with the absolute value of that radius. *)
Theorem Within_negative_inside_positive {B : Type} `{Point B}
    (points : list A) nodeSize fuel :
  1 <= nodeSize -> (buildFuel points <= fuel)%nat ->
  exists bush,
    NewBush fuel points nodeSize = Ok bush /\
    forall (point : B) radius fuel',
      (radius < 0)%Q -> (queryFuel bush <= fuel')%nat ->
      exists resNeg resPos,
        Within fuel' bush point radius = Ok resNeg /\
        Within fuel' bush point (- radius)%Q = Ok resPos /\
        forall i, i ∈ resNeg -> i ∈ resPos.
Proof.
  intros Hns Hfuel.
  destruct (NewBush_built fuel points nodeSize ltac:(lia) Hfuel) as (bush & Hrun & Hb).
  exists bush. split; [exact Hrun|].
  intros point radius fuel' Hr Hfuel'.
  pose proof Hb as (HN & _ & HL & _).
  eexists. eexists.
  split; [apply Within_visited; auto; lia|].
  split; [apply Within_visited; auto; lia|].
  intros i Hi. apply list_elem_of_fmap in Hi. destruct Hi as (p & -> & Hp).
  apply list_elem_of_fmap_2.
  revert Hp. apply visited_mono.
  - intros q. symmetry. apply discTest_opp.
  - intros axis m. apply withinGoLeft_opp. exact Hr.
  - intros axis m. apply withinGoRight_opp. exact Hr.
Qed.

End Index.

(** * Concrete runs

    The theorems applied to concrete point sets, with the bracket
    [tightLower], [tightUpper]. *)

Lemma Range_matches_brute_force_witness :
  exists bush,
    NewBush tightLower tightUpper 20 scattered7 2 = Ok bush /\
    forall minX minY maxX maxY fuel',
      (queryFuel bush <= fuel')%nat ->
      exists res,
        Range fuel' bush minX minY maxX maxY = Ok res /\
        res ≡ₚ bruteRange scattered7 minX minY maxX maxY /\
        forall i, i ∈ res <->
          0 <= i < len scattered7 /\
          (minX <= (coordsOf scattered7 i).1)%Q /\
          ((coordsOf scattered7 i).1 <= maxX)%Q /\
          (minY <= (coordsOf scattered7 i).2)%Q /\
          ((coordsOf scattered7 i).2 <= maxY)%Q.
Proof.
  apply (Range_matches_brute_force tightLower tightUpper).
  - intros n m k _ _. unfold tightLower, tightUpper. lia.
  - intros n m k Hn _. unfold tightLower, tightUpper. lia.
  - lia.
  - vm_compute. lia.
Defined.


Lemma NewBush_kd_order_witness :
  exists bush,
    NewBush tightLower tightUpper 20 scattered7 1 = Ok bush /\
    NodeSize bush = 1 /\
    length (Idxs bush) = length scattered7 /\
    length (Coords bush) = (2 * length scattered7)%nat /\
    (forall p inc, 0 <= p < len scattered7 -> 0 <= inc <= 1 ->
       Coords bush !! Z.to_nat (2 * p + inc) = Some (key (Coords bush) inc p)) /\
    kdtree 1 (Coords bush) 0 (len scattered7 - 1) 0.
Proof.
  apply (NewBush_kd_order tightLower tightUpper).
  - intros n m k _ _. unfold tightLower, tightUpper. lia.
  - intros n m k Hn _. unfold tightLower, tightUpper. lia.
  - lia.
  - vm_compute. lia.
Defined.

Lemma NewBush_permutation_pairing_witness :
  (exists bush,
     NewBush tightLower tightUpper 20 scattered7 1 = Ok bush /\
     length (Idxs bush) = length scattered7 /\
     length (Coords bush) = (2 * length scattered7)%nat /\
     Idxs bush ≡ₚ seqZ 0 (len scattered7) /\
     forall (i : nat) idx, Idxs bush !! i = Some idx ->
       exists v, scattered7 !! Z.to_nat idx = Some v /\
         Coords bush !! (2 * i)%nat = Some (Coordinates v).1 /\
         Coords bush !! (2 * i + 1)%nat = Some (Coordinates v).2) /\
  (forall Idxs Coords i j,
     lockstep Idxs Coords -> 0 <= i < len Idxs -> 0 <= j < len Idxs ->
     exists Idxs' Coords',
       swapItem Idxs Coords i j = Ok (Idxs', Coords') /\
       lockstep Idxs' Coords' /\
       forall p, item Idxs' Coords' p = item Idxs Coords (transp i j p)).
Proof.
  apply (NewBush_permutation_pairing tightLower tightUpper).
  - intros n m k _ _. unfold tightLower, tightUpper. lia.
  - intros n m k Hn _. unfold tightLower, tightUpper. lia.
  - lia.
  - vm_compute. lia.
Defined.

(** A range in which four of the five keys are equal. *)
Lemma sselect_contract_witness :
  exists Idxs' Coords',
    sselect tightLower tightUpper 12 tiedIdxs tiedCoords 2 0 4 0
    = Ok (Idxs', Coords') /\
    lockstep Idxs' Coords' /\
    length Idxs' = length tiedIdxs /\
    (forall p, ~ 0 <= p <= 4 -> item Idxs' Coords' p = item tiedIdxs tiedCoords p) /\
    item Idxs' Coords' <$> seqZ 0 (4 - 0 + 1)
      ≡ₚ item tiedIdxs tiedCoords <$> seqZ 0 (4 - 0 + 1) /\
    hasRank (keysOf tiedCoords 0 0 4) (2 - 0) (key Coords' 0 2) /\
    (forall p, 0 <= p < 2 -> (key Coords' 0 p <= key Coords' 0 2)%Q) /\
    (forall p, 2 < p <= 4 -> (key Coords' 0 2 <= key Coords' 0 p)%Q).
Proof.
  apply (sselect_contract tightLower tightUpper).
  - intros n m k _ _. unfold tightLower, tightUpper. lia.
  - intros n m k Hn _. unfold tightLower, tightUpper. lia.
  - reflexivity.
  - lia.
  - lia.
  - unfold len. simpl. lia.
  - vm_compute. lia.
Defined.

Lemma NewBush_keeps_nodeSize_witness :
  (forall fuel,
     NewBush tightLower tightUpper fuel scattered7 0
     = ('(Idxs, Coords) ← fill scattered7 0 (replicate (length scattered7) 0)
                            (replicate (2 * length scattered7) 0%Q);
        '(Idxs, Coords) ← sort tightLower tightUpper fuel Idxs Coords 0 0
                            (len Idxs - 1) 0;
        Ok (mkKDBush 0 scattered7 Idxs Coords))) /\
  (forall fuel bush, NewBush tightLower tightUpper fuel scattered7 0 = Ok bush ->
     NodeSize bush = 0) /\
  (-1 <= 0 -> forall fuel, (buildFuel scattered7 <= fuel)%nat ->
     exists bush, NewBush tightLower tightUpper fuel scattered7 0 = Ok bush /\
                  NodeSize bush = 0) /\
  (0 <= -2 -> forall fuel bush,
     NewBush tightLower tightUpper fuel scattered7 0 <> Ok bush).
Proof.
  apply (NewBush_keeps_nodeSize tightLower tightUpper).
  - intros n m k _ _. unfold tightLower, tightUpper. lia.
  - intros n m k Hn _. unfold tightLower, tightUpper. lia.
  - lia.
Defined.

Lemma Within_negative_radius_witness :
  exists bush,
    NewBush tightLower tightUpper 20 scattered7 1 = Ok bush /\
    forall (point : SimplePoint) radius fuel',
      (radius < 0)%Q -> (queryFuel bush <= fuel')%nat ->
      exists res,
        Within fuel' bush point radius = Ok res /\
        NoDup res /\
        forall i, i ∈ res ->
          0 <= i < len scattered7 /\
          fle (sqrtDist (Fin (coordsOf scattered7 i).1)
                 (Fin (coordsOf scattered7 i).2)
                 (Fin (Coordinates point).1) (Fin (Coordinates point).2))
              (fmul (Fin radius) (Fin radius)) = true.
Proof.
  apply (Within_negative_radius tightLower tightUpper).
  - intros n m k _ _. unfold tightLower, tightUpper. lia.
  - intros n m k Hn _. unfold tightLower, tightUpper. lia.
  - lia.
  - vm_compute. lia.
Defined.

Lemma NewBush_keeps_points_witness :
  exists bush,
    NewBush tightLower tightUpper 20 diagonal5 2 = Ok bush /\
    Points bush = diagonal5 /\
    forall (points' : list SimplePoint) fuel',
      (forall minX minY maxX maxY,
         Range fuel' (mkKDBush (NodeSize bush) points' (Idxs bush) (Coords bush))
           minX minY maxX maxY
         = Range fuel' bush minX minY maxX maxY) /\
      (forall (B : Type) (HB : Point B) (point : B) radius,
         Within fuel' (mkKDBush (NodeSize bush) points' (Idxs bush) (Coords bush))
           point radius
         = Within fuel' bush point radius).
Proof.
  apply (NewBush_keeps_points tightLower tightUpper).
  - intros n m k _ _. unfold tightLower, tightUpper. lia.
  - intros n m k Hn _. unfold tightLower, tightUpper. lia.
  - lia.
  - vm_compute. lia.
Defined.

Lemma empty_index_witness :
  NewBush tightLower tightUpper 1 ([] : list SimplePoint) 64
  = Ok (mkKDBush 64 [] [] []) /\
  (forall minX minY maxX maxY,
     Range 2 (mkKDBush 64 ([] : list SimplePoint) [] []) minX minY maxX maxY
     = Ok []) /\
  (forall (B : Type) (HB : Point B) (point : B) radius,
     Within 2 (mkKDBush 64 ([] : list SimplePoint) [] []) point radius = Ok []).
Proof.
  apply (empty_index tightLower tightUpper); lia.
Defined.

Lemma Range_inverted_box_witness :
  exists bush,
    NewBush tightLower tightUpper 20 scattered7 1 = Ok bush /\
    forall minX minY maxX maxY fuel',
      (maxX < minX)%Q \/ (maxY < minY)%Q ->
      (queryFuel bush <= fuel')%nat ->
      Range fuel' bush minX minY maxX maxY = Ok [].
Proof.
  apply (Range_inverted_box tightLower tightUpper).
  - intros n m k _ _. unfold tightLower, tightUpper. lia.
  - intros n m k Hn _. unfold tightLower, tightUpper. lia.
  - lia.
  - vm_compute. lia.
Defined.

(** ** Where the code departs from the specification *)


(** A node size of 0 is neither rejected nor clamped to 1. *)
Lemma NewBush_accepts_zero_nodeSize :
  exists bush,
    NewBush tightLower tightUpper 20 scattered7 0 = Ok bush /\
    NodeSize bush = 0 /\ NodeSize bush <> 1.
Proof.
  eexists. split; [vm_compute; reflexivity|].
  split; [reflexivity|discriminate].
Qed.

(** With a node size of -2 the recursion does not come to an end. *)
Example NewBush_minus_two_runs_out :
  NewBush tightLower tightUpper 200 scattered7 (-2) = OutOfFuel.
Proof. vm_compute. reflexivity. Qed.

(** A negative radius gives a match: the radius is squared before use. *)
Lemma Within_negative_radius_nonempty :
  exists bush,
    NewBush tightLower tightUpper 20 scattered7 1 = Ok bush /\
    Within 20 bush (pt 3 3) (- (3 # 2)) = Ok [5] /\ [5] <> ([] : list Z).
Proof.
  eexists. split; [vm_compute; reflexivity|].
  split; [vm_compute; reflexivity|discriminate].
Qed.

(** The caller's point sequence is kept in the index. *)
Lemma NewBush_retains_points :
  exists bush,
    NewBush tightLower tightUpper 20 diagonal5 2 = Ok bush /\
    Points bush = diagonal5 /\ Points bush <> [].
Proof.
  eexists. split; [vm_compute; reflexivity|].
  split; [reflexivity|discriminate].
Qed.

(** ** The examples of the specification *)

Example range_example :
  exists bush,
    NewBush tightLower tightUpper 20 diagonal5 2 = Ok bush /\
    Range 20 bush 1 1 3 3 = Ok [2; 3; 1].
Proof.
  eexists. split; [vm_compute; reflexivity|].
  vm_compute. reflexivity.
Qed.

(** The two radius queries of the specification compute without rounding
    error. *)
Example within_example_exact :
  exactQuery diagonal5 2 2 (3 # 2) = true /\ exactQuery diagonal5 2 2 0 = true.
Proof. split; vm_compute; reflexivity. Qed.

Example within_example :
  exists bush,
    NewBush tightLower tightUpper 20 diagonal5 2 = Ok bush /\
    Within 20 bush (pt 2 2) (3 # 2) = Ok [2; 3; 1] /\
    Within 20 bush (pt 2 2) 0 = Ok [2].
Proof.
  eexists. split; [vm_compute; reflexivity|].
  split; vm_compute; reflexivity.
Qed.

(** ** Rounding at work *)

(** [-4.7 + 3] rounds to the binary64 number below the one nearest to -1.7,
    and [-1.7 - -4.7], exactly [3 + 2^-52], rounds to 3. *)
Example rounded_sum :
  fadd (Fin (X westOf)) (Fin 3) = Fin (-1914029841632461 # 1125899906842624) /\
  fsub (Fin (-7656119366529843 # 4503599627370496)) (Fin (X westOf)) = Fin 3.
Proof. split; vm_compute; reflexivity. Qed.

(** [0.1 + 0.2] is not the binary64 number nearest to 0.3. *)
Example rounded_tenths :
  fadd (Fin (3602879701896397 # 36028797018963968))
       (Fin (3602879701896397 # 18014398509481984))
  = Fin (1351079888211149 # 4503599627370496).
Proof. vm_compute. reflexivity. Qed.

(** Above [2^53] not every integer is a binary64 number; a tie goes to the
    even significand. *)
Example rounded_integers :
  round64 (inject_Z (2 ^ 53 + 1)) = Fin (inject_Z (2 ^ 53)) /\
  round64 (inject_Z (2 ^ 53 + 3)) = Fin (inject_Z (2 ^ 53 + 4)).
Proof. split; vm_compute; reflexivity. Qed.

(** Half of the smallest subnormal number is a tie and goes to zero, three
    halves of it go to twice it; the largest binary64 number is kept, and
    half a unit above it overflows. *)
Example rounded_extremes :
  round64 (pow2 (- 1075)) = Fin 0 /\
  round64 (3 * pow2 (- 1075)) = Fin (Qred (pow2 (- 1073))) /\
  round64 (pow2 1024 - pow2 971) = Fin (Qred (pow2 1024 - pow2 971)) /\
  round64 (pow2 1024 - pow2 970) = Inf false /\
  round64 (- (pow2 1024 - pow2 970)) = Inf true.
Proof. repeat split; vm_compute; reflexivity. Qed.

(** Overflow and underflow of a square. *)
Example rounded_squares :
  sqrtDist (Fin (pow2 600)) (Fin 0) (Fin 0) (Fin 0) = Inf false /\
  sqrtDist (Fin (pow2 (-600))) (Fin 0) (Fin 0) (Fin 0) = Fin 0.
Proof. split; vm_compute; reflexivity. Qed.

(** The point (0.3, 0.4) as binary64 holds it is farther than 0.5 from the
    origin, and [Within] returns it for the radius 0.5 and for -0.5: its
    squared distance rounds to 0.25. *)
Example within_rounded_match :
  exists bush,
    NewBush tightLower tightUpper 20 offGrid 1 = Ok bush /\
    Within 20 bush (pt 0 0) (1 # 2) = Ok [0] /\
    Within 20 bush (pt 0 0) (- (1 # 2)) = Ok [0] /\
    bruteWithin offGrid 0 0 (1 # 2) = [].
Proof.
  eexists. split; [vm_compute; reflexivity|].
  split; [vm_compute; reflexivity|].
  split; vm_compute; reflexivity.
Qed.

(** * Inputs the sampled bracket never touches

    [sselect] consults the Floyd-Rivest bracket for ranges of more than 601
    positions only, so on smaller inputs the construction is the same
    whatever the bracket computes. *)

Lemma tight_encloses n m k :
  601 < n -> 1 <= m <= n -> tightLower n m k <= k <= tightUpper n m k.
Proof. intros _ _. unfold tightLower, tightUpper. lia. Qed.

Lemma tight_shrinks n m k :
  601 < n -> 1 <= m <= n -> tightUpper n m k - tightLower n m k < n - 1.
Proof. intros Hn _. unfold tightLower, tightUpper. lia. Qed.

Lemma sselect_small (lo hi : Z -> Z -> Z -> Z) inc k :
  0 <= inc <= 1 ->
  forall fuel Idxs Coords left right,
    lockstep Idxs Coords -> 0 <= left -> right < len Idxs ->
    right - left <= 600 ->
    (left <= k <= right \/ right <= left) ->
    (selectFuel left right <= fuel)%nat ->
    sselect lo hi fuel Idxs Coords k left right inc
    = sselect tightLower tightUpper fuel Idxs Coords k left right inc.
Proof.
  intros Hinc. unfold selectFuel.
  induction fuel as [|fuel IH];
    intros Idxs Coords left right HL Hleft Hright Hsmall Hwin Hfuel.
  - lia.
  - rewrite !sselect_unfold.
    destruct (Z.gtb_spec right left) as [Hlr|Hlr]; [|reflexivity].
    destruct (Z.gtb_spec (right - left) 600); [lia|].
    rewrite !bind_Ok.
    destruct (select_pass_spec fuel Idxs Coords k left right inc)
      as (I2 & C2 & j & Hrun & HP & Hj & _); auto; try lia.
    rewrite Hrun, !bind_Ok.
    apply IH.
    + eapply permuted_lockstep; eauto.
    + destruct (Z.leb_spec j k); lia.
    + rewrite (permuted_len _ _ _ _ _ _ HP). destruct (Z.leb_spec k j); lia.
    + destruct (Z.leb_spec j k); destruct (Z.leb_spec k j); lia.
    + destruct (Z.leb_spec j k); destruct (Z.leb_spec k j); lia.
    + destruct (Z.leb_spec j k); destruct (Z.leb_spec k j); lia.
Qed.

Lemma sort_small (lo hi : Z -> Z -> Z -> Z) nodeSize :
  -1 <= nodeSize ->
  forall fuel Idxs Coords left right depth,
    lockstep Idxs Coords -> 0 <= left -> right < len Idxs ->
    left <= right + 1 -> right - left <= 600 -> 0 <= depth ->
    (sortFuel left right <= fuel)%nat ->
    sort lo hi fuel Idxs Coords nodeSize left right depth
    = sort tightLower tightUpper fuel Idxs Coords nodeSize left right depth.
Proof.
  intros Hns. unfold sortFuel.
  induction fuel as [|fuel IH];
    intros Idxs Coords left right depth HL Hleft Hright Hlr Hsmall Hdepth Hfuel.
  - lia.
  - rewrite !sort_unfold, !floor_half.
    destruct (Z.leb_spec (right - left) nodeSize) as [Hleaf|Hnode]; [reflexivity|].
    remember ((left + right) / 2) as m eqn:Em.
    assert (Hm : left <= m <= right).
    { subst m. split; [apply Z.div_le_lower_bound|apply Z.div_le_upper_bound]; lia. }
    rewrite Z.rem_mod_nonneg by lia.
    pose proof (Z.mod_pos_bound depth 2 ltac:(lia)) as Hax.
    rewrite (sselect_small lo hi (depth mod 2) m) by (auto; unfold selectFuel; lia).
    destruct (sselect_spec tightLower tightUpper tight_encloses tight_shrinks
                fuel Idxs Coords m left right (depth mod 2))
      as (I1 & C1 & Hrun1 & HP1 & _); auto; try lia.
    { unfold selectFuel. lia. }
    rewrite Hrun1, !bind_Ok.
    pose proof (permuted_lockstep _ _ _ _ _ _ HP1 HL) as HL1.
    pose proof (permuted_len _ _ _ _ _ _ HP1) as Hlen1.
    rewrite (IH I1 C1 left (m - 1) (depth + 1)) by (auto; lia).
    destruct (sort_spec tightLower tightUpper tight_encloses tight_shrinks
                nodeSize Hns fuel I1 C1 left (m - 1) (depth + 1))
      as (I2 & C2 & Hrun2 & HP2 & _); auto; try (unfold sortFuel; lia).
    rewrite Hrun2, !bind_Ok.
    pose proof (permuted_lockstep _ _ _ _ _ _ HP2 HL1) as HL2.
    pose proof (permuted_len _ _ _ _ _ _ HP2) as Hlen2.
    apply IH; auto; lia.
Qed.

Lemma NewBush_small {A : Type} `{Point A} (lo hi : Z -> Z -> Z -> Z)
    fuel (points : list A) nodeSize :
  len points <= 601 -> -1 <= nodeSize -> (buildFuel points <= fuel)%nat ->
  NewBush lo hi fuel points nodeSize
  = NewBush tightLower tightUpper fuel points nodeSize.
Proof.
  intros Hn Hns Hfuel. unfold NewBush, buildIndex, buildFuel in *.
  cbn [NodeSize Points Idxs Coords].
  destruct (fill_spec points 0 (replicate (length points) 0)
              (replicate (2 * length points) 0%Q))
    as (I1 & C1 & Hrun1 & HlI1 & HlC1 & _).
  { unfold lockstep, len. rewrite !length_replicate. lia. }
  { lia. }
  { unfold len. rewrite length_replicate. lia. }
  rewrite Hrun1, !bind_Ok.
  rewrite length_replicate in HlI1. rewrite length_replicate in HlC1.
  rewrite (sort_small lo hi nodeSize Hns);
    try (unfold lockstep, sortFuel, len in *; lia).
  reflexivity.
Qed.

(** X18. On at most 601 points [NewBush] returns the same index whatever the
    Floyd-Rivest bracket computes: [sselect] reads the bracket for ranges of
    more than 601 positions only. *)
Theorem small_input_ignores_bracket {A : Type} `{Point A}
    (lo hi lo' hi' : Z -> Z -> Z -> Z) fuel (points : list A) nodeSize :
  len points <= 601 -> -1 <= nodeSize -> (buildFuel points <= fuel)%nat ->
  NewBush lo hi fuel points nodeSize = NewBush lo' hi' fuel points nodeSize.
Proof.
  intros Hn Hns Hfuel.
  rewrite (NewBush_small lo hi), (NewBush_small lo' hi') by assumption.
  reflexivity.
Qed.

(** X19. On at most 601 points, with a node size of at least 1 and with no
    assumption at all on the bracket, [NewBush] returns an index on which
    [Range] returns the brute-force result, and so does [Within] for a
    radius of at least 0 when the arithmetic of the query is exact. *)
Theorem small_input_queries {A B : Type} `{Point A} `{Point B}
    (lo hi : Z -> Z -> Z -> Z) fuel (points : list A) nodeSize :
  len points <= 601 -> 1 <= nodeSize -> (buildFuel points <= fuel)%nat ->
  exists bush,
    NewBush lo hi fuel points nodeSize = Ok bush /\
    forall fuel', (queryFuel bush <= fuel')%nat ->
      (forall minX minY maxX maxY,
         exists res, Range fuel' bush minX minY maxX maxY = Ok res /\
                     res ≡ₚ bruteRange points minX minY maxX maxY) /\
      (forall (point : B) radius, (0 <= radius)%Q ->
         exactQuery points (Coordinates point).1 (Coordinates point).2 radius
         = true ->
         exists res, Within fuel' bush point radius = Ok res /\
                     res ≡ₚ bruteWithin points (Coordinates point).1
                              (Coordinates point).2 radius).
Proof.
  intros Hn Hns Hfuel.
  rewrite (NewBush_small lo hi) by (auto; lia).
  destruct (NewBush_built tightLower tightUpper tight_encloses tight_shrinks
              fuel points nodeSize ltac:(lia) Hfuel) as (bush & Hrun & Hb).
  exists bush. split; [exact Hrun|].
  intros fuel' Hfuel'. split.
  - intros minX minY maxX maxY.
    apply (Range_correct points nodeSize); auto; lia.
  - intros point radius Hr He.
    apply (Within_correct points nodeSize); auto; lia.
Qed.

(** * Concrete runs of the further properties *)

Lemma swapf_exchanges_witness :
  exists a',
    swapf tiedCoords 0 4 = Ok a' /\
    length a' = length tiedCoords /\
    a' !! Z.to_nat 0 = tiedCoords !! Z.to_nat 4 /\
    a' !! Z.to_nat 4 = tiedCoords !! Z.to_nat 0 /\
    forall p : nat, p <> Z.to_nat 0 -> p <> Z.to_nat 4 -> a' !! p = tiedCoords !! p.
Proof.
  apply (swapf_exchanges tiedCoords 0 4); unfold len; simpl; lia.
Defined.

Lemma swapi_exchanges_witness :
  exists a',
    swapi tiedIdxs 1 3 = Ok a' /\
    length a' = length tiedIdxs /\
    a' !! Z.to_nat 1 = tiedIdxs !! Z.to_nat 3 /\
    a' !! Z.to_nat 3 = tiedIdxs !! Z.to_nat 1 /\
    forall p : nat, p <> Z.to_nat 1 -> p <> Z.to_nat 3 -> a' !! p = tiedIdxs !! p.
Proof.
  apply (swapi_exchanges tiedIdxs 1 3); unfold len; simpl; lia.
Defined.

Lemma swapItem_out_of_range_witness :
  swapItem tiedIdxs tiedCoords 0 5 = Panic.
Proof.
  apply (swapItem_out_of_range tiedIdxs tiedCoords 0 5).
  unfold len. simpl. lia.
Defined.

Lemma swapItem_twice_witness :
  exists Idxs' Coords',
    swapItem tiedIdxs tiedCoords 1 3 = Ok (Idxs', Coords') /\
    swapItem Idxs' Coords' 1 3 = Ok (tiedIdxs, tiedCoords).
Proof.
  apply (swapItem_twice tiedIdxs tiedCoords 1 3).
  - reflexivity.
  - unfold len. simpl. lia.
  - unfold len. simpl. lia.
Defined.

Lemma midpoint_in_range_witness :
  isExact (round64 (inject_Z (3 + 8))) (float64 (3 + 8)) = true /\
  isExact (round64 (float64 (3 + 8) / 2)) (float64 (3 + 8) / 2) = true /\
  2 * floor (float64 (3 + 8) / 2) <= 3 + 8 <= 2 * floor (float64 (3 + 8) / 2) + 1 /\
  3 <= floor (float64 (3 + 8) / 2) <= 8 /\
  (3 < 8 -> floor (float64 (3 + 8) / 2) < 8).
Proof.
  apply (midpoint_in_range 3 8); lia.
Defined.

Lemma sort_contract_witness :
  exists Idxs' Coords',
    sort tightLower tightUpper 20 tiedIdxs tiedCoords 1 0 4 0 = Ok (Idxs', Coords') /\
    lockstep Idxs' Coords' /\
    length Idxs' = length tiedIdxs /\
    (forall p, ~ 0 <= p <= 4 -> item Idxs' Coords' p = item tiedIdxs tiedCoords p) /\
    item Idxs' Coords' <$> seqZ 0 (4 - 0 + 1)
      ≡ₚ item tiedIdxs tiedCoords <$> seqZ 0 (4 - 0 + 1) /\
    kdtree 1 Coords' 0 4 0.
Proof.
  apply (sort_contract tightLower tightUpper).
  - intros n m k _ _. unfold tightLower, tightUpper. lia.
  - intros n m k Hn _. unfold tightLower, tightUpper. lia.
  - lia.
  - reflexivity.
  - lia.
  - unfold len. simpl. lia.
  - lia.
  - lia.
  - vm_compute. lia.
Defined.

Lemma sselect_k_out_of_range_witness :
  sselect tightLower tightUpper 1 tiedIdxs tiedCoords 7 0 4 0 = Panic.
Proof.
  apply (sselect_k_out_of_range tightLower tightUpper).
  - reflexivity.
  - lia.
  - lia.
  - lia.
  - unfold len. simpl. lia.
  - lia.
Defined.

Lemma NewBush_single_leaf_witness :
  exists bush,
    NewBush tightLower tightUpper 1 scattered7 64 = Ok bush /\
    Idxs bush = seqZ 0 (len scattered7) /\
    (forall (i : nat) v, scattered7 !! i = Some v ->
       Coords bush !! (2 * i)%nat = Some (Coordinates v).1 /\
       Coords bush !! (2 * i + 1)%nat = Some (Coordinates v).2) /\
    forall fuel', (2 <= fuel')%nat ->
      (forall minX minY maxX maxY,
         Range fuel' bush minX minY maxX maxY
         = Ok (bruteRange scattered7 minX minY maxX maxY)) /\
      (forall (point : SimplePoint) radius,
         Within fuel' bush point radius
         = Ok (bruteWithin64 scattered7 (Coordinates point).1 (Coordinates point).2
                 radius)).
Proof.
  apply (NewBush_single_leaf tightLower tightUpper).
  - unfold len. simpl. lia.
  - lia.
Defined.

Lemma small_nodeSize_queries_witness :
  exists bush,
    NewBush tightLower tightUpper 20 scattered7 0 = Ok bush /\
    forall fuel', (queryFuel bush <= fuel')%nat ->
      (forall minX minY maxX maxY,
         exists res, Range fuel' bush minX minY maxX maxY = Ok res /\
                     res ≡ₚ bruteRange scattered7 minX minY maxX maxY) /\
      (forall (point : SimplePoint) radius, (0 <= radius)%Q ->
         exactQuery scattered7 (Coordinates point).1 (Coordinates point).2 radius
         = true ->
         exists res, Within fuel' bush point radius = Ok res /\
                     res ≡ₚ bruteWithin scattered7 (Coordinates point).1
                              (Coordinates point).2 radius).
Proof.
  apply (small_nodeSize_queries tightLower tightUpper).
  - intros n m k _ _. unfold tightLower, tightUpper. lia.
  - intros n m k Hn _. unfold tightLower, tightUpper. lia.
  - lia.
  - vm_compute. lia.
Defined.

Lemma empty_arrays_queries_witness :
  (-1 <= 0 ->
   (forall minX minY maxX maxY,
      Range 2 (mkKDBush 0 ([] : list SimplePoint) [] []) minX minY maxX maxY
      = Ok []) /\
   (forall (point : SimplePoint) radius,
      Within 2 (mkKDBush 0 ([] : list SimplePoint) [] []) point radius = Ok [])) /\
  (0 <= -2 ->
   (forall minX minY maxX maxY,
      Range 2 (mkKDBush 0 ([] : list SimplePoint) [] []) minX minY maxX maxY
      = Panic) /\
   (forall (point : SimplePoint) radius,
      Within 2 (mkKDBush 0 ([] : list SimplePoint) [] []) point radius = Panic)).
Proof.
  apply (empty_arrays_queries 0 ([] : list SimplePoint) 2). lia.
Defined.

Lemma Range_sound_on_any_arrays_witness :
  exists poss,
    Range 13 (mkKDBush 1 ([] : list SimplePoint) tiedIdxs tiedCoords) 2 0 2 3
    = Ok (idxAt tiedIdxs <$> poss) /\
    NoDup poss /\
    forall p, p ∈ poss ->
      0 <= p < len tiedIdxs /\
      (2 <= coordAt tiedCoords (2 * p))%Q /\ (coordAt tiedCoords (2 * p) <= 2)%Q /\
      (0 <= coordAt tiedCoords (2 * p + 1))%Q /\
      (coordAt tiedCoords (2 * p + 1) <= 3)%Q.
Proof.
  apply (Range_sound_on_any_arrays
           (mkKDBush 1 ([] : list SimplePoint) tiedIdxs tiedCoords) 2 0 2 3 13).
  - reflexivity.
  - simpl. lia.
  - vm_compute. lia.
Defined.

Lemma Within_sound_on_any_arrays_witness :
  exists poss,
    Within 13 (mkKDBush 1 ([] : list SimplePoint) tiedIdxs tiedCoords) (pt 2 2) (- (1))
    = Ok (idxAt tiedIdxs <$> poss) /\
    NoDup poss /\
    forall p, p ∈ poss ->
      0 <= p < len tiedIdxs /\
      fle (sqrtDist (Fin (coordAt tiedCoords (2 * p)))
             (Fin (coordAt tiedCoords (2 * p + 1)))
             (Fin (Coordinates (pt 2 2)).1) (Fin (Coordinates (pt 2 2)).2))
          (fmul (Fin (- (1))) (Fin (- (1)))) = true.
Proof.
  apply (Within_sound_on_any_arrays
           (mkKDBush 1 ([] : list SimplePoint) tiedIdxs tiedCoords) (pt 2 2)
           (- (1))%Q 13).
  - reflexivity.
  - simpl. lia.
  - vm_compute. lia.
Defined.

Lemma raised_nodeSize_queries_witness :
  exists bush,
    NewBush tightLower tightUpper 20 scattered7 1 = Ok bush /\
    forall fuel', (queryFuel bush <= fuel')%nat ->
      (forall minX minY maxX maxY,
         exists res,
           Range fuel' (mkKDBush 3 (Points bush) (Idxs bush) (Coords bush))
             minX minY maxX maxY = Ok res /\
           res ≡ₚ bruteRange scattered7 minX minY maxX maxY) /\
      (forall (point : SimplePoint) radius, (0 <= radius)%Q ->
         exactQuery scattered7 (Coordinates point).1 (Coordinates point).2 radius
         = true ->
         exists res,
           Within fuel' (mkKDBush 3 (Points bush) (Idxs bush) (Coords bush))
             point radius = Ok res /\
           res ≡ₚ bruteWithin scattered7 (Coordinates point).1 (Coordinates point).2
                    radius).
Proof.
  apply (raised_nodeSize_queries tightLower tightUpper).
  - intros n m k _ _. unfold tightLower, tightUpper. lia.
  - intros n m k Hn _. unfold tightLower, tightUpper. lia.
  - lia.
  - lia.
  - vm_compute. lia.
Defined.

Lemma Within_inside_Range_square_witness :
  exists bush,
    NewBush tightLower tightUpper 20 scattered7 1 = Ok bush /\
    forall (point : SimplePoint) radius fuel',
      (0 <= radius)%Q -> (queryFuel bush <= fuel')%nat ->
      exactQuery scattered7 (Coordinates point).1 (Coordinates point).2 radius
      = true ->
      exists disc square,
        Within fuel' bush point radius = Ok disc /\
        Range fuel' bush
          ((Coordinates point).1 - radius)%Q ((Coordinates point).2 - radius)%Q
          ((Coordinates point).1 + radius)%Q ((Coordinates point).2 + radius)%Q
        = Ok square /\
        forall i, i ∈ disc -> i ∈ square.
Proof.
  apply (Within_inside_Range_square tightLower tightUpper).
  - intros n m k _ _. unfold tightLower, tightUpper. lia.
  - intros n m k Hn _. unfold tightLower, tightUpper. lia.
  - lia.
  - vm_compute. lia.
Defined.

Lemma Within_negative_inside_positive_witness :
  exists bush,
    NewBush tightLower tightUpper 20 scattered7 1 = Ok bush /\
    forall (point : SimplePoint) radius fuel',
      (radius < 0)%Q -> (queryFuel bush <= fuel')%nat ->
      exists resNeg resPos,
        Within fuel' bush point radius = Ok resNeg /\
        Within fuel' bush point (- radius)%Q = Ok resPos /\
        forall i, i ∈ resNeg -> i ∈ resPos.
Proof.
  apply (Within_negative_inside_positive tightLower tightUpper).
  - intros n m k _ _. unfold tightLower, tightUpper. lia.
  - intros n m k Hn _. unfold tightLower, tightUpper. lia.
  - lia.
  - vm_compute. lia.
Defined.

Lemma small_input_ignores_bracket_witness :
  NewBush (fun _ _ _ => 0) (fun _ _ _ => 0) 20 scattered7 1
  = NewBush tightLower tightUpper 20 scattered7 1.
Proof.
  apply (small_input_ignores_bracket (fun _ _ _ => 0) (fun _ _ _ => 0)
           tightLower tightUpper 20 scattered7 1).
  - unfold len. simpl. lia.
  - lia.
  - vm_compute. lia.
Defined.

Lemma small_input_queries_witness :
  exists bush,
    NewBush (fun _ _ _ => 0) (fun _ _ _ => 0) 20 scattered7 1 = Ok bush /\
    forall fuel', (queryFuel bush <= fuel')%nat ->
      (forall minX minY maxX maxY,
         exists res, Range fuel' bush minX minY maxX maxY = Ok res /\
                     res ≡ₚ bruteRange scattered7 minX minY maxX maxY) /\
      (forall (point : SimplePoint) radius, (0 <= radius)%Q ->
         exactQuery scattered7 (Coordinates point).1 (Coordinates point).2 radius
         = true ->
         exists res, Within fuel' bush point radius = Ok res /\
                     res ≡ₚ bruteWithin scattered7 (Coordinates point).1
                              (Coordinates point).2 radius).
Proof.
  apply (small_input_queries (fun _ _ _ => 0) (fun _ _ _ => 0) 20 scattered7 1).
  - unfold len. simpl. lia.
  - lia.
  - vm_compute. lia.
Defined.
